(** * Complexity measures of dynadojo: a shallow embedding

    Source: [src/dynadojo/utils/complexity_measures.py].

    Numbers.  NumPy's [float64] is idealised: finite values are exact reals
    (rounding and overflow are not modelled) and the three IEEE special
    values are kept, because the code under study reaches them by dividing
    by zero and by taking logarithms of non-positive numbers.  Zero is
    unsigned and stands for [+0.0]: every zero divisor in this file is the
    result of [abs], of a sum of non-negative terms, or of a product of
    finite values.  Where the outcome on the machine turns on a rounding
    or on an overflow (the sign of a cumulative sum, the finiteness of a
    quotient), the statement assumes the sums exact in float64
    ([exact_float64]) or the quotient within range ([float64_max]).

    Control.  A Python exception is a value of [exn]; a function that may
    raise returns a [result].  Warnings and calls to external back ends are
    recorded in an event log carried by the [py] monad. *)

From Stdlib Require Import String.
From Stdlib Require Import Reals Lra Lia List ZArith Bool.
From Stdlib Require Import Permutation Sorted.
Import ListNotations.

Open Scope R_scope.

(* ================================================================== *)
(** * Part I: definitions *)
(* ================================================================== *)

(** ** Python exceptions and results *)

Inductive exn : Type :=
| ValueError
| IndexError
| TypeError
| AxisError
| UnboundLocalError
| LinAlgError
| Exception (msg : string).

Inductive result (A : Type) : Type :=
| Ok (a : A)
| Raise (e : exn).

Arguments Ok {A} a.
Arguments Raise {A} e.

Definition rbind {A B : Type} (r : result A) (k : A -> result B) : result B :=
  match r with
  | Ok a => k a
  | Raise e => Raise e
  end.

Fixpoint result_all {A : Type} (rs : list (result A)) : result (list A) :=
  match rs with
  | [] => Ok []
  | r :: rs' =>
      rbind r (fun a => rbind (result_all rs') (fun l => Ok (a :: l)))
  end.

(** ** Idealised float64 *)

Inductive float64 : Type :=
| Fin (x : R)
| PInf
| NInf
| NaN.

Definition Rleb (x y : R) : bool := if Rle_dec x y then true else false.
Definition Rltb (x y : R) : bool := if Rlt_dec x y then true else false.
Definition Reqb (x y : R) : bool := if Req_dec_T x y then true else false.

Definition is_finite (a : float64) : bool :=
  match a with Fin _ => true | _ => false end.

Definition fadd (a b : float64) : float64 :=
  match a, b with
  | NaN, _ | _, NaN => NaN
  | PInf, NInf | NInf, PInf => NaN
  | PInf, _ | _, PInf => PInf
  | NInf, _ | _, NInf => NInf
  | Fin x, Fin y => Fin (x + y)
  end.

Definition fneg (a : float64) : float64 :=
  match a with
  | Fin x => Fin (- x)
  | PInf => NInf
  | NInf => PInf
  | NaN => NaN
  end.

(** The infinity carrying the sign of [x]; [x] is not zero where it is used. *)
Definition inf_of_sign (x : R) : float64 :=
  if Rltb 0 x then PInf else NInf.

Definition fmul (a b : float64) : float64 :=
  match a, b with
  | NaN, _ | _, NaN => NaN
  | Fin x, Fin y => Fin (x * y)
  | Fin x, PInf | PInf, Fin x =>
      if Reqb x 0 then NaN else inf_of_sign x
  | Fin x, NInf | NInf, Fin x =>
      if Reqb x 0 then NaN else inf_of_sign (- x)
  | PInf, PInf | NInf, NInf => PInf
  | PInf, NInf | NInf, PInf => NInf
  end.

Definition fdiv (a b : float64) : float64 :=
  match a, b with
  | NaN, _ | _, NaN => NaN
  | Fin x, Fin y =>
      if Reqb y 0
      then (if Reqb x 0 then NaN else inf_of_sign x)
      else Fin (x / y)
  | Fin _, PInf | Fin _, NInf => Fin 0
  | PInf, Fin y => if Rltb y 0 then NInf else PInf
  | NInf, Fin y => if Rltb y 0 then PInf else NInf
  | PInf, PInf | PInf, NInf | NInf, PInf | NInf, NInf => NaN
  end.

Definition fabs (a : float64) : float64 :=
  match a with
  | Fin x => Fin (Rabs x)
  | PInf | NInf => PInf
  | NaN => NaN
  end.

Definition fsub (a b : float64) : float64 := fadd a (fneg b).

(** [np.sqrt]: [nan] below zero. *)
Definition fsqrt (a : float64) : float64 :=
  match a with
  | Fin x => if Rltb x 0 then NaN else Fin (sqrt x)
  | PInf => PInf
  | NInf | NaN => NaN
  end.

(** [np.log]: [-inf] at zero, [nan] below it. *)
Definition flog (a : float64) : float64 :=
  match a with
  | Fin x => if Rltb 0 x then Fin (ln x) else if Reqb x 0 then NInf else NaN
  | PInf => PInf
  | NInf | NaN => NaN
  end.

(** IEEE comparisons: every comparison with [nan] is false. *)
Definition flt (a b : float64) : bool :=
  match a, b with
  | NaN, _ | _, NaN => false
  | Fin x, Fin y => Rltb x y
  | NInf, NInf | PInf, PInf => false
  | NInf, _ | _, PInf => true
  | _, NInf | PInf, _ => false
  end.

Definition fle (a b : float64) : bool :=
  match a, b with
  | NaN, _ | _, NaN => false
  | Fin x, Fin y => Rleb x y
  | NInf, _ | _, PInf => true
  | _, NInf | PInf, _ => false
  end.

Definition fgt (a b : float64) : bool := flt b a.
Definition fge (a b : float64) : bool := fle b a.

(** ** Where the idealisation is exact

    The finite float64 values are the reals [m * 2^e] with [|m| < 2^53]
    and [-1074 <= e <= 971]; the largest of them is [float64_max].  An
    operation whose exact result is such a value returns it unrounded, and
    one whose exact result does not exceed [float64_max] in magnitude does
    not overflow.  A statement whose truth on the machine depends on one
    of the two carries it as a hypothesis. *)
Definition is_float64 (x : R) : Prop :=
  exists m e : Z,
    (Z.abs m < 2 ^ 53)%Z /\ (-1074 <= e <= 971)%Z /\ x = IZR m * powerRZ 2 e.

Definition float64_max : R := (2 - powerRZ 2 (-52)) * powerRZ 2 1023.

(** A finite value that float64 holds without rounding. *)
Definition exact_float64 (a : float64) : Prop :=
  exists x, a = Fin x /\ is_float64 x.

(** ** NumPy array primitives on one axis *)

(** The order [np.sort] sorts by: the IEEE order with [nan] after
    everything else. *)
Definition sort_leb (a b : float64) : bool :=
  match a, b with
  | _, NaN => true
  | NaN, _ => false
  | _, _ => fle a b
  end.

Section Insertion.
Context {A : Type} (leb : A -> A -> bool).

Fixpoint insert (x : A) (l : list A) : list A :=
  match l with
  | [] => [x]
  | y :: l' => if leb x y then x :: l else y :: insert x l'
  end.

Fixpoint isort (l : list A) : list A :=
  match l with
  | [] => []
  | x :: l' => insert x (isort l')
  end.
End Insertion.

(** [np.sort(a)] on a 1-D array (the result is a new array; which sorting
    algorithm produces it cannot be observed on values). *)
Definition np_sort (a : list float64) : list float64 := isort sort_leb a.

(** [np.sort(a)[::-1]]. *)
Definition sort_descending (a : list float64) : list float64 := rev (np_sort a).

(** [np.sum(a)] on a 1-D array. *)
Definition np_sum (a : list float64) : float64 := fold_left fadd a (Fin 0).

(** [np.minimum] on two scalars: [nan] propagates. *)
Definition fmin (a b : float64) : float64 :=
  match a, b with
  | NaN, _ | _, NaN => NaN
  | _, _ => if fle a b then a else b
  end.

(** [np.min(a)] on a 1-D array; a zero-size array has no minimum and the
    reduction raises [ValueError]. *)
Definition np_min (a : list float64) : result float64 :=
  match a with
  | [] => Raise ValueError
  | x :: a' => Ok (fold_left fmin a' x)
  end.

(** [np.cumsum(a)]. *)
Fixpoint cumsum_from (acc : float64) (a : list float64) : list float64 :=
  match a with
  | [] => []
  | x :: a' => fadd acc x :: cumsum_from (fadd acc x) a'
  end.

Definition np_cumsum (a : list float64) : list float64 :=
  match a with
  | [] => []
  | x :: a' => x :: cumsum_from x a'
  end.

(** A 2-D array is the list of its rows. *)
Definition ncols {A : Type} (rows : list (list A)) : nat :=
  match rows with
  | [] => 0%nat
  | r :: _ => length r
  end.

Definition column {A : Type} (dflt : A) (j : nat) (rows : list (list A)) : list A :=
  map (fun r => nth j r dflt) rows.

Definition columns {A : Type} (dflt : A) (rows : list (list A)) : list (list A) :=
  map (fun j => column dflt j rows) (seq 0 (ncols rows)).

(** ** [estimate_powerlaw] *)

(** The body of [estimate_powerlaw] on a 1-D array.  All four array
    operations of the source act along axis 0:

      data = np.sort(data0, axis=0).copy()
      xmin = np.min(data, axis=0)
      n = data.shape[0]
      ahat = 1 + n / np.sum(np.log(data / xmin), axis=0)

    On the machine [data / xmin] is [inf] for a value above [float64_max]
    times [xmin]; the statements about the value of the estimate assume
    that no quotient is that large. *)
Definition estimate_powerlaw (data0 : list float64) : result float64 :=
  let data := np_sort data0 in
  rbind (np_min data) (fun xmin =>
  let n := length data in
  let ahat :=
    fadd (Fin 1)
         (fdiv (Fin (INR n))
               (np_sum (map (fun x => flog (fdiv x xmin)) data))) in
  Ok ahat).

(** The same body on a 2-D array: axis 0 runs down each column, so the
    result has one exponent per column. *)
Definition estimate_powerlaw_2d (data0 : list (list float64)) : result (list float64) :=
  match data0 with
  | [] => Raise ValueError
  | _ => result_all (map estimate_powerlaw (columns NaN data0))
  end.

(** ** Python sequences *)

(** [l[i]] for a Python or NumPy sequence: a negative index counts from
    the end, an index outside [-len, len) raises [IndexError]. *)
Definition py_index {A : Type} (l : list A) (i : Z) : result A :=
  let n := Z.of_nat (length l) in
  let k := if (i <? 0)%Z then (i + n)%Z else i in
  if ((0 <=? k)%Z && (k <? n)%Z)%bool then
    match nth_error l (Z.to_nat k) with
    | Some a => Ok a
    | None => Raise IndexError
    end
  else Raise IndexError.

(** [enumerate(l)]. *)
Definition enumerate {A : Type} (l : list A) : list (nat * A) :=
  combine (seq 0 (length l)) l.

(** ** Events: warnings and calls to the entropy back end *)

Inductive event : Type :=
| Warn (msg : string)
| EntropyCall (signal : option (list float64)).

(** A computation that logs events and may raise. *)
Definition py (A : Type) : Type := (list event * result A)%type.

Definition ret {A : Type} (a : A) : py A := ([], Ok a).

Definition raise {A : Type} (e : exn) : py A := ([], Raise e).

Definition lift {A : Type} (r : result A) : py A := ([], r).

Definition warn (msg : string) : py unit := ([Warn msg], Ok tt).

Definition bind {A B : Type} (m : py A) (k : A -> py B) : py B :=
  match m with
  | (log, Ok a) => let (log', r) := k a in (log ++ log', r)
  | (log, Raise e) => (log, Raise e)
  end.

Notation "x <- m ;; k" := (bind m (fun x => k))
  (at level 61, m at next level, right associativity).
Notation "m ;;; k" := (bind m (fun _ => k))
  (at level 61, right associativity).

(** ** [find_max_lyapunov] *)

(** One iteration of the [for exp in spectrum0[1:]] loop.  The local
    [max_exp] is [None] until its first assignment; the loop never writes
    [max_magnitude_number]. *)
Definition find_max_lyapunov_step (max_magnitude_number : float64)
    (max_exp : option float64) (exp : float64) : option float64 :=
  if fgt (fabs exp) (fabs max_magnitude_number) then Some exp else max_exp.

Definition find_max_lyapunov (spectrum0 : list float64) : result float64 :=
  rbind (py_index spectrum0 0) (fun max_magnitude_number =>
  let max_exp :=
    fold_left (find_max_lyapunov_step max_magnitude_number) (tl spectrum0) None in
  match max_exp with
  | Some v => Ok v
  | None => Raise UnboundLocalError
  end).

(** The last element of [l] whose magnitude is strictly above that of
    [x], if any. *)
Definition last_exceeding (x : float64) (l : list float64) : option float64 :=
  find (fun e => fgt (fabs e) (fabs x)) (rev l).

(** [v] is an element of [l] of largest magnitude. *)
Definition largest_magnitude (v : float64) (l : list float64) : Prop :=
  In v l /\ Forall (fun e => fle (fabs e) (fabs v) = true) l.

(** ** [kaplan_yorke_dimension] *)

(** [np.where(mask)] on a 1-D boolean array: the indices of its true
    entries, in increasing order. *)
Fixpoint where_from (i : Z) (mask : list bool) : list Z :=
  match mask with
  | [] => []
  | b :: mask' =>
      if b then i :: where_from (i + 1) mask' else where_from (i + 1) mask'
  end.

Definition np_where (mask : list bool) : list Z := where_from 0 mask.

(** [np.max] of an integer array; a zero-size array raises [ValueError]. *)
Definition np_max_int (a : list Z) : result Z :=
  match a with
  | [] => Raise ValueError
  | x :: a' => Ok (fold_left Z.max a' x)
  end.

Definition never_crosses_warning : string :=
  "Cumulative sum of Lyapunov exponents never crosses zero. System may be ill-posed or undersampled.".

(** On the machine [np.cumsum] rounds every partial sum; the statements
    that turn on the sign of a cumulative sum assume the sums exact. *)
Definition kaplan_yorke_dimension (spectrum0 : list float64) : py float64 :=
  let spectrum := sort_descending spectrum0 in
  let d := Z.of_nat (length spectrum) in
  let cspec := np_cumsum spectrum in
  j <- lift (np_max_int (np_where (map (fun c => fge c (Fin 0)) cspec))) ;;
  j <- (if (j >? d - 2)%Z
        then warn never_crosses_warning ;;; ret (d - 2)%Z
        else ret j) ;;
  cj <- lift (py_index cspec j) ;;
  sj <- lift (py_index spectrum (j + 1)) ;;
  ret (fadd (Fin (IZR (1 + j))) (fdiv cj (fabs sj))).

(** The sentence of the specification read without the clamp: [j] is the
    largest index whose cumulative sum is non-negative and the value is
    [1 + j + cumsum[j] / |spectrum[j+1]|]. *)
Definition kaplan_yorke_unclamped (spectrum0 : list float64) : result float64 :=
  let spectrum := sort_descending spectrum0 in
  let cspec := np_cumsum spectrum in
  rbind (np_max_int (np_where (map (fun c => fge c (Fin 0)) cspec))) (fun j =>
  rbind (py_index cspec j) (fun cj =>
  rbind (py_index spectrum (j + 1)) (fun sj =>
  Ok (fadd (Fin (IZR (1 + j))) (fdiv cj (fabs sj)))))).

(** [j] is the largest index of [cspec] whose entry is non-negative. *)
Definition largest_nonneg_index (cspec : list float64) (j : Z) : Prop :=
  (0 <= j < Z.of_nat (length cspec))%Z /\
  fge (nth (Z.to_nat j) cspec NaN) (Fin 0) = true /\
  forall k, (j < k < Z.of_nat (length cspec))%Z ->
            fge (nth (Z.to_nat k) cspec NaN) (Fin 0) = false.

(** The cumulative sums of the sorted spectrum stay on one side of zero:
    all of them non-negative, or all of them negative. *)
Definition never_crosses_zero (spectrum0 : list float64) : Prop :=
  let cspec := np_cumsum (sort_descending spectrum0) in
  Forall (fun c => fge c (Fin 0) = true) cspec \/
  Forall (fun c => flt c (Fin 0) = true) cspec.

(** ** [np.median], [np.diff], [np.percentile], [np.argmax] *)

Definition is_nan (a : float64) : bool :=
  match a with NaN => true | _ => false end.

(** [np.median] of a 1-D array: [nan] when the array is empty or holds a
    [nan], otherwise the middle value of the sorted array, or the mean of
    the two middle values. *)
Definition np_median (a : list float64) : float64 :=
  if existsb is_nan a then NaN else
  let s := np_sort a in
  let n := length s in
  if Nat.eqb n 0 then NaN
  else if Nat.odd n then nth (n / 2) s NaN
  else fdiv (fadd (nth (n / 2 - 1) s NaN) (nth (n / 2) s NaN)) (Fin 2).

(** [np.diff] of a 1-D array. *)
Fixpoint np_diff (a : list float64) : list float64 :=
  match a with
  | x :: ((y :: _) as a') => fsub y x :: np_diff a'
  | _ => []
  end.

(** [np.percentile(a, q)] for an integer [q] between 0 and 100, default
    (linear) method: the value at the virtual index [q/100 * (n-1)] of the
    sorted array, interpolated between its two neighbours, and [nan] on an
    array that holds a [nan].  An empty array has no element to take and
    the call raises [IndexError].  NumPy evaluates the interpolation from
    the upper neighbour when the fractional part is at least one half; on
    finite values that is the same number. *)
Definition np_percentile (a : list float64) (q : nat) : result float64 :=
  let s := np_sort a in
  let n := length s in
  if Nat.eqb n 0 then Raise IndexError else
  if existsb is_nan a then Ok NaN else
  let lo := (q * (n - 1) / 100)%nat in
  let hi := Nat.min (lo + 1) (n - 1) in
  let t := INR ((q * (n - 1)) mod 100) / 100 in
  let x := nth lo s NaN in
  let y := nth hi s NaN in
  Ok (fadd x (fmul (fsub y x) (Fin t))).

(** [np.argmax] of a 1-D boolean array: the index of the first [True], and
    0 when there is none; a zero-size array raises [ValueError]. *)
Fixpoint first_true (mask : list bool) : option nat :=
  match mask with
  | [] => None
  | b :: mask' =>
      if b then Some 0%nat else option_map S (first_true mask')
  end.

Definition np_argmax_bool (mask : list bool) : result nat :=
  match mask with
  | [] => Raise ValueError
  | _ => Ok (match first_true mask with Some i => i | None => 0%nat end)
  end.

(** ** [gp_dim] *)

(** [scipy.spatial.distance.cdist(XA, XB)] with the default Euclidean
    metric; the two arrays must have the same number of columns. *)
Definition euclidean (u v : list float64) : float64 :=
  fsqrt (np_sum (map (fun p => fmul (fsub (fst p) (snd p)) (fsub (fst p) (snd p)))
                     (combine u v))).

Definition cdist (XA XB : list (list float64)) : result (list (list float64)) :=
  if Nat.eqb (ncols XA) (ncols XB)
  then Ok (map (fun u => map (fun v => euclidean u v) XB) XA)
  else Raise ValueError.

(** [a.ravel()] on a 2-D array. *)
Definition ravel {A : Type} (rows : list (list A)) : list A := concat rows.

(** The three truncation statements of [gp_dim]; each one rebinds [rvals],
    so the second percentile is taken on what the first cut has left:

      rvals = rvals[rvals > 0]
      rvals = rvals[rvals > np.percentile(rvals, 5)]
      rvals = rvals[rvals < np.percentile(rvals, 50)] *)
Definition truncate_distances (rvals : list float64) : result (list float64) :=
  let rvals := filter (fun r => fgt r (Fin 0)) rvals in
  rbind (np_percentile rvals 5) (fun p5 =>
  let rvals := filter (fun r => fgt r p5) rvals in
  rbind (np_percentile rvals 50) (fun p50 =>
  let rvals := filter (fun r => flt r p50) rvals in
  Ok rvals)).

(** The arguments [rvals] and [nmax] of the source, and the values it
    computes from them and from [np.std(data)], never reach the returned
    value: [rvals] is overwritten by the flattened distance matrix. *)
Definition gp_dim (data : list (list float64)) (y_data : option (list (list float64)))
  : result float64 :=
  let y_data := match y_data with None => data | Some y => y end in
  rbind (cdist data y_data) (fun dists =>
  let rvals := ravel dists in
  rbind (truncate_distances rvals) (fun rvals =>
  estimate_powerlaw rvals)).

(** The distance sample as the specification words it: positive
    distances, kept when strictly between the 5th and the 50th percentile
    of the positive distances. *)
Definition distance_sample_spec (dists : list float64) : result (list float64) :=
  let positive := filter (fun r => fgt r (Fin 0)) dists in
  rbind (np_percentile positive 5) (fun p5 =>
  rbind (np_percentile positive 50) (fun p50 =>
  Ok (filter (fun r => fgt r p5 && flt r p50) positive))).

Definition gp_dim_spec (data : list (list float64)) (y_data : option (list (list float64)))
  : result float64 :=
  let y_data := match y_data with None => data | Some y => y end in
  rbind (cdist data y_data) (fun dists =>
  rbind (distance_sample_spec (ravel dists)) (fun sample =>
  estimate_powerlaw sample)).

(** Four points on a line, as a [4 x 1] trajectory. *)
Definition line_points : list (list float64) := [[Fin 0]; [Fin 1]; [Fin 2]; [Fin 6]].

(** ** [mse_mv] *)

(** A trajectory handed to [mse_mv]: [len(traj.shape)] is 1 or 2. *)
Inductive ndarray : Type :=
| Arr1 (a : list float64)
| Arr2 (rows : list (list float64)).

(** [neurokit2.entropy_multiscale(signal, dimension=..., composite=...,
    fuzzy=...)[0]].  The positional [signal] is [None] when the call site
    passes none. *)
Class Neurokit2 : Type := {
  entropy_multiscale :
    option (list float64) -> Z -> bool -> bool -> result float64
}.

(** [dysts.utils.standardize_ts]. *)
Class Standardize : Type := {
  standardize_ts : list (list float64) -> list (list float64)
}.

(** Module-level state, written once when the module is imported. *)
Record module_globals : Type := { has_neurokit : bool }.

Definition neurokit_import_warning : string :=
  "Neurokit2 must be installed before computing multiscale entropy".

Definition neurokit_missing : string :=
  "NeuroKit not installed; multiscale entropy cannot be computed.".

(** The [try: import neurokit2 ... except: ...] block at the top of the
    module. *)
Definition import_module (neurokit2_importable : bool) : py module_globals :=
  if neurokit2_importable
  then ret {| has_neurokit := true |}
  else warn neurokit_import_warning ;;; ret {| has_neurokit := false |}.

Definition call_entropy_multiscale `{Neurokit2} (signal : option (list float64))
  : py float64 :=
  ([EntropyCall signal], entropy_multiscale signal 2 true true).

(** The [for sol_coord in traj.T] loop. *)
Fixpoint mse_mv_loop `{Neurokit2} (channels : list (list float64))
    (all_mse : list float64) : py (list float64) :=
  match channels with
  | [] => ret all_mse
  | sol_coord :: channels' =>
      m <- call_entropy_multiscale (Some sol_coord) ;;
      mse_mv_loop channels' (all_mse ++ [m])
  end.

Definition mse_mv `{Neurokit2} `{Standardize} (g : module_globals) (traj : ndarray)
  : py float64 :=
  if negb (has_neurokit g) then raise (Exception neurokit_missing) else
  match traj with
  | Arr1 _ =>
      mmse <- call_entropy_multiscale None ;;
      ret mmse
  | Arr2 rows =>
      let traj := standardize_ts rows in
      all_mse <- mse_mv_loop (columns NaN traj) [] ;;
      ret (np_median all_mse)
  end.

(** A back end with the calling convention of [neurokit2]: the positional
    [signal] is required, and a call without it raises [TypeError] before
    anything is computed.  What it returns on a signal is immaterial here;
    this one returns the number of samples. *)
Definition strict_backend : Neurokit2 :=
  {| entropy_multiscale := fun signal _ _ _ =>
       match signal with
       | None => Raise TypeError
       | Some a => Ok (Fin (INR (length a)))
       end |}.

Definition identity_standardize : Standardize :=
  {| standardize_ts := fun rows => rows |}.

(** ** [pca] *)

(** [PCA().fit(data).explained_variance_ratio_] of scikit-learn. *)
Class Sklearn : Type := {
  explained_variance_ratio : list (list float64) -> result (list float64)
}.

Definition pca `{Sklearn} (data : list (list float64)) (threshold : float64)
  : result nat :=
  rbind (explained_variance_ratio data) (fun ratio =>
  let cumulative_explained_variance := np_cumsum ratio in
  rbind (np_argmax_bool (map (fun c => fge c threshold) cumulative_explained_variance))
        (fun k =>
  let n_components := (k + 1)%nat in
  Ok n_components)).

(** [k] is the first (0-based) position at which the cumulative sequence
    [cum] reaches [threshold]. *)
Definition first_reaching (cum : list float64) (threshold : float64) (k : nat) : Prop :=
  (k < length cum)%nat /\
  fge (nth k cum NaN) threshold = true /\
  forall i, (i < k)%nat -> fge (nth i cum NaN) threshold = false.

(** A decomposition that reports the same two ratios for every input;
    used to instantiate the statements about [pca]. *)
Definition fixed_ratio_pca : Sklearn :=
  {| explained_variance_ratio := fun _ => Ok [Fin (3 / 4); Fin (1 / 4)] |}.

(** What scikit-learn reports for a trajectory without variance, such as
    a point repeated: there are [min(T, D)] components, every explained
    variance is 0, so is their total, and each ratio is [0 / 0]. *)
Definition zero_variance_pca : Sklearn :=
  {| explained_variance_ratio := fun data =>
       let explained_variance := repeat (Fin 0) (Nat.min (length data) (ncols data)) in
       let total_var := np_sum explained_variance in
       Ok (map (fun v => fdiv v total_var) explained_variance) |}.

(** ** [find_lyapunov_exponents] *)

(** The dense linear algebra the estimator borrows from NumPy, and the
    finite-difference Jacobian [dysts.utils.jac_fd].  [inv] raises
    [LinAlgError] on a singular matrix. *)
Class LinAlg : Type := {
  matrix : Type;
  np_identity : nat -> matrix;
  mat_scale : matrix -> float64 -> matrix;
  mat_sub : matrix -> matrix -> matrix;
  matmul : matrix -> matrix -> matrix;
  inv : matrix -> result matrix;
  qr : matrix -> matrix * matrix;
  diagonal : matrix -> list float64;
  jac_fd : (list float64 -> list float64) -> list float64 -> matrix
}.

(** What the estimator uses of a [dysts] model.  [jac] is [None] for a
    model that does not implement an analytic Jacobian (its [jac] method
    returns [None] at every point), and [_postprocessing] is [None] for a
    model without that attribute. *)
Record Model `{LinAlg} : Type := {
  ic : list float64;
  make_trajectory : Z -> Z -> list float64 * list (list float64);
  rhs : list float64 -> float64 -> list float64;
  jac : option (list float64 -> float64 -> matrix);
  _postprocessing : option (list float64 -> list float64)
}.

(** The loop variables that survive an iteration. *)
Record lyap_state `{LinAlg} : Type := {
  u : matrix;
  all_lyap : list (list float64);
  traj_length : Z
}.

(** Result-monad fold: the loop stops at the first exception. *)
Fixpoint rfold {S A : Type} (f : S -> A -> result S) (l : list A) (s : S) : result S :=
  match l with
  | [] => Ok s
  | a :: l' => rbind (f s a) (rfold f l')
  end.

Section Lyapunov.
Context `{LA : LinAlg} (model : Model).

(** The Jacobian at a trajectory point, in post-processed coordinates
    when the model has them. *)
Definition jacobian (t : float64) (X : list float64) : result matrix :=
  let jacval :=
    match jac model with
    | None => let rhsy := fun x => rhs model x t in jac_fd rhsy X
    | Some j => j X t
    end in
  match _postprocessing model with
  | None => Ok jacval
  | Some y2h =>
      let dhdy := jac_fd y2h X in
      rbind (inv dhdy) (fun dydh =>
      Ok (matmul (matmul dhdy jacval) dydh))
  end.

Definition log_abs_diagonal (r : matrix) : list float64 :=
  map (fun x => flog (fabs x)) (diagonal r).

(** One pass through the body of the [for i, (t, X) in enumerate(...)]
    loop.  The Jacobian is computed before the [if i < 1: continue]. *)
Definition lyap_body (d : nat) (dt tol : float64) (min_tpts : Z)
    (st : lyap_state) (it : nat * (float64 * list float64)) : result lyap_state :=
  let '(i, (t, X)) := it in
  rbind (jacobian t X) (fun jacval =>
  if (i <? 1)%nat then Ok st else
  rbind (inv (mat_sub (np_identity d) (mat_scale jacval dt))) (fun m =>
  let u_n := matmul m (u st) in
  let (q, r) := qr u_n in
  let lyap_estimate := log_abs_diagonal r in
  rbind (np_min (map fabs lyap_estimate)) (fun smallest =>
  Ok {| u := q;
        all_lyap := all_lyap st ++ [lyap_estimate];
        traj_length :=
          if (flt smallest tol && (Z.of_nat i >? min_tpts)%Z)%bool
          then Z.of_nat i
          else traj_length st |}))).

(** [np.sum(np.array(rows), axis=0)] for a non-empty list of rows; rows
    of unequal length do not form an array. *)
Definition sum_axis0 (rows : list (list float64)) : result (list float64) :=
  if forallb (fun r => Nat.eqb (length r) (ncols rows)) rows
  then Ok (map np_sum (columns NaN rows))
  else Raise ValueError.

Definition find_lyapunov_exponents (traj_length0 pts_per_period : Z)
    (tol : float64) (min_tpts : Z) : result (list float64) :=
  let d := length (ic model) in
  let '(tpts, traj) := make_trajectory model traj_length0 pts_per_period in
  let dt := np_median (np_diff tpts) in
  let st0 := {| u := np_identity d; all_lyap := []; traj_length := traj_length0 |} in
  rbind (rfold (lyap_body d dt tol min_tpts) (enumerate (combine tpts traj)) st0)
        (fun st =>
  match all_lyap st with
  | [] =>
      (* the sum of an empty array is a scalar, which np.sort rejects *)
      Raise AxisError
  | rows =>
      rbind (sum_axis0 rows) (fun total =>
      let final_lyap :=
        map (fun x => fdiv x (fmul dt (Fin (IZR (traj_length st))))) total in
      Ok (sort_descending final_lyap))
  end).

(** *** The same quantities, stated without the loop *)

(** The matrix [(I - J dt)^-1] of the backward Euler step at one point. *)
Definition euler_matrix (d : nat) (dt : float64) (p : float64 * list float64)
  : result matrix :=
  rbind (jacobian (fst p) (snd p)) (fun jacval =>
  inv (mat_sub (np_identity d) (mat_scale jacval dt))).

(** The per-step contributions recorded while the frame [q0] is pushed
    through the step matrices [ms] and re-orthonormalised after each. *)
Fixpoint recorded_estimates (q0 : matrix) (ms : list matrix) : list (list float64) :=
  match ms with
  | [] => []
  | m :: ms' =>
      let (q, r) := qr (matmul m q0) in
      log_abs_diagonal r :: recorded_estimates q ms'
  end.

(** The upper-triangular factors met along the way: the frame [q0] is
    multiplied by each step matrix in turn and factored again. *)
Fixpoint upper_factors (q0 : matrix) (ms : list matrix) : list matrix :=
  match ms with
  | [] => []
  | m :: ms' =>
      let (q, r) := qr (matmul m q0) in
      r :: upper_factors q ms'
  end.

(** Whether step [i] with contribution [est] rewrites the effective
    length. *)
Definition truncates (tol : float64) (min_tpts : Z) (i : nat) (est : list float64)
  : bool :=
  match np_min (map fabs est) with
  | Ok smallest => (flt smallest tol && (Z.of_nat i >? min_tpts)%Z)%bool
  | Raise _ => false
  end.

(** The effective length after the steps numbered [i0, i0+1, ...]: the
    index of the last step that rewrites it, else the length it had. *)
Fixpoint effective_length (tol : float64) (min_tpts : Z) (len : Z) (i0 : nat)
    (ests : list (list float64)) : Z :=
  match ests with
  | [] => len
  | est :: ests' =>
      effective_length tol min_tpts
        (if truncates tol min_tpts i0 est then Z.of_nat i0 else len)
        (S i0) ests'
  end.
End Lyapunov.

(** *** A one-dimensional instance

    Linear algebra on [1 x 1] matrices, and the decay model [dX/dt = -X]
    with its analytic Jacobian, sampled at three points.  They instantiate
    the statements about the estimator. *)

Definition scalar_linalg : LinAlg :=
  {| matrix := float64;
     np_identity := fun _ => Fin 1;
     mat_scale := fmul;
     mat_sub := fsub;
     matmul := fmul;
     inv := fun m =>
       match m with
       | Fin x => if Reqb x 0 then Raise LinAlgError else Ok (Fin (1 / x))
       | _ => Ok NaN
       end;
     qr := fun m => (Fin 1, m);
     diagonal := fun m => [m];
     jac_fd := fun f X =>
       match f (map (fadd (Fin (1 / 1000))) X), f X with
       | [a], [b] => fdiv (fsub a b) (Fin (1 / 1000))
       | _, _ => NaN
       end |}.

Definition decay_model : @Model scalar_linalg :=
  @Build_Model scalar_linalg
    (* ic *) [Fin 1]
    (* make_trajectory *)
    (fun _ _ => ([Fin 0; Fin (1 / 10); Fin (2 / 10)],
                 [[Fin 1]; [Fin (9 / 10)]; [Fin (8 / 10)]]))
    (* rhs *) (fun x _ => map fneg x)
    (* jac *) (Some (fun _ _ => Fin (-1)))
    (* _postprocessing *) None.

(** ** Reference quantities on real samples *)

Definition Rsum (l : list R) : R := fold_right Rplus 0 l.

Definition Rlist_min (l : list R) : R :=
  match l with
  | [] => 0
  | x :: l' => fold_left Rmin l' x
  end.

Definition is_minimum (m : R) (l : list R) : Prop :=
  In m l /\ Forall (fun x => m <= x) l.

(** The sum [Σ log(x_i / xmin)] of the maximum-likelihood estimator. *)
Definition log_sum (xs : list R) : R :=
  Rsum (map (fun x => ln (x / Rlist_min xs)) xs).

(** The estimator [1 + n / Σ log(x_i / xmin)], which is [+inf] when the
    sum vanishes. *)
Definition mle_exponent (xs : list R) : float64 :=
  if Reqb (log_sum xs) 0
  then PInf
  else Fin (1 + INR (length xs) / log_sum xs).


(** ** [pesin] *)

(** The two accumulator lists of the source hold one element each; the
    first, [all_estimates_lyap], is never read. *)
Definition pesin (lyapval : list float64) : float64 :=
  let all_estimates_pesin := [np_sum (filter (fun x => fgt x (Fin 0)) lyapval)] in
  let pesin_entropy := np_median all_estimates_pesin in
  pesin_entropy.

(** ** Reference notions for the added properties *)

Definition is_maximum (m : R) (l : list R) : Prop :=
  In m l /\ Forall (fun x => x <= m) l.

(** [v] is zero or positive, possibly infinite. *)
Definition nonnegative (v : float64) : Prop :=
  v = PInf \/ exists s, v = Fin s /\ 0 <= s.

(** The squared Euclidean distance of two real vectors, paired off as
    [zip] pairs them. *)
Definition sqdist (a b : list R) : R :=
  Rsum (map (fun p => (fst p - snd p) * (fst p - snd p)) (combine a b)).

(** A back end that refuses a signal holding a [nan]. *)
Definition nan_rejecting_backend : Neurokit2 :=
  {| entropy_multiscale := fun signal _ _ _ =>
       match signal with
       | None => Raise TypeError
       | Some a =>
           if existsb is_nan a then Raise ValueError else Ok (Fin (INR (length a)))
       end |}.

(** * Lotka-Volterra systems

    Source: [src/dynadojo/systems/lv.py].  The quantities of this module
    are finite; they are reals, and [float64] appears where the source
    divides. *)

(** ** The random generator *)

(** NumPy's global generator: a state, and the two primitive draws the
    module relies on.  [np.random.uniform(lo, hi)] is
    [lo + (hi - lo) * random_sample()], [np.random.normal(loc, scale)] is
    [loc + scale * standard_normal()], and [np.random.random()] is
    [random_sample()]. *)
Class Rng : Type := {
  rng_state : Type;
  random_sample : rng_state -> R * rng_state;
  standard_normal : rng_state -> R * rng_state
}.

(** A computation that draws from the generator and may raise. *)
Definition rand `{Rng} (A : Type) : Type := rng_state -> result (A * rng_state).

Definition rret `{Rng} {A : Type} (a : A) : rand A := fun st => Ok (a, st).

Definition rlift `{Rng} {A : Type} (r : result A) : rand A :=
  fun st => match r with Ok a => Ok (a, st) | Raise e => Raise e end.

Definition rand_bind `{Rng} {A B : Type} (m : rand A) (k : A -> rand B) : rand B :=
  fun st => match m st with
            | Ok (a, st') => k a st'
            | Raise e => Raise e
            end.

Notation "x <~ m ;; k" := (rand_bind m (fun x => k))
  (at level 61, m at next level, right associativity).

Definition uniform `{Rng} (low high : R) : rand R :=
  fun st => let (x, st') := random_sample st in Ok (low + (high - low) * x, st').

Definition normal `{Rng} (loc scale : R) : rand R :=
  fun st => let (x, st') := standard_normal st in Ok (loc + scale * x, st').

(** [for a in l: s = body(a, s)]. *)
Fixpoint for_each `{Rng} {A S : Type} (l : list A) (s : S) (body : A -> S -> rand S)
  : rand S :=
  match l with
  | [] => rret s
  | a :: l' => s' <~ body a s ;; for_each l' s' body
  end.

(** [for i in range(n)]. *)
Definition for_range `{Rng} {S : Type} (n : nat) (s : S) (body : nat -> S -> rand S)
  : rand S :=
  for_each (seq 0 n) s body.

(** [l[i]] for an index that a [range] produced. *)
Definition index {A : Type} (l : list A) (i : nat) : result A :=
  match nth_error l i with
  | Some a => Ok a
  | None => Raise IndexError
  end.

(** Python's [int(x)] on a finite float: truncation towards zero. *)
Definition py_int (x : R) : Z :=
  if Rle_dec 0 x then Int_part x else (- Int_part (- x))%Z.

(** ** [make_init_conds] *)

(** [CompetitiveLVSystem.make_init_conds]: the range of each draw is a
    fraction of the carrying capacity [K[s]] of the species. *)
Definition competitive_make_init_conds `{Rng} (latent_dim : nat) (K : list R)
    (IND_range OOD_range : R * R) (n : Z) (in_dist : bool) : rand (list (list Z)) :=
  for_range (Z.to_nat n) [] (fun _ x0 =>
    temp <~ for_range latent_dim [] (fun s temp =>
      Ks <~ rlift (index K s) ;;
      number <~ (if in_dist
                 then uniform (fst IND_range * Ks) (snd IND_range * Ks)
                 else uniform (fst OOD_range * Ks) (snd OOD_range * Ks)) ;;
      let number := py_int number in
      let number := Z.max 1 number in
      rret (temp ++ [number])) ;;
    rret (x0 ++ [temp])).

(** [PreyPredatorSystem.make_init_conds]: the range of each draw is a
    fraction of [maxK], the same for every species. *)
Definition prey_predator_make_init_conds `{Rng} (latent_dim : nat) (maxK : R)
    (IND_range OOD_range : R * R) (n : Z) (in_dist : bool) : rand (list (list Z)) :=
  for_range (Z.to_nat n) [] (fun _ x0 =>
    temp <~ for_range latent_dim [] (fun s temp =>
      number <~ (if in_dist
                 then uniform (fst IND_range * maxK) (snd IND_range * maxK)
                 else uniform (fst OOD_range * maxK) (snd OOD_range * maxK)) ;;
      let number := py_int number in
      let number := Z.max 1 number in
      rret (temp ++ [number])) ;;
    rret (x0 ++ [temp])).

(** A generator whose draws are all in range: every [random_sample] is in
    [0, 1). *)
Definition unit_draws `{Rng} : Prop :=
  forall st, 0 <= fst (random_sample st) < 1.

(** A generator that counts its draws and returns the same two values
    each time. *)
Definition constant_rng : Rng :=
  {| rng_state := nat;
     random_sample := fun st => (1 / 2, S st);
     standard_normal := fun st => (-1, S st) |}.

(** ** Parameters of the prey-predator system *)

(** [PreyPredatorSystem._make_K]: prey get twice the range of
    predators. *)
Definition prey_predator_make_K `{Rng} (latent_dim : nat) (nPrey : Z) (minK maxK : R)
  : rand (list R) :=
  for_range latent_dim [] (fun i K =>
    k <~ (if (Z.of_nat i <? nPrey)%Z
          then uniform minK (maxK * 2)
          else uniform minK maxK) ;;
    rret (K ++ [k])).

(** [PreyPredatorSystem._make_R]: a positive rate for prey, a negative
    one for predators. *)
Definition prey_predator_make_R `{Rng} (latent_dim : nat) (nPrey : Z) : rand (list R) :=
  for_range latent_dim [] (fun i R =>
    r <~ normal 0 (1 / 2) ;;
    let r := if (Z.of_nat i <? nPrey)%Z then Rabs r else -1 * Rabs r in
    rret (R ++ [r])).

(** ** The competitive interaction matrix *)

(** [np.random.normal(loc, scale, (rows, cols))]: the array is filled row
    by row. *)
Definition normal_matrix `{Rng} (loc scale : R) (rows cols : nat) : rand (list (list R)) :=
  for_range rows [] (fun _ M =>
    row <~ for_range cols [] (fun _ row =>
      x <~ normal loc scale ;;
      rret (row ++ [x])) ;;
    rret (M ++ [row])).

(** [l[i] = v]. *)
Definition set_nth {A : Type} (l : list A) (i : nat) (v : A) : result (list A) :=
  if (i <? length l)%nat
  then Ok (firstn i l ++ v :: skipn (S i) l)
  else Raise IndexError.

(** [M[i][j] = v] on a 2-D array. *)
Definition set2 {A : Type} (M : list (list A)) (i j : nat) (v : A)
  : result (list (list A)) :=
  rbind (index M i) (fun row =>
  rbind (set_nth row j v) (fun row' =>
  set_nth M i row')).

Definition entry (M : list (list R)) (i j : nat) : R := nth j (nth i M []) 0.

(** [A / K] for a 2-D [A] and a 1-D [K] with one entry per column of [A]:
    column [j] is divided by [K[j]].  (The other shapes NumPy can broadcast
    do not arise: [K] is built with [latent_dim] entries.) *)
Definition divide_columns (A : list (list R)) (K : list R) : result (list (list float64)) :=
  if forallb (fun row => Nat.eqb (length row) (length K)) A
  then Ok (map (fun row => map (fun p => fdiv (Fin (fst p)) (Fin (snd p))) (combine row K)) A)
  else Raise ValueError.

(** [CompetitiveLVSystem._make_A]. *)
Definition competitive_make_A `{Rng} (latent_dim : nat) (K : list R)
  : rand (list (list float64)) :=
  G <~ normal_matrix 0 1 latent_dim latent_dim ;;
  let A := map (map Rabs) G in
  A <~ for_range latent_dim A (fun i A =>
         for_range latent_dim A (fun j A =>
           if Nat.eqb i j
           then rlift (set2 A i j 1)   (* intra-species is all 1 *)
           else rret A)) ;;
  rlift (divide_columns A K).

(** [M] is an [n x n] array. *)
Definition square (n : nat) (M : list (list R)) : Prop :=
  length M = n /\ forall a, (a < n)%nat -> length (nth a M []) = n.

(** ** [calc_error] *)

(** [np.mean] over every element of an array. *)
Definition np_mean (a : list float64) : float64 :=
  fdiv (np_sum a) (Fin (INR (length a))).

(** [calc_error] of both systems.  The two arrays have the same shape and
    are given by their elements in storage order; [np.mean] reduces over
    all of them.  (Broadcasting between different shapes is not
    modelled.  On the machine a square can overflow to [inf] and a small
    one underflow to 0; the statement about the value assumes the sum of
    the squares within the float64 range and draws nothing from a zero
    error.) *)
Definition calc_error (latent_dim : nat) (x y : list float64) : result float64 :=
  if Nat.eqb (length x) (length y)
  then
    let error := map (fun p => fsub (fst p) (snd p)) (combine x y) in
    Ok (fdiv (np_mean (map (fun e => fmul e e) error)) (Fin (INR latent_dim)))
  else Raise ValueError.

(** ** The right-hand sides handed to the integrator *)

(** [np.linspace(start, stop, num)]. *)
Definition linspace (start stop : R) (num : nat) : list R :=
  map (fun k => start + INR k * ((stop - start) / INR (num - 1))) (seq 0 num).

(** [np.argmin] of a 1-D array: the first index of the minimum. *)
Fixpoint argmin_from (best_i : nat) (best : R) (i : nat) (l : list R) : nat :=
  match l with
  | [] => best_i
  | x :: l' =>
      if Rltb x best
      then argmin_from i x (S i) l'
      else argmin_from best_i best (S i) l'
  end.

Definition np_argmin (l : list R) : result nat :=
  match l with
  | [] => Raise ValueError
  | x :: l' => Ok (argmin_from 0 x 1 l')
  end.

(** An element-wise operation on two 1-D arrays, with NumPy's
    broadcasting of a one-element operand. *)
Definition broadcast2 (f : R -> R -> R) (a b : list R) : result (list R) :=
  if Nat.eqb (length a) (length b)
  then Ok (map (fun p => f (fst p) (snd p)) (combine a b))
  else match a, b with
       | [x], _ => Ok (map (f x) b)
       | _, [y] => Ok (map (fun x => f x y) a)
       | _, _ => Raise ValueError
       end.

(** [A @ X] for a 2-D [A] and a 1-D [X]. *)
Definition matvec (A : list (list R)) (X : list R) : result (list R) :=
  if forallb (fun row => Nat.eqb (length row) (length X)) A
  then Ok (map (fun row => Rsum (map (fun p => fst p * snd p) (combine row X))) A)
  else Raise ValueError.

(** [np.random.normal(loc, scale, n)]. *)
Definition normal_vector `{Rng} (loc scale : R) (n : nat) : rand (list R) :=
  for_range n [] (fun _ v => x <~ normal loc scale ;; rret (v ++ [x])).

(** The closure [dynamics(t, X, u)] of [CompetitiveLVSystem.make_data];
    [time] is [np.linspace(0, 100, timesteps)]. *)
Definition competitive_dynamics `{Rng} (latent_dim : nat) (R_ : list R)
    (A : list (list R)) (noise_scale : R) (timesteps : nat) (noisy : bool)
    (t : R) (X : list R) (u : list (list R)) : rand (list R) :=
  let time := linspace 0 100 timesteps in
  i <~ rlift (np_argmin (map (fun tk => Rabs (t - tk)) time)) ;;
  if noisy then
    noise <~ normal_vector 0 noise_scale latent_dim ;;
    XR <~ rlift (broadcast2 Rmult X R_) ;;
    AX <~ rlift (matvec A X) ;;
    growth <~ rlift (broadcast2 Rplus (map (fun v => 1 - v) AX) noise) ;;
    prod <~ rlift (broadcast2 Rmult XR growth) ;;
    ui <~ rlift (index u i) ;;
    rlift (broadcast2 Rplus prod ui)
  else
    XR <~ rlift (broadcast2 Rmult X R_) ;;
    AX <~ rlift (matvec A X) ;;
    prod <~ rlift (broadcast2 Rmult XR (map (fun v => 1 - v) AX)) ;;
    ui <~ rlift (index u i) ;;
    rlift (broadcast2 Rplus prod ui).

(** The closure [dynamics(t, X, u)] of [PreyPredatorSystem.make_data];
    without noise the noise vector is [np.zeros(latent_dim)]. *)
Definition prey_predator_dynamics `{Rng} (latent_dim : nat) (R_ : list R)
    (A : list (list R)) (noise_scale : R) (timesteps : nat) (noisy : bool)
    (t : R) (X : list R) (u : list (list R)) : rand (list R) :=
  let time := linspace 0 100 timesteps in
  i <~ rlift (np_argmin (map (fun tk => Rabs (t - tk)) time)) ;;
  noise <~ (if noisy
            then normal_vector 0 noise_scale latent_dim
            else rret (repeat 0 latent_dim)) ;;
  AX <~ rlift (matvec A X) ;;
  RAX <~ rlift (broadcast2 Rplus R_ AX) ;;
  growth <~ rlift (broadcast2 Rplus RAX noise) ;;
  prod <~ rlift (broadcast2 Rmult X growth) ;;
  ui <~ rlift (index u i) ;;
  rlift (broadcast2 Rplus prod ui).

(** ** [make_data] *)

(** The [control] argument: [None], a Python list of 2-D arrays, or a 3-D
    NumPy array. *)
Inductive control_arg : Type :=
| ControlNone
| ControlList (c : list (list (list R)))
| ControlArray (c : list (list (list R))).

Definition array_size (c : list (list (list R))) : nat :=
  length (concat (concat c)).

(** The truth value that [if control:] asks for.  A NumPy array of more
    than one element has none and the test raises [ValueError]; an empty
    array tests false (NumPy 1.x, with a deprecation warning). *)
Definition truth_value (control : control_arg) : result bool :=
  match control with
  | ControlNone => Ok false
  | ControlList c => Ok (negb (Nat.eqb (length c) 0))
  | ControlArray c =>
      match concat (concat c) with
      | [] => Ok false
      | [x] => Ok (negb (Reqb x 0))
      | _ => Raise ValueError
      end
  end.

Definition control_items (control : control_arg) : list (list (list R)) :=
  match control with
  | ControlNone => []
  | ControlList c | ControlArray c => c
  end.

(** [scipy.integrate.solve_ivp(fun, t_span, y0, t_eval=..., args=(u,)).y]:
    the external integrator, which calls [fun] as it sees fit. *)
Class Integrator `{Rng} : Type := {
  solve_ivp :
    (R -> list R -> list (list R) -> rand (list R)) ->
    R * R -> list R -> list R -> list (list R) -> rand (list (list R))
}.

(** [np.transpose(np.array(data), axes=(0, 2, 1))] for a list of 2-D
    arrays.  An empty list makes a 1-D array, arrays of different shapes
    make none, and in both cases the call raises [ValueError]. *)
Definition transpose_021 (data : list (list (list R))) : result (list (list (list R))) :=
  match data with
  | [] => Raise ValueError
  | first :: _ =>
      if forallb (fun a =>
                    Nat.eqb (length a) (length first) &&
                    forallb (fun row => Nat.eqb (length row) (ncols first)) a) data
      then Ok (map (columns 0) data)
      else Raise ValueError
  end.

(** [CompetitiveLVSystem.make_data].  In the branch with control the
    solution is computed and dropped: [data] is appended to in the other
    branch only. *)
Definition competitive_make_data `{RNG : Rng} `{@Integrator RNG} (latent_dim : nat)
    (R_ : list R) (A : list (list R)) (noise_scale : R)
    (init_conds : list (list R)) (control : control_arg) (timesteps : nat)
    (noisy : bool) : rand (list (list (list R))) :=
  let time := linspace 0 100 timesteps in
  let dynamics :=
    fun t X u => competitive_dynamics latent_dim R_ A noise_scale timesteps noisy t X u in
  truthy <~ rlift (truth_value control) ;;
  data <~ (if truthy : bool
           then
             for_each (combine init_conds (control_items control)) []
               (fun p data =>
                  sol <~ solve_ivp dynamics (0, 1) (fst p) time (snd p) ;;
                  rret data)
           else
             for_each init_conds []
               (fun x0 data =>
                  let u := repeat (repeat 0 latent_dim) timesteps in
                  sol <~ solve_ivp dynamics (0, 100) x0 time u ;;
                  rret (data ++ [sol]))) ;;
  rlift (transpose_021 data).

(** An integrator that holds the initial state at every requested time and
    calls nothing. *)
Definition frozen_integrator : @Integrator constant_rng :=
  {| solve_ivp := fun _ _ y0 t_eval _ =>
       rret (map (fun y => repeat y (length t_eval)) y0) |}.

(** ** The prey-predator interaction matrix *)

Definition random `{Rng} : rand R :=
  fun st => let (x, st') := random_sample st in Ok (x, st').

(** [M[i][j]] read from a 2-D array. *)
Definition get2 {A : Type} (M : list (list A)) (i j : nat) : result A :=
  rbind (index M i) (fun row => index row j).

(** [PreyPredatorSystem._make_A].  Every write goes into the array the
    following reads see. *)
Definition prey_predator_make_A `{Rng} (latent_dim : nat) (nPrey : Z) (K : list R)
  : rand (list (list float64)) :=
  A <~ normal_matrix 0 1 latent_dim latent_dim ;;
  A <~ for_range latent_dim A (fun i A =>
         for_range latent_dim A (fun j A =>
           if Nat.eqb i j then
             if (Z.of_nat i <? nPrey)%Z then
               x <~ normal 0 (1 / 100) ;;
               rlift (set2 A i j (-1 * Rabs x))
             else
               x <~ normal 0 (1 / 10) ;;
               rlift (set2 A i j (-1 * Rabs x))
           else if (Z.of_nat i <? nPrey)%Z then
             if (Z.of_nat j <? nPrey)%Z then
               A <~ rlift (set2 A i j 0) ;;
               rlift (set2 A j i 0)
             else
               r <~ random ;;
               if Rltb r (1 / 10) then
                 A <~ rlift (set2 A i j 0) ;;
                 rlift (set2 A j i 0)
               else
                 a <~ rlift (get2 A j i) ;;
                 A <~ rlift (set2 A i j (-1 * Rabs a)) ;;
                 a <~ rlift (get2 A j i) ;;
                 rlift (set2 A j i (Rabs a))
           else if (Z.of_nat i >=? nPrey)%Z then
             if (Z.of_nat j >=? nPrey)%Z then
               a <~ rlift (get2 A j i) ;;
               A <~ rlift (set2 A i j (-1 * Rabs a)) ;;
               a <~ rlift (get2 A j i) ;;
               rlift (set2 A j i (Rabs a))
             else rret A
           else rret A)) ;;
  rlift (divide_columns A K).

(** Step [(a, b)] of the two nested loops comes before step [(i, j)]. *)
Definition done (i j a b : nat) : Prop := (a < i \/ (a = i /\ b < j))%nat.

(** What the loops have established when they reach step [(i, j)];
    species below [nPrey] are prey. *)
Definition sign_invariant (n : nat) (nPrey : Z) (i j : nat) (B : list (list R)) : Prop :=
  let prey := fun a => (Z.of_nat a < nPrey)%Z in
  square n B /\
  (forall a, (a < n)%nat -> done i j a a -> entry B a a <= 0) /\
  (forall a b, (a < n)%nat -> (b < n)%nat -> a <> b -> prey a -> prey b ->
               done i j a b \/ done i j b a -> entry B a b = 0) /\
  (forall a b, (a < n)%nat -> (b < n)%nat -> prey a -> ~ prey b -> done i j a b ->
               entry B a b <= 0 /\ entry B b a = - entry B a b) /\
  (forall a b, (a < n)%nat -> (b < n)%nat -> ~ prey a -> ~ prey b -> (a < b)%nat ->
               done i j a b -> ~ done i j b a ->
               entry B a b <= 0 /\ entry B b a = - entry B a b) /\
  (forall a b, (a < n)%nat -> (b < n)%nat -> ~ prey a -> ~ prey b -> (a < b)%nat ->
               done i j b a ->
               0 <= entry B a b /\ entry B b a = - entry B a b).

(** [B'] is [B] with [v1] written at [(i, j)] and [v2] at [(j, i)]. *)
Definition pair_write (n : nat) (B B' : list (list R)) (i j : nat) (v1 v2 : R) : Prop :=
  square n B' /\
  forall a b, entry B' a b =
              if (Nat.eqb a i && Nat.eqb b j)%bool then v1
              else if (Nat.eqb a j && Nat.eqb b i)%bool then v2
              else entry B a b.

(* ================================================================== *)
(** * Part II: properties *)
(* ================================================================== *)

(** ** The float64 range *)

Lemma float64_max_large (x : R) : x <= 1024 -> x <= float64_max.
Proof.
  intros H. unfold float64_max.
  assert (H1 : powerRZ 2 (-52) <= 1).
  { change (powerRZ 2 (-52)) with (/ 2 ^ 52).
    assert (P : 1 <= 2 ^ 52) by (apply pow_R1_Rle; lra).
    rewrite <- Rinv_1. apply Rinv_le_contravar; lra. }
  assert (H2 : 1024 <= powerRZ 2 1023).
  { replace 1023%Z with (Z.of_nat 1023) by reflexivity. rewrite <- pow_powerRZ.
    replace 1024 with (2 ^ 10) by (cbn; lra).
    apply Rle_pow; [lra | lia]. }
  nra.
Qed.

Lemma is_float64_integer (n : Z) : (Z.abs n < 2 ^ 53)%Z -> is_float64 (IZR n).
Proof.
  intros H. exists n, 0%Z. split; [exact H|]. split; [lia|]. cbn. ring.
Qed.

(** ** Deciding comparisons on reals *)

Lemma Rleb_true (x y : R) : Rleb x y = true <-> x <= y.
Proof. unfold Rleb; destruct (Rle_dec x y); split; intros; auto; discriminate. Qed.

Lemma Rleb_false (x y : R) : Rleb x y = false <-> y < x.
Proof.
  unfold Rleb; destruct (Rle_dec x y); split; intros; auto; try discriminate; lra.
Qed.

Lemma Rltb_true (x y : R) : Rltb x y = true <-> x < y.
Proof. unfold Rltb; destruct (Rlt_dec x y); split; intros; auto; discriminate. Qed.

Lemma Rltb_false (x y : R) : Rltb x y = false <-> y <= x.
Proof.
  unfold Rltb; destruct (Rlt_dec x y); split; intros; auto; try discriminate; lra.
Qed.

Lemma Reqb_true (x y : R) : Reqb x y = true <-> x = y.
Proof. unfold Reqb; destruct (Req_dec_T x y); split; intros; auto; discriminate. Qed.

Lemma Reqb_false (x y : R) : Reqb x y = false <-> x <> y.
Proof.
  unfold Reqb; destruct (Req_dec_T x y); split; intros; auto; try discriminate.
  contradiction.
Qed.

(** Evaluate every comparison of the goal whose outcome [lra] can settle. *)
Ltac Rdecide :=
  repeat match goal with
  | |- context [Rleb ?x ?y] =>
      first [ replace (Rleb x y) with true by (symmetry; apply Rleb_true; lra)
            | replace (Rleb x y) with false by (symmetry; apply Rleb_false; lra) ]
  | |- context [Rltb ?x ?y] =>
      first [ replace (Rltb x y) with true by (symmetry; apply Rltb_true; lra)
            | replace (Rltb x y) with false by (symmetry; apply Rltb_false; lra) ]
  | |- context [Reqb ?x ?y] =>
      first [ replace (Reqb x y) with true by (symmetry; apply Reqb_true; lra)
            | replace (Reqb x y) with false by (symmetry; apply Reqb_false; lra) ]
  end.

(** Evaluate a closed expression of the embedding: unfold what computes
    and settle each real comparison with [lra]. *)
Ltac pos_eval :=
  repeat match goal with
  | |- context [Pos.to_nat ?p] =>
      let v := eval vm_compute in (Pos.to_nat p) in
      progress change (Pos.to_nat p) with v
  end.

Ltac Rabs_eval :=
  repeat match goal with
  | |- context [Rabs ?x] =>
      first [ rewrite (Rabs_pos_eq x) by lra | rewrite (Rabs_left x) by lra ]
  end.

Ltac np_eval := repeat (progress (cbn; pos_eval; Rabs_eval; Rdecide)).

(** Evaluate [np.sort] and a [filter] on closed lists comparison by
    comparison. *)
Ltac sort_eval :=
  unfold np_sort; cbn [isort];
  repeat (progress (cbn [insert sort_leb fle]; Rdecide)).

Ltac filter_eval :=
  repeat (progress (cbn [filter fgt flt fle fge andb]; Rdecide)).

Ltac nat_eval :=
  repeat match goal with
  | |- context [(?a / 100)%nat] =>
      let v := eval vm_compute in (a / 100)%nat in
      progress change (a / 100)%nat with v
  | |- context [(?a mod 100)%nat] =>
      let v := eval vm_compute in (a mod 100)%nat in
      progress change (a mod 100)%nat with v
  end.

(** Close an equation between two evaluated results that differ only in
    the way a real number is written. *)
Ltac fin_eq :=
  repeat match goal with
  | |- context [Fin ?a] =>
      match goal with
      | |- _ = ?rhs =>
          match rhs with
          | context [Fin ?b] =>
              progress (replace a with b by (first [lra | field | field; lra]))
          end
      end
  end; reflexivity.

(** ** Results *)

Lemma result_all_map_Ok {A B : Type} (f : A -> result B) (g : A -> B) (l : list A) :
  (forall a, In a l -> f a = Ok (g a)) ->
  result_all (map f l) = Ok (map g l).
Proof.
  induction l as [|a l IH]; intros Hf; simpl; [reflexivity|].
  rewrite (Hf a) by (left; reflexivity). simpl.
  rewrite IH by (intros b Hb; apply Hf; right; exact Hb).
  reflexivity.
Qed.

(** ** Insertion sort *)

Section InsertionFacts.
Context {A : Type} (leb : A -> A -> bool).
Hypothesis leb_total : forall a b, leb a b = true \/ leb b a = true.
Hypothesis leb_trans : forall a b c, leb a b = true -> leb b c = true -> leb a c = true.

Lemma insert_perm (x : A) (l : list A) : Permutation (insert leb x l) (x :: l).
Proof.
  induction l as [|y l IH]; simpl; [apply Permutation_refl|].
  destruct (leb x y); [apply Permutation_refl|].
  eapply Permutation_trans; [apply perm_skip, IH | apply perm_swap].
Qed.

Lemma isort_perm (l : list A) : Permutation (isort leb l) l.
Proof.
  induction l as [|x l IH]; simpl; [constructor|].
  eapply Permutation_trans; [apply insert_perm | apply perm_skip, IH].
Qed.

Lemma isort_length (l : list A) : length (isort leb l) = length l.
Proof. apply Permutation_length, isort_perm. Qed.

Lemma insert_sorted (x : A) (l : list A) :
  StronglySorted (fun a b => leb a b = true) l ->
  StronglySorted (fun a b => leb a b = true) (insert leb x l).
Proof.
  induction l as [|y l IH]; intros Hs; simpl.
  - constructor; constructor.
  - inversion Hs as [|? ? Hl Hy]; subst.
    destruct (leb x y) eqn:E.
    + constructor; [exact Hs|].
      constructor; [exact E|].
      eapply Forall_impl; [|exact Hy].
      intros z Hz. eapply leb_trans; eauto.
    + constructor; [apply IH; exact Hl|].
      assert (Hyx : leb y x = true) by (destruct (leb_total x y); congruence).
      eapply Permutation_Forall; [apply Permutation_sym, insert_perm|].
      constructor; assumption.
Qed.

Lemma isort_sorted (l : list A) :
  StronglySorted (fun a b => leb a b = true) (isort leb l).
Proof.
  induction l as [|x l IH]; simpl; [constructor|].
  apply insert_sorted, IH.
Qed.
End InsertionFacts.

Lemma StronglySorted_rev {A : Type} (R : A -> A -> Prop) (l : list A) :
  StronglySorted R l -> StronglySorted (fun a b => R b a) (rev l).
Proof.
  induction l as [|a l IH]; simpl; intros H; [constructor|].
  inversion H as [|? ? Hs Hf]; subst.
  specialize (IH Hs).
  assert (G : forall l1, StronglySorted (fun a b => R b a) l1 ->
                         Forall (fun b => R a b) l1 ->
                         StronglySorted (fun a b => R b a) (l1 ++ [a])).
  { induction l1 as [|b l1 IH1]; simpl; intros S1 F1.
    - constructor; constructor.
    - inversion S1; subst. inversion F1; subst.
      constructor; [apply IH1; assumption|].
      apply Forall_app; split; [assumption|].
      constructor; [assumption | constructor]. }
  apply G; [exact IH|].
  apply Forall_rev. exact Hf.
Qed.

(** ** The sort order of [np.sort] *)

Lemma sort_leb_total (a b : float64) : sort_leb a b = true \/ sort_leb b a = true.
Proof.
  destruct a as [x| | |], b as [y| | |]; simpl; auto.
  destruct (Rle_dec x y) as [H|H].
  - left. apply Rleb_true. exact H.
  - right. apply Rleb_true. lra.
Qed.

Lemma sort_leb_trans (a b c : float64) :
  sort_leb a b = true -> sort_leb b c = true -> sort_leb a c = true.
Proof.
  destruct a as [x| | |], b as [y| | |], c as [z| | |]; simpl;
    intros H1 H2; try reflexivity; try discriminate.
  apply Rleb_true in H1. apply Rleb_true in H2. apply Rleb_true. lra.
Qed.

Lemma np_sort_perm (a : list float64) : Permutation (np_sort a) a.
Proof. apply isort_perm. Qed.

Lemma np_sort_length (a : list float64) : length (np_sort a) = length a.
Proof. apply isort_length. Qed.

Lemma np_sort_sorted (a : list float64) :
  StronglySorted (fun x y => sort_leb x y = true) (np_sort a).
Proof. apply isort_sorted; [apply sort_leb_total | apply sort_leb_trans]. Qed.

Lemma sort_descending_perm (a : list float64) : Permutation (sort_descending a) a.
Proof.
  unfold sort_descending.
  eapply Permutation_trans; [apply Permutation_sym, Permutation_rev | apply np_sort_perm].
Qed.

Lemma sort_descending_length (a : list float64) :
  length (sort_descending a) = length a.
Proof. apply Permutation_length, sort_descending_perm. Qed.

Lemma sort_descending_sorted (a : list float64) :
  StronglySorted (fun x y => sort_leb y x = true) (sort_descending a).
Proof. apply StronglySorted_rev, np_sort_sorted. Qed.

(** ** Sums and minima of real samples *)

Lemma Rsum_perm (l1 l2 : list R) : Permutation l1 l2 -> Rsum l1 = Rsum l2.
Proof.
  induction 1 as [|x l l' _ IH|x y l|l l' l'' _ IH1 _ IH2]; simpl.
  - reflexivity.
  - rewrite IH. reflexivity.
  - lra.
  - congruence.
Qed.

Lemma Rsum_nonneg (l : list R) : Forall (fun x => 0 <= x) l -> 0 <= Rsum l.
Proof.
  induction 1 as [|x l Hx _ IH]; simpl; lra.
Qed.

Lemma Rsum_zero_iff (l : list R) :
  Forall (fun x => 0 <= x) l -> (Rsum l = 0 <-> Forall (fun x => x = 0) l).
Proof.
  induction 1 as [|x l Hx Hl IH]; simpl.
  - split; intros; [constructor | reflexivity].
  - pose proof (Rsum_nonneg l Hl) as Hs. split.
    + intros H. constructor; [lra|]. apply IH. lra.
    + intros H. inversion H as [|? ? H0 H1]; subst.
      apply IH in H1. lra.
Qed.

Lemma fold_left_Rmin_le (l : list R) (a : R) : fold_left Rmin l a <= a.
Proof.
  revert a. induction l as [|x l IH]; intros a; simpl; [lra|].
  eapply Rle_trans; [apply IH | apply Rmin_l].
Qed.

Lemma fold_left_Rmin_lower (l : list R) (a : R) :
  Forall (fun x => fold_left Rmin l a <= x) l.
Proof.
  revert a. induction l as [|x l IH]; intros a; simpl; constructor.
  - eapply Rle_trans; [apply fold_left_Rmin_le | apply Rmin_r].
  - apply IH.
Qed.

Lemma fold_left_Rmin_In (l : list R) (a : R) :
  fold_left Rmin l a = a \/ In (fold_left Rmin l a) l.
Proof.
  revert a. induction l as [|x l IH]; intros a; simpl; [left; reflexivity|].
  destruct (IH (Rmin a x)) as [H|H].
  - rewrite H. unfold Rmin. destruct (Rle_dec a x); auto.
  - right. right. exact H.
Qed.

Lemma Rlist_min_is_minimum (l : list R) : l <> [] -> is_minimum (Rlist_min l) l.
Proof.
  destruct l as [|a l]; [congruence|]. intros _. unfold is_minimum; simpl. split.
  - destruct (fold_left_Rmin_In l a) as [H|H]; [left; symmetry; exact H | right; exact H].
  - constructor; [apply fold_left_Rmin_le | apply fold_left_Rmin_lower].
Qed.

Lemma is_minimum_unique (m1 m2 : R) (l : list R) :
  is_minimum m1 l -> is_minimum m2 l -> m1 = m2.
Proof.
  intros [I1 F1] [I2 F2].
  rewrite Forall_forall in F1, F2.
  specialize (F1 _ I2). specialize (F2 _ I1). lra.
Qed.

Lemma is_minimum_perm (m : R) (l1 l2 : list R) :
  Permutation l1 l2 -> is_minimum m l1 -> is_minimum m l2.
Proof.
  intros P [I F]. split.
  - eapply Permutation_in; eauto.
  - eapply Permutation_Forall; eauto.
Qed.

Lemma Rlist_min_perm (l1 l2 : list R) :
  Permutation l1 l2 -> Rlist_min l1 = Rlist_min l2.
Proof.
  intros P. destruct l1 as [|a l1].
  - apply Permutation_nil in P. subst. reflexivity.
  - assert (N2 : l2 <> []).
    { intros ->. apply Permutation_sym, Permutation_nil in P. discriminate. }
    eapply is_minimum_unique with (l := l2).
    + eapply is_minimum_perm; [exact P|]. apply Rlist_min_is_minimum. discriminate.
    + apply Rlist_min_is_minimum. exact N2.
Qed.

Lemma log_sum_perm (l1 l2 : list R) :
  Permutation l1 l2 -> log_sum l1 = log_sum l2.
Proof.
  intros P. unfold log_sum. rewrite (Rlist_min_perm _ _ P).
  apply Rsum_perm, Permutation_map, P.
Qed.

Lemma mle_exponent_perm (l1 l2 : list R) :
  Permutation l1 l2 -> mle_exponent l1 = mle_exponent l2.
Proof.
  intros P. unfold mle_exponent.
  rewrite (log_sum_perm _ _ P), (Permutation_length P). reflexivity.
Qed.

(** Each term of the log-sum is non-negative, and vanishes exactly at the
    minimum. *)
Lemma log_ratio_nonneg (m x : R) : 0 < m -> m <= x -> 0 <= ln (x / m).
Proof.
  intros Hm Hx.
  assert (H1 : 1 <= x / m).
  { apply (Rmult_le_reg_r m); [exact Hm|]. field_simplify; lra. }
  destruct H1 as [H1|H1].
  - left. rewrite <- ln_1. apply ln_increasing; lra.
  - rewrite <- H1, ln_1. lra.
Qed.

Lemma log_ratio_zero (m x : R) : 0 < m -> 0 < x -> ln (x / m) = 0 -> x = m.
Proof.
  intros Hm Hx H.
  assert (Hq : 0 < x / m) by (apply Rdiv_lt_0_compat; assumption).
  rewrite <- ln_1 in H. apply ln_inv in H; [|exact Hq|lra].
  apply (f_equal (fun z => z * m)) in H. field_simplify in H; lra.
Qed.

Lemma log_sum_zero_iff (xs : list R) :
  xs <> [] -> Forall (fun x => 0 < x) xs ->
  (log_sum xs = 0 <-> Forall (fun x => x = Rlist_min xs) xs).
Proof.
  intros N P.
  destruct (Rlist_min_is_minimum xs N) as [Im Fm].
  set (m := Rlist_min xs) in *.
  assert (Hm : 0 < m) by (rewrite Forall_forall in P; apply P; exact Im).
  unfold log_sum. fold m.
  assert (NN : Forall (fun y => 0 <= y) (map (fun x => ln (x / m)) xs)).
  { apply Forall_map. eapply Forall_impl; [|exact Fm].
    intros x Hx. apply log_ratio_nonneg; assumption. }
  rewrite (Rsum_zero_iff _ NN), Forall_map.
  rewrite !Forall_forall. split; intros H x Hx.
  - apply log_ratio_zero; [exact Hm | rewrite Forall_forall in P; auto | auto].
  - rewrite (H x Hx). unfold Rdiv. rewrite Rinv_r by lra. apply ln_1.
Qed.

(** ** Array primitives on finite samples *)

Lemma fmin_Fin (a b : R) : fmin (Fin a) (Fin b) = Fin (Rmin a b).
Proof.
  unfold fmin, fle, Rleb, Rmin. destruct (Rle_dec a b); reflexivity.
Qed.

Lemma fold_left_fmin_Fin (l : list R) (a : R) :
  fold_left fmin (map Fin l) (Fin a) = Fin (fold_left Rmin l a).
Proof.
  revert a. induction l as [|x l IH]; intros a; cbn [map fold_left]; [reflexivity|].
  rewrite fmin_Fin. apply IH.
Qed.

Lemma np_min_Fin (l : list R) :
  l <> [] -> np_min (map Fin l) = Ok (Fin (Rlist_min l)).
Proof.
  destruct l as [|a l]; [congruence|]. intros _. simpl.
  rewrite fold_left_fmin_Fin. reflexivity.
Qed.

Lemma fold_left_fadd_Fin (l : list R) (a : R) :
  fold_left fadd (map Fin l) (Fin a) = Fin (a + Rsum l).
Proof.
  revert a. induction l as [|x l IH]; intros a; cbn [map fold_left fadd Rsum fold_right].
  - f_equal. lra.
  - rewrite IH. f_equal. fold (Rsum l). lra.
Qed.

Lemma np_sum_Fin (l : list R) : np_sum (map Fin l) = Fin (Rsum l).
Proof.
  unfold np_sum. rewrite fold_left_fadd_Fin. f_equal. lra.
Qed.

Lemma flog_ratio_Fin (m x : R) :
  0 < m -> 0 < x -> flog (fdiv (Fin x) (Fin m)) = Fin (ln (x / m)).
Proof.
  intros Hm Hx.
  assert (Hq : 0 < x / m) by (apply Rdiv_lt_0_compat; assumption).
  unfold fdiv. replace (Reqb m 0) with false by (symmetry; apply Reqb_false; lra).
  unfold flog. replace (Rltb 0 (x / m)) with true by (symmetry; apply Rltb_true; exact Hq).
  reflexivity.
Qed.

(** A permutation of a finite sample is a finite sample. *)
Lemma np_sort_Fin (xs : list R) :
  exists ys, np_sort (map Fin xs) = map Fin ys /\ Permutation xs ys.
Proof.
  apply Permutation_map_inv, np_sort_perm.
Qed.

(** ** [estimate_powerlaw] on positive samples *)

Lemma Rlist_min_eq (m : R) (l : list R) : is_minimum m l -> Rlist_min l = m.
Proof.
  intros H. apply is_minimum_unique with (l := l); [|exact H].
  apply Rlist_min_is_minimum. destruct H as [Hin _]. intros ->. contradiction.
Qed.

Lemma estimate_powerlaw_positive (xs : list R) :
  xs <> [] -> Forall (fun x => 0 < x) xs ->
  estimate_powerlaw (map Fin xs) = Ok (mle_exponent xs).
Proof.
  intros N P. unfold estimate_powerlaw.
  destruct (np_sort_Fin xs) as [ys [E Pm]]. rewrite E.
  assert (Ny : ys <> []).
  { intros ->. apply Permutation_sym, Permutation_nil in Pm. contradiction. }
  assert (Py : Forall (fun x => 0 < x) ys) by (eapply Permutation_Forall; eauto).
  rewrite (np_min_Fin ys Ny). simpl rbind.
  destruct (Rlist_min_is_minimum ys Ny) as [Im _].
  assert (Hm : 0 < Rlist_min ys) by (rewrite Forall_forall in Py; auto).
  rewrite map_map.
  rewrite (map_ext_in _ (fun x => Fin (ln (x / Rlist_min ys)))).
  2:{ intros x Hx. apply flog_ratio_Fin; [exact Hm|].
      rewrite Forall_forall in Py; auto. }
  rewrite <- (map_map (fun x => ln (x / Rlist_min ys)) Fin), np_sum_Fin.
  fold (log_sum ys). rewrite length_map.
  rewrite (mle_exponent_perm xs ys Pm). unfold mle_exponent.
  assert (Hn : 0 < INR (length ys)).
  { apply lt_0_INR. destruct ys; [congruence | simpl; lia]. }
  unfold fdiv. destruct (Reqb (log_sum ys) 0) eqn:Ez.
  - replace (Reqb (INR (length ys)) 0) with false
      by (symmetry; apply Reqb_false; lra).
    unfold inf_of_sign.
    replace (Rltb 0 (INR (length ys))) with true
      by (symmetry; apply Rltb_true; exact Hn).
    reflexivity.
  - reflexivity.
Qed.

Lemma column_Fin (rows : list (list R)) (k j : nat) :
  Forall (fun r => length r = k) rows -> (j < k)%nat ->
  column NaN j (map (map Fin) rows) = map Fin (column 0 j rows).
Proof.
  intros H Hj. unfold column. rewrite !map_map.
  apply map_ext_in. intros r Hr.
  rewrite Forall_forall in H. specialize (H r Hr).
  rewrite (nth_indep _ NaN (Fin 0)) by (rewrite length_map; lia).
  apply map_nth.
Qed.

Lemma column_Forall {A : Type} (P : A -> Prop) (d : A) (rows : list (list A)) (k j : nat) :
  Forall (fun r => length r = k /\ Forall P r) rows -> (j < k)%nat ->
  Forall P (column d j rows).
Proof.
  intros H Hj. unfold column. apply Forall_map.
  eapply Forall_impl; [|exact H]. intros r [Hl Hr].
  rewrite Forall_forall in Hr. apply Hr, nth_In. lia.
Qed.

Lemma column_nonempty {A : Type} (d : A) (rows : list (list A)) (j : nat) :
  rows <> [] -> column d j rows <> [].
Proof. destruct rows; [congruence | discriminate]. Qed.

Lemma ncols_Fin (rows : list (list R)) : ncols (map (map Fin) rows) = ncols rows.
Proof. destruct rows; simpl; [reflexivity | apply length_map]. Qed.



(** ** [find_max_lyapunov] *)

Lemma find_app_last {A : Type} (p : A -> bool) (l : list A) (a : A) :
  find p (l ++ [a]) =
  match find p l with
  | Some v => Some v
  | None => if p a then Some a else None
  end.
Proof.
  induction l as [|b l IH]; simpl; [reflexivity|].
  destruct (p b); [reflexivity | exact IH].
Qed.

(** The loop leaves in [max_exp] the last element that beats the first
    one, and leaves it untouched when there is none. *)
Lemma find_max_lyapunov_loop (x : float64) (rest : list float64) (acc : option float64) :
  fold_left (find_max_lyapunov_step x) rest acc =
  match last_exceeding x rest with
  | Some e => Some e
  | None => acc
  end.
Proof.
  unfold last_exceeding. revert acc.
  induction rest as [|e rest IH]; intros acc; simpl; [reflexivity|].
  rewrite IH, find_app_last.
  destruct (find _ (rev rest)); [reflexivity|].
  unfold find_max_lyapunov_step. destruct (fgt (fabs e) (fabs x)); reflexivity.
Qed.

Lemma find_max_lyapunov_cons (x : float64) (rest : list float64) :
  find_max_lyapunov (x :: rest) =
  match last_exceeding x rest with
  | Some e => Ok e
  | None => Raise UnboundLocalError
  end.
Proof.
  unfold find_max_lyapunov.
  replace (py_index (x :: rest) 0) with (Ok x).
  2:{ unfold py_index. cbn [length]. 
      replace (0 <? 0)%Z with false by reflexivity.
      replace ((0 <=? 0)%Z) with true by reflexivity.
      replace (0 <? Z.of_nat (S (length rest)))%Z with true
        by (symmetry; apply Z.ltb_lt; lia).
      reflexivity. }
  cbn [rbind tl]. rewrite find_max_lyapunov_loop.
  destruct (last_exceeding x rest); reflexivity.
Qed.

Lemma last_exceeding_none (x : float64) (rest : list float64) :
  last_exceeding x rest = None <->
  Forall (fun e => fgt (fabs e) (fabs x) = false) rest.
Proof.
  unfold last_exceeding. split.
  - intros H. apply Forall_forall. intros e He.
    apply (find_none _ _ H). apply in_rev in He. exact He.
  - intros H. destruct (find _ (rev rest)) as [e|] eqn:E; [|reflexivity].
    apply find_some in E. destruct E as [Hin He].
    apply in_rev in Hin. rewrite Forall_forall in H.
    rewrite (H e Hin) in He. discriminate.
Qed.

(** C6: when no element after index 0 has a magnitude strictly above
    that of the first element, the loop never assigns [max_exp] and
    [find_max_lyapunov] fails with the unassigned-variable error; this
    covers every one-element spectrum, and the error arises in no other
    case on a non-empty spectrum. *)
Theorem find_max_lyapunov_unassigned :
  forall (x : float64) (rest : list float64),
    Forall (fun e => fgt (fabs e) (fabs x) = false) rest ->
    fold_left (find_max_lyapunov_step x) rest None = None /\
    find_max_lyapunov (x :: rest) = Raise UnboundLocalError /\
    find_max_lyapunov [x] = Raise UnboundLocalError /\
    (forall rest', find_max_lyapunov (x :: rest') = Raise UnboundLocalError ->
                   Forall (fun e => fgt (fabs e) (fabs x) = false) rest').
Proof.
  intros x rest H. apply last_exceeding_none in H.
  split; [|split; [|split]].
  - rewrite find_max_lyapunov_loop, H. reflexivity.
  - rewrite find_max_lyapunov_cons, H. reflexivity.
  - rewrite find_max_lyapunov_cons. reflexivity.
  - intros rest' E. rewrite find_max_lyapunov_cons in E.
    apply last_exceeding_none.
    destruct (last_exceeding x rest'); [discriminate | reflexivity].
Qed.

Lemma find_max_lyapunov_unassigned_witness :
  find_max_lyapunov [Fin 3; Fin (-2); Fin 1] = Raise UnboundLocalError.
Proof.
  apply (find_max_lyapunov_unassigned (Fin 3) [Fin (-2); Fin 1]).
  repeat constructor; unfold fgt, flt, fabs; Rabs_eval; Rdecide; reflexivity.
Defined.

(** C7 (what the code does instead): the comparison is always against
    [spectrum0[0]], never against a running maximum, so the value returned
    is the last element that beats the first one.  On [1, 5, 3] that is 3,
    although 5 is an element after index 0 of strictly larger magnitude. *)
Theorem find_max_lyapunov_not_largest :
  find_max_lyapunov [Fin 1; Fin 5; Fin 3] = Ok (Fin 3) /\
  largest_magnitude (Fin 5) [Fin 5; Fin 3] /\
  ~ largest_magnitude (Fin 3) [Fin 5; Fin 3].
Proof.
  split; [|split].
  - rewrite find_max_lyapunov_cons. unfold last_exceeding.
    cbn [rev app find]. unfold fgt, flt, fabs. Rabs_eval. Rdecide. reflexivity.
  - split; [left; reflexivity|].
    repeat constructor; unfold fle, fabs; Rabs_eval; Rdecide; reflexivity.
  - intros [_ H]. inversion H as [|? ? H1 _]; subst.
    unfold fle, fabs in H1. revert H1. Rabs_eval. Rdecide. discriminate.
Qed.

(** ** Indexing, [np.where] and [np.max] *)

Lemma py_index_Ok {A : Type} (l : list A) (i : Z) :
  (- Z.of_nat (length l) <= i < Z.of_nat (length l))%Z ->
  exists a, py_index l i = Ok a.
Proof.
  intros H. unfold py_index.
  set (k := if (i <? 0)%Z then (i + Z.of_nat (length l))%Z else i).
  assert (Hk : (0 <= k < Z.of_nat (length l))%Z).
  { unfold k. destruct (i <? 0)%Z eqn:E;
      [apply Z.ltb_lt in E | apply Z.ltb_ge in E]; lia. }
  replace (0 <=? k)%Z with true by (symmetry; apply Z.leb_le; lia).
  replace (k <? Z.of_nat (length l))%Z with true by (symmetry; apply Z.ltb_lt; lia).
  cbn [andb].
  destruct (nth_error l (Z.to_nat k)) as [a|] eqn:E; [exists a; reflexivity|].
  apply nth_error_None in E. lia.
Qed.

Lemma py_index_nonneg {A : Type} (l : list A) (i : Z) (d : A) :
  (0 <= i < Z.of_nat (length l))%Z ->
  py_index l i = Ok (nth (Z.to_nat i) l d).
Proof.
  intros H. unfold py_index.
  replace (i <? 0)%Z with false by (symmetry; apply Z.ltb_ge; lia).
  replace (0 <=? i)%Z with true by (symmetry; apply Z.leb_le; lia).
  replace (i <? Z.of_nat (length l))%Z with true by (symmetry; apply Z.ltb_lt; lia).
  cbn [andb].
  rewrite (nth_error_nth' l d) by lia. reflexivity.
Qed.

Lemma where_from_In (mask : list bool) (i k : Z) :
  In k (where_from i mask) <->
  (i <= k < i + Z.of_nat (length mask))%Z /\ nth (Z.to_nat (k - i)) mask false = true.
Proof.
  revert i. induction mask as [|b mask IH]; intros i.
  - simpl. split; [contradiction | intros [H _]; lia].
  - cbn [where_from length].
    assert (Hstep : forall k, (i < k)%Z ->
              nth (Z.to_nat (k - i)) (b :: mask) false
              = nth (Z.to_nat (k - (i + 1))) mask false).
    { intros k' Hk'. replace (Z.to_nat (k' - i)) with (S (Z.to_nat (k' - (i + 1)))) by lia.
      reflexivity. }
    destruct b.
    + cbn [In]. rewrite IH. split.
      * intros [E | [H1 H2]].
        -- subst k. rewrite Z.sub_diag. split; [lia | reflexivity].
        -- split; [lia|]. rewrite Hstep by lia. exact H2.
      * intros [H1 H2].
        destruct (Z.eq_dec i k) as [E|E]; [left; exact E|].
        right. split; [lia|]. rewrite <- Hstep by lia. exact H2.
    + rewrite IH. split.
      * intros [H1 H2]. split; [lia|]. rewrite Hstep by lia. exact H2.
      * intros [H1 H2].
        destruct (Z.eq_dec i k) as [E|E].
        -- subst k. rewrite Z.sub_diag in H2. discriminate.
        -- split; [lia|]. rewrite <- Hstep by lia. exact H2.
Qed.

Lemma fold_left_Zmax_ge (l : list Z) (x : Z) :
  (x <= fold_left Z.max l x)%Z /\ Forall (fun k => (k <= fold_left Z.max l x)%Z) l.
Proof.
  revert x. induction l as [|y l IH]; intros x; simpl.
  - split; [lia | constructor].
  - destruct (IH (Z.max x y)) as [H1 H2]. split; [lia|].
    constructor; [lia | exact H2].
Qed.

Lemma fold_left_Zmax_In (l : list Z) (x : Z) :
  fold_left Z.max l x = x \/ In (fold_left Z.max l x) l.
Proof.
  revert x. induction l as [|y l IH]; intros x; simpl; [left; reflexivity|].
  destruct (IH (Z.max x y)) as [H|H]; [|right; right; exact H].
  rewrite H. destruct (Z.max_spec x y) as [[_ E]|[_ E]]; rewrite E; auto.
Qed.

Lemma np_max_int_greatest (l : list Z) (m : Z) :
  In m l -> (forall k, In k l -> (k <= m)%Z) -> np_max_int l = Ok m.
Proof.
  destruct l as [|x l]; [contradiction|]. intros Hin Hub. simpl. f_equal.
  destruct (fold_left_Zmax_ge l x) as [G1 G2]. rewrite Forall_forall in G2.
  assert (Hle : (m <= fold_left Z.max l x)%Z).
  { destruct Hin as [E|Hin]; [subst; exact G1 | apply G2, Hin]. }
  assert (Hge : (fold_left Z.max l x <= m)%Z).
  { apply Hub. destruct (fold_left_Zmax_In l x) as [E|E];
      [left; symmetry; exact E | right; exact E]. }
  lia.
Qed.

Lemma np_where_largest (cspec : list float64) (j : Z) :
  largest_nonneg_index cspec j ->
  np_max_int (np_where (map (fun c => fge c (Fin 0)) cspec)) = Ok j.
Proof.
  intros [Hr [Hj Hlast]].
  assert (Hnth : forall k, (0 <= k < Z.of_nat (length cspec))%Z ->
            nth (Z.to_nat (k - 0)) (map (fun c => fge c (Fin 0)) cspec) false
            = fge (nth (Z.to_nat k) cspec NaN) (Fin 0)).
  { intros k Hk. rewrite Z.sub_0_r.
    rewrite (nth_indep _ false (fge NaN (Fin 0))) by (rewrite length_map; lia).
    apply (map_nth (fun c => fge c (Fin 0))). }
  apply np_max_int_greatest.
  - apply where_from_In. rewrite length_map. split; [lia|].
    rewrite Hnth by lia. exact Hj.
  - intros k Hk. apply where_from_In in Hk. rewrite length_map in Hk.
    destruct Hk as [Hk1 Hk2]. rewrite Hnth in Hk2 by lia.
    destruct (Z_le_gt_dec k j) as [L|G]; [exact L|].
    rewrite Hlast in Hk2 by lia. discriminate.
Qed.

Lemma np_where_none (cspec : list float64) :
  Forall (fun c => fge c (Fin 0) = false) cspec ->
  np_where (map (fun c => fge c (Fin 0)) cspec) = [].
Proof.
  intros H. unfold np_where.
  set (p := fun c => fge c (Fin 0)). generalize 0%Z.
  induction H as [|c l Hc _ IH]; intros i; cbn [map where_from]; [reflexivity|].
  unfold p at 1. rewrite Hc. apply IH.
Qed.

Lemma np_cumsum_length (a : list float64) : length (np_cumsum a) = length a.
Proof.
  destruct a as [|x a]; simpl; [reflexivity|]. f_equal.
  revert x. induction a as [|y a IH]; intros x; simpl; [reflexivity|].
  f_equal. apply IH.
Qed.

(** ** [kaplan_yorke_dimension] *)

(** What the function does once the largest non-negative index is known. *)
Lemma kaplan_yorke_dimension_eval (s : list float64) (j : Z) :
  largest_nonneg_index (np_cumsum (sort_descending s)) j ->
  let spectrum := sort_descending s in
  let cspec := np_cumsum spectrum in
  let d := Z.of_nat (length s) in
  let j' := Z.min j (d - 2) in
  exists cj sj,
    py_index cspec j' = Ok cj /\
    py_index spectrum (j' + 1) = Ok sj /\
    kaplan_yorke_dimension s =
      ((if (j >? d - 2)%Z then [Warn never_crosses_warning] else []),
       Ok (fadd (Fin (IZR (1 + j'))) (fdiv cj (fabs sj)))).
Proof.
  intros H spectrum cspec d j'.
  pose proof H as [Hr _].
  assert (Lc : length cspec = length s).
  { unfold cspec, spectrum. rewrite np_cumsum_length. apply sort_descending_length. }
  assert (Ls : length spectrum = length s) by apply sort_descending_length.
  fold spectrum cspec in Hr. rewrite Lc in Hr. fold d in Hr.
  destruct (py_index_Ok cspec j') as [cj Hcj]; [rewrite Lc; fold d; unfold j'; lia|].
  destruct (py_index_Ok spectrum (j' + 1)) as [sj Hsj];
    [rewrite Ls; fold d; unfold j'; lia|].
  exists cj, sj. split; [exact Hcj|]. split; [exact Hsj|].
  unfold kaplan_yorke_dimension. fold spectrum cspec.
  rewrite (np_where_largest cspec j H). rewrite Ls. fold d.
  unfold lift, bind, ret, warn.
  destruct (j >? d - 2)%Z eqn:E.
  - assert (Ej : j' = (d - 2)%Z) by (unfold j'; apply Z.gtb_lt in E; lia).
    rewrite Ej in Hcj, Hsj |- *. cbn [app]. rewrite Hcj, Hsj. reflexivity.
  - assert (Ej : j' = j).
    { unfold j'. rewrite Z.gtb_ltb in E. apply Z.ltb_ge in E. lia. }
    rewrite Ej in Hcj, Hsj |- *. cbn [app]. rewrite Hcj, Hsj. reflexivity.
Qed.

(** C4 (as the code has it): when [j] is the largest index whose
    cumulative sum (of the spectrum sorted in descending order) is
    non-negative, [kaplan_yorke_dimension] uses [j' = min(j, d-2)] and
    returns [1 + j' + cumsum[j'] / |spectrum[j'+1]|], both indices read
    the way Python reads them; on the spectrum [1.0, -2.0] the value is
    exactly 1.5. *)
Theorem kaplan_yorke_dimension_formula :
  (forall (s : list float64) (j : Z),
      largest_nonneg_index (np_cumsum (sort_descending s)) j ->
      let spectrum := sort_descending s in
      let cspec := np_cumsum spectrum in
      let j' := Z.min j (Z.of_nat (length s) - 2) in
      exists cj sj,
        py_index cspec j' = Ok cj /\
        py_index spectrum (j' + 1) = Ok sj /\
        snd (kaplan_yorke_dimension s) =
          Ok (fadd (Fin (IZR (1 + j'))) (fdiv cj (fabs sj)))) /\
  kaplan_yorke_dimension [Fin 1; Fin (-2)] = ([], Ok (Fin (3 / 2))).
Proof.
  split.
  - intros s j H spectrum cspec j'.
    destruct (kaplan_yorke_dimension_eval s j H) as [cj [sj [H1 [H2 H3]]]].
    exists cj, sj. split; [exact H1|]. split; [exact H2|].
    rewrite H3. reflexivity.
  - unfold kaplan_yorke_dimension. np_eval. fin_eq.
Qed.

Lemma kaplan_yorke_dimension_formula_witness :
  exists cj sj,
    py_index (np_cumsum (sort_descending [Fin 3; Fin 1; Fin (-2); Fin (-4)])) 2 = Ok cj /\
    py_index (sort_descending [Fin 3; Fin 1; Fin (-2); Fin (-4)]) 3 = Ok sj /\
    snd (kaplan_yorke_dimension [Fin 3; Fin 1; Fin (-2); Fin (-4)]) =
      Ok (fadd (Fin (IZR 3)) (fdiv cj (fabs sj))).
Proof.
  apply (proj1 kaplan_yorke_dimension_formula [Fin 3; Fin 1; Fin (-2); Fin (-4)] 2%Z).
  split; [|split].
  - rewrite np_cumsum_length, sort_descending_length. cbn [length]. lia.
  - np_eval. reflexivity.
  - intros k Hk. rewrite np_cumsum_length, sort_descending_length in Hk.
    cbn [length] in Hk. assert (k = 3%Z) by lia. subst k.
    np_eval. reflexivity.
Defined.

(** C4 read literally, without the clamp: on [2, 1] every cumulative
    sum is non-negative, the largest such index is 1, and
    [spectrum[2]] does not exist, yet the function returns 3; on
    [-1, -2] no cumulative sum is non-negative and the function raises. *)
Lemma kaplan_yorke_dimension_unclamped_counterexample :
  largest_nonneg_index (np_cumsum (sort_descending [Fin 2; Fin 1])) 1 /\
  kaplan_yorke_unclamped [Fin 2; Fin 1] = Raise IndexError /\
  kaplan_yorke_dimension [Fin 2; Fin 1] = ([Warn never_crosses_warning], Ok (Fin 3)) /\
  snd (kaplan_yorke_dimension [Fin 2; Fin 1]) <> kaplan_yorke_unclamped [Fin 2; Fin 1] /\
  kaplan_yorke_dimension [Fin (-1); Fin (-2)] = ([], Raise ValueError).
Proof.
  assert (E1 : kaplan_yorke_unclamped [Fin 2; Fin 1] = Raise IndexError).
  { unfold kaplan_yorke_unclamped. np_eval. reflexivity. }
  assert (E2 : kaplan_yorke_dimension [Fin 2; Fin 1]
               = ([Warn never_crosses_warning], Ok (Fin 3))).
  { unfold kaplan_yorke_dimension. np_eval. fin_eq. }
  split; [|split; [exact E1 | split; [exact E2 | split]]].
  - split; [rewrite np_cumsum_length, sort_descending_length; cbn [length]; lia|].
    split.
    + np_eval. reflexivity.
    + intros k Hk. rewrite np_cumsum_length, sort_descending_length in Hk.
      cbn [length] in Hk. lia.
  - rewrite E1, E2. discriminate.
  - unfold kaplan_yorke_dimension. np_eval. reflexivity.
Qed.

Lemma Forall_nth_last {A : Type} (P : A -> Prop) (l : list A) (d : A) :
  l <> [] -> Forall P l -> P (nth (length l - 1) l d).
Proof.
  intros N H. rewrite Forall_forall in H. apply H, nth_In.
  destruct l; [congruence | simpl; lia].
Qed.

(** C5 (as the code has it): when the spectrum is non-empty and every
    cumulative sum of the sorted spectrum is non-negative, each of them a
    value that float64 addition produces without rounding, the function
    does not raise: it emits the warning, sets [j] to [d - 2] and returns
    [1 + (d-2) + cumsum[d-2] / |spectrum[d-1]|]; the value is finite when
    the last exponent is not zero and the exact value of the formula does
    not exceed [float64_max]. *)
Theorem kaplan_yorke_dimension_clamped :
  forall (s : list float64),
    s <> [] ->
    let spectrum := sort_descending s in
    let cspec := np_cumsum spectrum in
    let d := Z.of_nat (length s) in
    Forall exact_float64 cspec ->
    Forall (fun c => fge c (Fin 0) = true) cspec ->
    exists cj sj v,
      py_index cspec (d - 2) = Ok cj /\
      py_index spectrum (d - 1) = Ok sj /\
      v = fadd (Fin (IZR (1 + (d - 2)))) (fdiv cj (fabs sj)) /\
      kaplan_yorke_dimension s = ([Warn never_crosses_warning], Ok v) /\
      (forall c y, cj = Fin c -> sj = Fin y -> y <> 0 ->
                   IZR (1 + (d - 2)) + c / Rabs y <= float64_max ->
                   is_finite v = true).
Proof.
  intros s N spectrum cspec d _ H.
  assert (Lc : length cspec = length s).
  { unfold cspec, spectrum. rewrite np_cumsum_length. apply sort_descending_length. }
  assert (Nc : cspec <> []).
  { intros E. rewrite E in Lc. destruct s; [congruence | discriminate]. }
  assert (Hd : (1 <= d)%Z) by (unfold d; destruct s; [congruence | simpl length; lia]).
  assert (L : largest_nonneg_index cspec (d - 1)).
  { split; [rewrite Lc; fold d; lia|]. split.
    - replace (Z.to_nat (d - 1)) with (length cspec - 1)%nat by (rewrite Lc; unfold d; lia).
      apply (Forall_nth_last (fun c => fge c (Fin 0) = true)); assumption.
    - intros k Hk. rewrite Lc in Hk. fold d in Hk. lia. }
  destruct (kaplan_yorke_dimension_eval s (d - 1) L) as [cj [sj [H1 [H2 H3]]]].
  fold spectrum cspec d in H1, H2, H3.
  replace (Z.min (d - 1) (d - 2)) with (d - 2)%Z in H1, H2, H3 by lia.
  replace (d - 2 + 1)%Z with (d - 1)%Z in H2 by lia.
  replace (d - 1 >? d - 2)%Z with true in H3 by (symmetry; apply Z.gtb_lt; lia).
  exists cj, sj, (fadd (Fin (IZR (1 + (d - 2)))) (fdiv cj (fabs sj))).
  split; [exact H1|]. split; [exact H2|]. split; [reflexivity|]. split; [exact H3|].
  intros c y -> -> Hy _.
  cbn [fabs fdiv].
  replace (Reqb (Rabs y) 0) with false
    by (symmetry; apply Reqb_false, Rabs_no_R0, Hy).
  reflexivity.
Qed.

Lemma kaplan_yorke_dimension_clamped_witness :
  kaplan_yorke_dimension [Fin 1; Fin 2] = ([Warn never_crosses_warning], Ok (Fin 3)).
Proof.
  assert (C : np_cumsum (sort_descending [Fin 1; Fin 2]) = [Fin 2; Fin 3]).
  { np_eval. fin_eq. }
  destruct (kaplan_yorke_dimension_clamped [Fin 1; Fin 2]) as [cj [sj [v [H1 [H2 [H3 [H4 _]]]]]]].
  - discriminate.
  - rewrite C. repeat constructor.
    + exists 2. split; [reflexivity | apply (is_float64_integer 2); reflexivity].
    + exists 3. split; [reflexivity | apply (is_float64_integer 3); reflexivity].
  - rewrite C. repeat constructor; np_eval; reflexivity.
  - rewrite H4, H3. rewrite C in H1.
    assert (E1 : cj = Fin 2) by (revert H1; np_eval; intros H1; injection H1 as <-; reflexivity).
    assert (E2 : sj = Fin 1) by (revert H2; np_eval; intros H2; injection H2 as <-; reflexivity).
    rewrite E1, E2. np_eval. fin_eq.
Defined.

(** C5 as stated fails twice.  On [-1, -2] every cumulative sum is
    negative, [np.where] finds no index and [np.max] raises: no warning,
    no value.  On [1, 0] every cumulative sum is non-negative, the
    warning is emitted and the clamped index is used, but the value is
    [+inf]. *)
Lemma kaplan_yorke_dimension_never_crosses_counterexample :
  never_crosses_zero [Fin (-1); Fin (-2)] /\
  kaplan_yorke_dimension [Fin (-1); Fin (-2)] = ([], Raise ValueError) /\
  never_crosses_zero [Fin 1; Fin 0] /\
  kaplan_yorke_dimension [Fin 1; Fin 0] = ([Warn never_crosses_warning], Ok PInf) /\
  is_finite PInf = false.
Proof.
  split; [|split; [|split; [|split]]].
  - right. unfold never_crosses_zero. np_eval. repeat constructor; np_eval; reflexivity.
  - unfold kaplan_yorke_dimension. np_eval. reflexivity.
  - left. unfold never_crosses_zero. np_eval. repeat constructor; np_eval; reflexivity.
  - unfold kaplan_yorke_dimension. np_eval. unfold inf_of_sign. np_eval. reflexivity.
  - reflexivity.
Qed.

(** ** [mse_mv] *)

(** C9: the availability of the back end is decided once, by the import
    at module load, which leaves [has_neurokit] false and a warning when
    the import fails; with [has_neurokit] false, [mse_mv] raises its
    configuration error on every trajectory, returns no value, and its
    event log is empty: no entropy computation was started. *)
Theorem mse_mv_requires_neurokit :
  forall (NK : Neurokit2) (ST : Standardize) (g : module_globals) (traj : ndarray),
    has_neurokit g = false ->
    mse_mv g traj = ([], Raise (Exception neurokit_missing)) /\
    (forall signal, ~ In (EntropyCall signal) (fst (mse_mv g traj))) /\
    import_module false =
      ([Warn neurokit_import_warning], Ok {| has_neurokit := false |}).
Proof.
  intros NK ST g traj H.
  assert (E : mse_mv g traj = ([], Raise (Exception neurokit_missing))).
  { unfold mse_mv. rewrite H. reflexivity. }
  split; [exact E|]. split; [|reflexivity].
  intros signal. rewrite E. intros [].
Qed.

Lemma mse_mv_requires_neurokit_witness :
  has_neurokit {| has_neurokit := false |} = false /\
  @mse_mv strict_backend identity_standardize {| has_neurokit := false |}
          (Arr2 [[Fin 0; Fin 1]; [Fin 1; Fin 0]])
  = ([], Raise (Exception neurokit_missing)).
Proof.
  split; [reflexivity|].
  apply (mse_mv_requires_neurokit strict_backend identity_standardize
           {| has_neurokit := false |} (Arr2 [[Fin 0; Fin 1]; [Fin 1; Fin 0]])).
  reflexivity.
Defined.

(** C8 (what the code does instead): on a one-dimensional trajectory the
    back end is called without any signal, so the outcome is the same for
    every trajectory; with a back end that requires its positional
    argument the call raises [TypeError].  The multi-channel path, by
    contrast, passes each channel. *)
Theorem mse_mv_single_channel_ignores_trajectory :
  (forall (NK : Neurokit2) (ST : Standardize) (g : module_globals) (a b : list float64),
      mse_mv g (Arr1 a) = mse_mv g (Arr1 b)) /\
  (forall (NK : Neurokit2) (ST : Standardize) (a : list float64),
      fst (mse_mv {| has_neurokit := true |} (Arr1 a)) = [EntropyCall None]) /\
  @mse_mv strict_backend identity_standardize {| has_neurokit := true |}
          (Arr1 [Fin 0; Fin 1; Fin 0; Fin 2])
  = ([EntropyCall None], Raise TypeError) /\
  @mse_mv strict_backend identity_standardize {| has_neurokit := true |}
          (Arr2 [[Fin 0]; [Fin 1]; [Fin 0]; [Fin 2]])
  = ([EntropyCall (Some [Fin 0; Fin 1; Fin 0; Fin 2])], Ok (Fin 4)).
Proof.
  split; [|split; [|split]].
  - intros NK ST g a b. reflexivity.
  - intros NK ST a. unfold mse_mv, call_entropy_multiscale. cbn [has_neurokit negb].
    unfold bind. destruct (entropy_multiscale None 2 true true); reflexivity.
  - reflexivity.
  - unfold mse_mv, np_median. np_eval. fin_eq.
Qed.

(** ** [pca] *)

Lemma first_true_Some (mask : list bool) (k : nat) :
  first_true mask = Some k <->
  (k < length mask)%nat /\ nth k mask false = true /\
  forall i, (i < k)%nat -> nth i mask false = false.
Proof.
  revert k. induction mask as [|b mask IH]; intros k; cbn [first_true length].
  - split; [discriminate | intros [H _]; lia].
  - destruct b.
    + split.
      * intros E. injection E as <-. repeat split; [lia | intros i Hi; lia].
      * intros [_ [_ H]]. destruct k as [|k]; [reflexivity|].
        specialize (H 0%nat ltac:(lia)). discriminate.
    + destruct (first_true mask) as [k'|] eqn:E; cbn [option_map].
      * split.
        -- intros E'. injection E' as <-.
           destruct (proj1 (IH k') eq_refl) as [H1 [H2 H3]].
           split; [lia|]. split; [exact H2|].
           intros [|i] Hi; [reflexivity | apply H3; lia].
        -- intros [H1 [H2 H3]]. destruct k as [|k]; [discriminate|].
           f_equal. f_equal.
           assert (G : Some k' = Some k); [|injection G; auto].
           apply IH. split; [lia|]. split; [exact H2|].
           intros i Hi. apply (H3 (S i)). lia.
      * split; [discriminate|].
        intros [H1 [H2 H3]]. destruct k as [|k]; [discriminate|].
        assert (G : None = Some k); [|discriminate].
        apply IH. split; [lia|]. split; [exact H2|].
        intros i Hi. apply (H3 (S i)). lia.
Qed.

Lemma first_true_None (mask : list bool) :
  first_true mask = None -> Forall (fun b => b = false) mask.
Proof.
  induction mask as [|b mask IH]; cbn [first_true]; intros H; [constructor|].
  destruct b; [discriminate|].
  constructor; [reflexivity|]. apply IH.
  destruct (first_true mask); [discriminate | reflexivity].
Qed.

Lemma first_reaching_first_true (cum : list float64) (threshold : float64) (k : nat) :
  first_reaching cum threshold k <->
  first_true (map (fun c => fge c threshold) cum) = Some k.
Proof.
  rewrite first_true_Some, length_map. unfold first_reaching.
  assert (Hnth : forall i, (i < length cum)%nat ->
            nth i (map (fun c => fge c threshold) cum) false
            = fge (nth i cum NaN) threshold).
  { intros i Hi.
    rewrite (nth_indep _ false (fge NaN threshold)) by (rewrite length_map; lia).
    apply (map_nth (fun c => fge c threshold)). }
  split; intros [H1 [H2 H3]]; (split; [exact H1|]); split.
  - rewrite Hnth by lia. exact H2.
  - intros i Hi. rewrite Hnth by lia. apply H3, Hi.
  - rewrite <- Hnth by lia. exact H2.
  - intros i Hi. rewrite <- Hnth by lia. apply H3, Hi.
Qed.

Lemma pca_eval `{Sklearn} (data : list (list float64)) (threshold : float64)
    (ratio : list float64) (k : nat) :
  explained_variance_ratio data = Ok ratio ->
  first_reaching (np_cumsum ratio) threshold k ->
  pca data threshold = Ok (k + 1)%nat.
Proof.
  intros E F. unfold pca. rewrite E. cbn [rbind].
  pose proof F as [Hk _]. apply first_reaching_first_true in F.
  unfold np_argmax_bool. rewrite F.
  destruct (map _ (np_cumsum ratio)) eqn:M; [|reflexivity].
  apply (f_equal (@length bool)) in M. rewrite length_map in M.
  cbn [length] in M. lia.
Qed.

Lemma first_reaching_exists (cum : list float64) (threshold : float64) :
  Exists (fun c => fge c threshold = true) cum ->
  exists k, first_reaching cum threshold k.
Proof.
  intros H.
  destruct (first_true (map (fun c => fge c threshold) cum)) as [k|] eqn:E.
  - exists k. apply first_reaching_first_true, E.
  - apply first_true_None in E. rewrite Forall_map in E.
    apply Exists_exists in H. destruct H as [c [Hin Hc]].
    rewrite Forall_forall in E. rewrite (E c Hin) in Hc. discriminate.
Qed.

(** When no cumulative sum reaches the threshold, [np.argmax] of the
    all-false mask is 0 and [pca] still answers 1. *)
Lemma pca_never_reached `{Sklearn} (data : list (list float64)) (threshold : float64)
    (ratio : list float64) :
  explained_variance_ratio data = Ok ratio ->
  ratio <> [] ->
  Forall (fun c => fge c threshold = false) (np_cumsum ratio) ->
  pca data threshold = Ok 1%nat.
Proof.
  intros E N F. unfold pca. rewrite E. cbn [rbind].
  assert (T : first_true (map (fun c => fge c threshold) (np_cumsum ratio)) = None).
  { induction F as [|c l Hc _ IH]; cbn [map first_true]; [reflexivity|].
    rewrite Hc, IH. reflexivity. }
  unfold np_argmax_bool. rewrite T.
  destruct (map _ (np_cumsum ratio)) eqn:M; [|reflexivity].
  apply (f_equal (@length bool)) in M. rewrite length_map, np_cumsum_length in M.
  destruct ratio; [congruence | discriminate].
Qed.




(** ** [gp_dim] *)

Lemma filter_twice {A : Type} (p q : A -> bool) (l : list A) :
  filter q (filter p l) = filter (fun x => p x && q x) l.
Proof.
  induction l as [|x l IH]; cbn [filter]; [reflexivity|].
  destruct (p x); cbn [filter andb]; rewrite IH; reflexivity.
Qed.

Lemma np_percentile_nonempty (a : list float64) (q : nat) :
  a <> [] -> exists p, np_percentile a q = Ok p.
Proof.
  intros N. unfold np_percentile.
  replace (Nat.eqb (length (np_sort a)) 0) with false.
  2:{ symmetry. apply Nat.eqb_neq. rewrite np_sort_length.
      destruct a; [congruence | discriminate]. }
  destruct (existsb is_nan a); eexists; reflexivity.
Qed.

Lemma truncate_distances_filter (rvals : list float64) (p5 p50 : float64) :
  let positive := filter (fun r => fgt r (Fin 0)) rvals in
  np_percentile positive 5 = Ok p5 ->
  let above := filter (fun r => fgt r p5) positive in
  np_percentile above 50 = Ok p50 ->
  truncate_distances rvals =
  Ok (filter (fun r => fgt r (Fin 0) && fgt r p5 && flt r p50) rvals).
Proof.
  intros positive E5 above E50. unfold truncate_distances.
  fold positive. rewrite E5. cbn [rbind]. fold above. rewrite E50. cbn [rbind].
  unfold above, positive. rewrite !filter_twice. f_equal.
  apply filter_ext. intros r. rewrite andb_assoc. reflexivity.
Qed.


(** Distances between points of a one-column trajectory. *)
Lemma euclidean_1d (a b : R) : euclidean [Fin a] [Fin b] = Fin (Rabs (a - b)).
Proof.
  unfold euclidean. cbn [combine map fst snd fsub fneg fadd fmul np_sum fold_left].
  unfold fsqrt.
  replace (0 + (a + - b) * (a + - b)) with (Rsqr (a - b)) by (unfold Rsqr; ring).
  replace (Rltb (Rsqr (a - b)) 0) with false
    by (symmetry; apply Rltb_false, Rle_0_sqr).
  rewrite sqrt_Rsqr_abs. reflexivity.
Qed.

Lemma cdist_line_points :
  cdist line_points line_points =
  Ok [[Fin 0; Fin 1; Fin 2; Fin 6]; [Fin 1; Fin 0; Fin 1; Fin 5];
      [Fin 2; Fin 1; Fin 0; Fin 4]; [Fin 6; Fin 5; Fin 4; Fin 0]].
Proof.
  unfold cdist, line_points. cbn [ncols length Nat.eqb map]. rewrite !euclidean_1d.
  Rabs_eval. fin_eq.
Qed.

(** *** The two percentile bands on four points of a line *)

Lemma line_positive :
  filter (fun r => fgt r (Fin 0))
    (ravel [[Fin 0; Fin 1; Fin 2; Fin 6]; [Fin 1; Fin 0; Fin 1; Fin 5];
            [Fin 2; Fin 1; Fin 0; Fin 4]; [Fin 6; Fin 5; Fin 4; Fin 0]])
  = [Fin 1; Fin 2; Fin 6; Fin 1; Fin 1; Fin 5; Fin 2; Fin 1; Fin 4; Fin 6; Fin 5; Fin 4].
Proof. cbn [ravel concat app]. filter_eval. reflexivity. Qed.

Lemma line_positive_sorted :
  np_sort [Fin 1; Fin 2; Fin 6; Fin 1; Fin 1; Fin 5; Fin 2; Fin 1; Fin 4; Fin 6; Fin 5; Fin 4]
  = [Fin 1; Fin 1; Fin 1; Fin 1; Fin 2; Fin 2; Fin 4; Fin 4; Fin 5; Fin 5; Fin 6; Fin 6].
Proof. sort_eval. reflexivity. Qed.

Lemma line_p5 :
  np_percentile
    [Fin 1; Fin 2; Fin 6; Fin 1; Fin 1; Fin 5; Fin 2; Fin 1; Fin 4; Fin 6; Fin 5; Fin 4] 5
  = Ok (Fin 1).
Proof.
  unfold np_percentile. cbn [existsb is_nan orb]. rewrite line_positive_sorted.
  cbn [length Nat.eqb]. nat_eval.
  cbn [Nat.add Nat.sub Nat.min nth fsub fneg fadd fmul]. fin_eq.
Qed.

Lemma line_p50_of_positive :
  np_percentile
    [Fin 1; Fin 2; Fin 6; Fin 1; Fin 1; Fin 5; Fin 2; Fin 1; Fin 4; Fin 6; Fin 5; Fin 4] 50
  = Ok (Fin 3).
Proof.
  unfold np_percentile. cbn [existsb is_nan orb]. rewrite line_positive_sorted.
  cbn [length Nat.eqb]. nat_eval.
  cbn [Nat.add Nat.sub Nat.min nth fsub fneg fadd fmul].
  replace (INR 50) with 50 by (cbn; lra). fin_eq.
Qed.

Lemma line_above :
  filter (fun r => fgt r (Fin 1))
    [Fin 1; Fin 2; Fin 6; Fin 1; Fin 1; Fin 5; Fin 2; Fin 1; Fin 4; Fin 6; Fin 5; Fin 4]
  = [Fin 2; Fin 6; Fin 5; Fin 2; Fin 4; Fin 6; Fin 5; Fin 4].
Proof. filter_eval. reflexivity. Qed.

Lemma line_p50_of_above :
  np_percentile [Fin 2; Fin 6; Fin 5; Fin 2; Fin 4; Fin 6; Fin 5; Fin 4] 50
  = Ok (Fin (9 / 2)).
Proof.
  unfold np_percentile. cbn [existsb is_nan orb].
  replace (np_sort [Fin 2; Fin 6; Fin 5; Fin 2; Fin 4; Fin 6; Fin 5; Fin 4])
    with [Fin 2; Fin 2; Fin 4; Fin 4; Fin 5; Fin 5; Fin 6; Fin 6]
    by (symmetry; sort_eval; reflexivity).
  cbn [length Nat.eqb]. nat_eval.
  cbn [Nat.add Nat.sub Nat.min nth fsub fneg fadd fmul].
  replace (INR 50) with 50 by (cbn; lra). fin_eq.
Qed.

Lemma line_sample :
  filter (fun r => fgt r (Fin 0) && fgt r (Fin 1) && flt r (Fin (9 / 2)))
    (ravel [[Fin 0; Fin 1; Fin 2; Fin 6]; [Fin 1; Fin 0; Fin 1; Fin 5];
            [Fin 2; Fin 1; Fin 0; Fin 4]; [Fin 6; Fin 5; Fin 4; Fin 0]])
  = map Fin [2; 2; 4; 4].
Proof.
  rewrite <- (filter_twice (fun r => fgt r (Fin 0) && fgt r (Fin 1))
                           (fun r => flt r (Fin (9 / 2)))).
  rewrite <- (filter_twice (fun r => fgt r (Fin 0)) (fun r => fgt r (Fin 1))).
  rewrite line_positive, line_above. filter_eval. reflexivity.
Qed.

Lemma line_truncate_distances :
  truncate_distances
    (ravel [[Fin 0; Fin 1; Fin 2; Fin 6]; [Fin 1; Fin 0; Fin 1; Fin 5];
            [Fin 2; Fin 1; Fin 0; Fin 4]; [Fin 6; Fin 5; Fin 4; Fin 0]])
  = Ok (map Fin [2; 2; 4; 4]).
Proof.
  rewrite (truncate_distances_filter _ (Fin 1) (Fin (9 / 2))).
  - rewrite line_sample. reflexivity.
  - rewrite line_positive. apply line_p5.
  - rewrite line_positive, line_above. apply line_p50_of_above.
Qed.

Lemma line_distance_sample_spec :
  distance_sample_spec
    (ravel [[Fin 0; Fin 1; Fin 2; Fin 6]; [Fin 1; Fin 0; Fin 1; Fin 5];
            [Fin 2; Fin 1; Fin 0; Fin 4]; [Fin 6; Fin 5; Fin 4; Fin 0]])
  = Ok (map Fin [2; 2]).
Proof.
  unfold distance_sample_spec. cbv zeta.
  rewrite line_positive, line_p5. cbn [rbind]. rewrite line_p50_of_positive. cbn [rbind].
  filter_eval. reflexivity.
Qed.



(** ** [find_lyapunov_exponents] *)

Lemma np_min_nonempty (a : list float64) :
  a <> [] -> exists m, np_min a = Ok m.
Proof.
  destruct a as [|x a]; [congruence|]. intros _. eexists. reflexivity.
Qed.

(** The effective length is the index of the last truncating step, and the
    requested length when no step truncates. *)
Lemma effective_length_none (tol : float64) (min_tpts len : Z) (i0 : nat)
    (ests : list (list float64)) :
  (forall k est, nth_error ests k = Some est -> truncates tol min_tpts (i0 + k) est = false) ->
  effective_length tol min_tpts len i0 ests = len.
Proof.
  revert len i0. induction ests as [|est ests IH]; intros len i0 H; cbn [effective_length].
  - reflexivity.
  - rewrite (IH _ (S i0)).
    + specialize (H 0%nat est eq_refl). rewrite Nat.add_0_r in H. rewrite H. reflexivity.
    + intros k est' Hk. replace (S i0 + k)%nat with (i0 + S k)%nat by lia.
      apply H. exact Hk.
Qed.

Lemma effective_length_last (tol : float64) (min_tpts len : Z) (i0 k : nat)
    (ests : list (list float64)) (est : list float64) :
  nth_error ests k = Some est ->
  truncates tol min_tpts (i0 + k) est = true ->
  (forall k' est', (k < k')%nat -> nth_error ests k' = Some est' ->
                   truncates tol min_tpts (i0 + k') est' = false) ->
  effective_length tol min_tpts len i0 ests = Z.of_nat (i0 + k).
Proof.
  revert len i0 k. induction ests as [|e ests IH]; intros len i0 k Hk Ht Hlater.
  - destruct k; discriminate.
  - cbn [effective_length]. destruct k as [|k].
    + cbn [nth_error] in Hk. injection Hk as ->.
      rewrite Nat.add_0_r in Ht |- *. rewrite Ht.
      apply effective_length_none. intros k' est' Hk'.
      replace (S i0 + k')%nat with (i0 + S k')%nat by lia.
      apply (Hlater (S k') est'); [lia | exact Hk'].
    + replace (i0 + S k)%nat with (S i0 + k)%nat in Ht |- * by lia.
      apply IH; [exact Hk | exact Ht |].
      intros k' est' Hlt Hk'. replace (S i0 + k')%nat with (i0 + S k')%nat by lia.
      apply (Hlater (S k') est'); [lia | exact Hk'].
Qed.

Section LyapunovFacts.
Context `{LA : LinAlg} (model : Model).
Variables (d : nat) (dt tol : float64) (min_tpts : Z).

(** Every upper-triangular factor has [d] diagonal entries. *)
Hypothesis diagonal_length : forall m, length (diagonal (snd (qr m))) = d.
Hypothesis d_positive : (1 <= d)%nat.

Lemma log_abs_diagonal_length (m : matrix) :
  length (log_abs_diagonal (snd (qr m))) = d.
Proof. unfold log_abs_diagonal. rewrite length_map. apply diagonal_length. Qed.

Lemma recorded_estimates_length (q0 : matrix) (ms : list matrix) :
  length (recorded_estimates q0 ms) = length ms.
Proof.
  revert q0. induction ms as [|m ms IH]; intros q0; cbn [recorded_estimates].
  - reflexivity.
  - destruct (qr (matmul m q0)) as [q r]. cbn [length]. rewrite IH. reflexivity.
Qed.

Lemma recorded_estimates_rows (q0 : matrix) (ms : list matrix) :
  Forall (fun est => length est = d) (recorded_estimates q0 ms).
Proof.
  revert q0. induction ms as [|m ms IH]; intros q0; cbn [recorded_estimates].
  - constructor.
  - pose proof (log_abs_diagonal_length (matmul m q0)) as L.
    destruct (qr (matmul m q0)) as [q r]. cbn [snd] in L.
    constructor; [exact L | apply IH].
Qed.

(** One iteration past the first point. *)
Lemma lyap_body_step (st : lyap_state) (i : nat) (p : float64 * list float64)
    (m : matrix) :
  (1 <= i)%nat ->
  euler_matrix model d dt p = Ok m ->
  let est := log_abs_diagonal (snd (qr (matmul m (u st)))) in
  lyap_body model d dt tol min_tpts st (i, p) =
  Ok {| u := fst (qr (matmul m (u st)));
        all_lyap := all_lyap st ++ [est];
        traj_length := if truncates tol min_tpts i est
                       then Z.of_nat i else traj_length st |}.
Proof.
  intros Hi E est. destruct p as [t X].
  unfold euler_matrix in E. cbn [fst snd] in E.
  unfold lyap_body.
  destruct (jacobian model t X) as [jacval|e]; [|discriminate].
  cbn [rbind] in E |- *.
  replace (i <? 1)%nat with false by (symmetry; apply Nat.ltb_ge; exact Hi).
  rewrite E. cbn [rbind].
  pose proof (log_abs_diagonal_length (matmul m (u st))) as L.
  unfold est, truncates.
  destruct (qr (matmul m (u st))) as [q r]. cbn [fst snd] in L |- *.
  destruct (np_min_nonempty (map fabs (log_abs_diagonal r))) as [s Hs].
  { intros Z. apply (f_equal (@length float64)) in Z.
    rewrite length_map, L in Z. cbn [length] in Z. lia. }
  rewrite Hs. reflexivity.
Qed.

(** The loop from step [i] on, as a fold over the step matrices. *)
Lemma lyap_loop (rest : list (float64 * list float64)) (ms : list matrix) :
  Forall2 (fun p m => euler_matrix model d dt p = Ok m) rest ms ->
  forall (i : nat) (st : lyap_state),
    (1 <= i)%nat ->
    exists q,
      rfold (lyap_body model d dt tol min_tpts)
            (combine (seq i (length rest)) rest) st =
      Ok {| u := q;
            all_lyap := all_lyap st ++ recorded_estimates (u st) ms;
            traj_length :=
              effective_length tol min_tpts (traj_length st) i
                               (recorded_estimates (u st) ms) |}.
Proof.
  induction 1 as [|p m rest ms E _ IH]; intros i st Hi.
  - exists (u st). cbn. rewrite app_nil_r. destruct st; reflexivity.
  - cbn [length seq combine rfold].
    rewrite (lyap_body_step st i p m Hi E). cbn [rbind].
    destruct (IH (S i) {| u := fst (qr (matmul m (u st)));
                          all_lyap := all_lyap st ++
                            [log_abs_diagonal (snd (qr (matmul m (u st))))];
                          traj_length :=
                            if truncates tol min_tpts i
                                 (log_abs_diagonal (snd (qr (matmul m (u st)))))
                            then Z.of_nat i else traj_length st |})
      as [q Hq]; [lia|].
    exists q. rewrite Hq. cbn [u all_lyap traj_length recorded_estimates effective_length].
    destruct (qr (matmul m (u st))) as [q1 r1]. cbn [fst snd].
    cbn [effective_length]. rewrite <- app_assoc. reflexivity.
Qed.

End LyapunovFacts.

Lemma sum_axis0_rows (d : nat) (rows : list (list float64)) :
  rows <> [] -> Forall (fun r => length r = d) rows ->
  sum_axis0 rows = Ok (map np_sum (columns NaN rows)) /\
  length (map np_sum (columns NaN rows)) = d.
Proof.
  intros N H.
  assert (Hc : ncols rows = d).
  { destruct rows as [|r rows]; [congruence|]. inversion H; subst. reflexivity. }
  unfold sum_axis0. split.
  - replace (forallb (fun r => Nat.eqb (length r) (ncols rows)) rows) with true;
      [reflexivity|].
    symmetry. apply forallb_forall. intros r Hr. rewrite Forall_forall in H.
    rewrite Hc. apply Nat.eqb_eq, H, Hr.
  - unfold columns. rewrite !length_map, length_seq. exact Hc.
Qed.


Lemma finite_list (l : list float64) :
  Forall (fun v => is_finite v = true) l -> exists xs, l = map Fin xs.
Proof.
  induction 1 as [|v l Hv _ [xs IH]].
  - exists []. reflexivity.
  - destruct v as [x| | |]; try discriminate.
    exists (x :: xs). rewrite IH. reflexivity.
Qed.

Lemma np_sum_finite (l : list float64) :
  Forall (fun v => is_finite v = true) l -> is_finite (np_sum l) = true.
Proof.
  intros H. destruct (finite_list l H) as [xs ->].
  rewrite np_sum_Fin. reflexivity.
Qed.

Lemma finite_quotient (v : float64) (dt : float64) (x : R) (len : Z) :
  is_finite v = true -> dt = Fin x -> x * IZR len <> 0 ->
  is_finite (fdiv v (fmul dt (Fin (IZR len)))) = true.
Proof.
  intros Hv -> Hnz. destruct v as [y| | |]; try discriminate.
  cbn [fmul fdiv].
  replace (Reqb (x * IZR len) 0) with false by (symmetry; apply Reqb_false, Hnz).
  reflexivity.
Qed.

Lemma Forall_exists_Forall2 {A B : Type} (P : A -> B -> Prop) (l : list A) :
  Forall (fun a => exists b, P a b) l -> exists l', Forall2 P l l'.
Proof.
  induction 1 as [|a l [b Hb] _ [l' IH]].
  - exists []. constructor.
  - exists (b :: l'). constructor; assumption.
Qed.

(** The outcome of the loop in terms of the recorded contributions. *)
Lemma lyap_spectrum_recorded :
  forall (LA : LinAlg) (model : Model) (traj_length0 pts_per_period : Z)
         (tol : float64) (min_tpts : Z)
         (tpts : list float64) (traj : list (list float64))
         (p0 : float64 * list float64) (rest : list (float64 * list float64)),
    let d := length (ic model) in
    let dt := np_median (np_diff tpts) in
    (1 <= d)%nat ->
    (forall m, length (diagonal (snd (qr m))) = d) ->
    make_trajectory model traj_length0 pts_per_period = (tpts, traj) ->
    combine tpts traj = p0 :: rest ->
    rest <> [] ->
    (exists j0, jacobian model (fst p0) (snd p0) = Ok j0) ->
    Forall (fun p => exists m, euler_matrix model d dt p = Ok m) rest ->
    exists (ms : list matrix) (out : list float64),
      Forall2 (fun p m => euler_matrix model d dt p = Ok m) rest ms /\
      let recorded := recorded_estimates (np_identity d) ms in
      let len := effective_length tol min_tpts traj_length0 1 recorded in
      let total := map np_sum (columns NaN recorded) in
      find_lyapunov_exponents model traj_length0 pts_per_period tol min_tpts = Ok out /\
      length out = d /\
      StronglySorted (fun a b => sort_leb b a = true) out /\
      out = sort_descending (map (fun x => fdiv x (fmul dt (Fin (IZR len)))) total) /\
      length recorded = length rest /\
      Forall (fun est => length est = d) recorded /\
      (forall k est,
          nth_error recorded k = Some est ->
          truncates tol min_tpts (1 + k) est = true ->
          (forall k' est', (k < k')%nat -> nth_error recorded k' = Some est' ->
                           truncates tol min_tpts (1 + k') est' = false) ->
          len = Z.of_nat (1 + k)) /\
      ((forall k est, nth_error recorded k = Some est ->
                      truncates tol min_tpts (1 + k) est = false) ->
       len = traj_length0) /\
      (Forall (Forall (fun v => is_finite v = true)) recorded ->
       forall x, dt = Fin x -> x * IZR len <> 0 ->
       Forall (fun v => is_finite v = true) out).
Proof.
  intros LA model traj_length0 pts_per_period tol min_tpts tpts traj p0 rest
         d dt Hd Hdiag Htraj Hpts Hrest [j0 Hj0] Hsteps.
  destruct (Forall_exists_Forall2 _ _ Hsteps) as [ms Hms].
  exists ms.
  set (recorded := recorded_estimates (np_identity d) ms).
  set (len := effective_length tol min_tpts traj_length0 1 recorded).
  set (total := map np_sum (columns NaN recorded)).
  exists (sort_descending (map (fun x => fdiv x (fmul dt (Fin (IZR len)))) total)).
  split; [exact Hms|]. cbv zeta. fold recorded len total.
  assert (Lrec : length recorded = length rest).
  { unfold recorded. rewrite recorded_estimates_length.
    symmetry. eapply Forall2_length; eauto. }
  assert (Rrec : Forall (fun est => length est = d) recorded)
    by (apply recorded_estimates_rows; assumption).
  assert (Nrec : recorded <> []).
  { intros Z. rewrite Z in Lrec. destruct rest; [congruence | discriminate]. }
  destruct (sum_axis0_rows d recorded Nrec Rrec) as [Hsum Hlen]. fold total in Hsum, Hlen.
  split; [|split; [|split; [|split; [|split; [|split; [|split; [|split]]]]]]].
  - unfold find_lyapunov_exponents. rewrite Htraj. fold d dt.
    unfold enumerate. rewrite Hpts. cbn [length seq combine rfold].
    unfold lyap_body at 1. destruct p0 as [t0 X0]. cbn [fst snd] in Hj0.
    rewrite Hj0. cbn [rbind Nat.ltb Nat.leb].
    destruct (lyap_loop model d dt tol min_tpts Hdiag Hd rest ms Hms 1%nat
                {| u := np_identity d; all_lyap := []; traj_length := traj_length0 |}
                (le_n 1)) as [q Hq].
    rewrite Hq. cbn [rbind u all_lyap traj_length app]. fold recorded len.
    destruct recorded as [|r rs] eqn:Er; [congruence|].
    rewrite Hsum. reflexivity.
  - rewrite sort_descending_length, length_map. exact Hlen.
  - apply sort_descending_sorted.
  - reflexivity.
  - exact Lrec.
  - exact Rrec.
  - intros k est Hk Ht Hlater. apply (effective_length_last _ _ _ _ k _ est Hk Ht Hlater).
  - intros Hnone. apply effective_length_none. exact Hnone.
  - intros Hfin x Hx Hnz.
    eapply Permutation_Forall; [apply Permutation_sym, sort_descending_perm|].
    apply Forall_map. unfold total. apply Forall_map. unfold columns.
    apply Forall_map. apply Forall_forall. intros j Hj. apply in_seq in Hj.
    assert (Hc : ncols recorded = d).
    { destruct recorded as [|r rs]; [congruence|].
      inversion Rrec as [|? ? H1 _]. exact H1. }
    rewrite Hc in Hj.
    apply (finite_quotient _ dt x len); [|exact Hx | exact Hnz].
    apply np_sum_finite.
    apply (column_Forall _ NaN recorded d j); [|lia].
    apply Forall_forall. intros r Hr. rewrite Forall_forall in Rrec, Hfin.
    split; [apply Rrec, Hr | apply Hfin, Hr].
Qed.

Lemma recorded_estimates_factors `{LA : LinAlg} (q0 : matrix) (ms : list matrix) :
  recorded_estimates q0 ms =
  map (fun r => map (fun x => flog (fabs x)) (diagonal r)) (upper_factors q0 ms).
Proof.
  revert q0. induction ms as [|m ms IH]; intros q0; cbn [recorded_estimates upper_factors].
  - reflexivity.
  - destruct (qr (matmul m q0)) as [q r]. cbn [map]. rewrite IH. reflexivity.
Qed.

Lemma columns_of_factors `{LA : LinAlg} (d : nat) (rs : list matrix) :
  rs <> [] ->
  Forall (fun r => length (diagonal r) = d) rs ->
  map np_sum (columns NaN (map (fun r => map (fun x => flog (fabs x)) (diagonal r)) rs)) =
  map (fun c => np_sum (map (fun r => flog (fabs (nth c (diagonal r) NaN))) rs)) (seq 0 d).
Proof.
  intros N H. unfold columns.
  replace (ncols (map (fun r => map (fun x => flog (fabs x)) (diagonal r)) rs)) with d.
  2:{ destruct rs as [|r rs]; [congruence|]. cbn [map ncols]. rewrite length_map.
      inversion H; subst. reflexivity. }
  rewrite map_map. apply map_ext. intros c. f_equal.
  unfold column. rewrite map_map. apply map_ext. intros r.
  apply (map_nth (fun x => flog (fabs x)) (diagonal r) NaN c).
Qed.


Lemma upper_factors_diagonal `{LA : LinAlg} (d : nat) (q0 : matrix) (ms : list matrix) :
  (forall m, length (diagonal (snd (qr m))) = d) ->
  Forall (fun r => length (diagonal r) = d) (upper_factors q0 ms).
Proof.
  intros Hd. revert q0. induction ms as [|m ms IH]; intros q0; cbn [upper_factors].
  - constructor.
  - pose proof (Hd (matmul m q0)) as L.
    destruct (qr (matmul m q0)) as [q r]. cbn [snd] in L.
    constructor; [exact L | apply IH].
Qed.


Lemma decay_dt : np_median (np_diff [Fin 0; Fin (1 / 10); Fin (2 / 10)]) = Fin (1 / 10).
Proof. unfold np_median. np_eval. fin_eq. Qed.

Lemma decay_euler (p : float64 * list float64) :
  euler_matrix decay_model 1 (Fin (1 / 10)) p = Ok (Fin (10 / 11)).
Proof.
  unfold euler_matrix, jacobian. cbn [decay_model jac _postprocessing rbind].
  cbn [scalar_linalg inv mat_sub np_identity mat_scale fsub fmul fneg fadd].
  replace (Reqb (1 + - (-1 * (1 / 10))) 0) with false
    by (symmetry; apply Reqb_false; lra).
  fin_eq.
Qed.


(** ** [pesin] *)

Lemma np_median_singleton (v : float64) : np_median [v] = v.
Proof.
  unfold np_median. cbn [existsb orb]. destruct v; reflexivity.
Qed.

Lemma fold_left_fadd_nonnegative (l : list float64) (acc : float64) :
  nonnegative acc ->
  Forall (fun x => fgt x (Fin 0) = true) l ->
  nonnegative (fold_left fadd l acc).
Proof.
  revert acc. induction l as [|x l IH]; intros acc Ha Hl; cbn [fold_left]; [exact Ha|].
  inversion Hl as [|? ? Hx Hl']; subst. apply IH; [|exact Hl'].
  destruct x as [y| | |]; cbn in Hx; try discriminate.
  - apply Rltb_true in Hx.
    destruct Ha as [-> | [a [-> Ha]]]; [left; reflexivity|].
    right. exists (a + y). split; [reflexivity | lra].
  - destruct Ha as [-> | [a [-> Ha]]]; left; reflexivity.
Qed.

Lemma filter_positive_Fin (xs : list R) :
  filter (fun x => fgt x (Fin 0)) (map Fin xs) = map Fin (filter (fun x => Rltb 0 x) xs).
Proof.
  induction xs as [|x xs IH]; cbn [map filter]; [reflexivity|].
  change (fgt (Fin x) (Fin 0)) with (Rltb 0 x).
  destruct (Rltb 0 x); cbn [map]; rewrite IH; reflexivity.
Qed.

(** X1: [pesin] is the sum of the strictly positive exponents (a [nan]
    or non-positive entry contributes nothing); it is never negative and
    never [nan], and it is 0 when no exponent is positive. *)
Theorem pesin_sum_of_positive :
  forall (lyapval : list float64),
    pesin lyapval = np_sum (filter (fun x => fgt x (Fin 0)) lyapval) /\
    nonnegative (pesin lyapval) /\
    (Forall (fun x => fgt x (Fin 0) = false) lyapval -> pesin lyapval = Fin 0) /\
    (forall xs, lyapval = map Fin xs ->
                pesin lyapval = Fin (Rsum (filter (fun x => Rltb 0 x) xs))).
Proof.
  intros l.
  assert (E : pesin l = np_sum (filter (fun x => fgt x (Fin 0)) l)).
  { unfold pesin. apply np_median_singleton. }
  split; [exact E|]. split; [|split].
  - rewrite E. unfold np_sum. apply fold_left_fadd_nonnegative.
    + right. exists 0. split; [reflexivity | lra].
    + apply Forall_forall. intros x Hx. apply filter_In in Hx. apply Hx.
  - intros H. rewrite E.
    replace (filter (fun x => fgt x (Fin 0)) l) with (@nil float64); [reflexivity|].
    symmetry. clear E. induction H as [|x l' Hx _ IH]; cbn [filter]; [reflexivity|].
    rewrite Hx. exact IH.
  - intros xs ->. rewrite E, filter_positive_Fin, np_sum_Fin. reflexivity.
Qed.

(** ** [estimate_powerlaw]: further properties *)

Lemma Rlist_min_scale (c : R) (xs : list R) :
  0 < c -> xs <> [] -> Rlist_min (map (Rmult c) xs) = c * Rlist_min xs.
Proof.
  intros Hc N. apply Rlist_min_eq.
  destruct (Rlist_min_is_minimum xs N) as [Hin Hle]. split.
  - apply in_map. exact Hin.
  - apply Forall_map. eapply Forall_impl; [|exact Hle].
    intros x Hx. cbv beta. apply Rmult_le_compat_l; lra.
Qed.

Lemma mle_exponent_scale (c : R) (xs : list R) :
  0 < c -> xs <> [] -> Forall (fun x => 0 < x) xs ->
  mle_exponent (map (Rmult c) xs) = mle_exponent xs.
Proof.
  intros Hc N P.
  destruct (Rlist_min_is_minimum xs N) as [Hin _].
  assert (Hm : 0 < Rlist_min xs) by (rewrite Forall_forall in P; auto).
  assert (E : log_sum (map (Rmult c) xs) = log_sum xs).
  { unfold log_sum. rewrite (Rlist_min_scale c xs Hc N), map_map.
    f_equal. apply map_ext. intros x. f_equal. field. lra. }
  unfold mle_exponent. rewrite E, length_map. reflexivity.
Qed.

(** X2: the estimate does not depend on the unit of the sample:
    multiplying every value of a positive sample by the same positive
    factor leaves [estimate_powerlaw] unchanged. *)
Theorem estimate_powerlaw_scale_invariant :
  forall (c : R) (xs : list R),
    0 < c -> xs <> [] -> Forall (fun x => 0 < x) xs ->
    estimate_powerlaw (map Fin (map (Rmult c) xs)) = estimate_powerlaw (map Fin xs).
Proof.
  intros c xs Hc N P.
  rewrite !estimate_powerlaw_positive; try assumption.
  - rewrite mle_exponent_scale by assumption. reflexivity.
  - destruct xs; [congruence | discriminate].
  - apply Forall_map. eapply Forall_impl; [|exact P].
    intros x Hx. cbv beta. apply Rmult_lt_0_compat; assumption.
Qed.

Lemma estimate_powerlaw_scale_invariant_witness :
  estimate_powerlaw (map Fin (map (Rmult 3) [2; 1; 4])) = estimate_powerlaw (map Fin [2; 1; 4]).
Proof.
  apply (estimate_powerlaw_scale_invariant 3 [2; 1; 4]).
  - lra.
  - discriminate.
  - repeat constructor; lra.
Defined.

Lemma log_sum_nonneg (xs : list R) :
  xs <> [] -> Forall (fun x => 0 < x) xs -> 0 <= log_sum xs.
Proof.
  intros N P. destruct (Rlist_min_is_minimum xs N) as [Im Fm].
  assert (Hm : 0 < Rlist_min xs) by (rewrite Forall_forall in P; auto).
  unfold log_sum. apply Rsum_nonneg, Forall_map.
  eapply Forall_impl; [|exact Fm]. intros x Hx. apply log_ratio_nonneg; assumption.
Qed.

(** X3: on a positive sample that is not constant, and in which no
    value is more than [float64_max] times the smallest (no quotient
    [x / xmin] overflows), the estimate is a finite number strictly
    greater than 1. *)
Theorem estimate_powerlaw_above_one :
  forall (xs : list R),
    Forall (fun x => 0 < x) xs ->
    Forall (fun x => x / Rlist_min xs <= float64_max) xs ->
    (exists x y, In x xs /\ In y xs /\ x <> y) ->
    exists a, estimate_powerlaw (map Fin xs) = Ok (Fin a) /\ 1 < a.
Proof.
  intros xs P _ [x [y [Hx [Hy Hxy]]]].
  assert (N : xs <> []) by (intros ->; contradiction).
  rewrite (estimate_powerlaw_positive xs N P). unfold mle_exponent.
  pose proof (log_sum_nonneg xs N P) as Hs.
  assert (Hne : log_sum xs <> 0).
  { intros Z. apply (log_sum_zero_iff xs N P) in Z. rewrite Forall_forall in Z.
    apply Hxy. rewrite (Z x Hx), (Z y Hy). reflexivity. }
  replace (Reqb (log_sum xs) 0) with false by (symmetry; apply Reqb_false, Hne).
  eexists. split; [reflexivity|].
  assert (Hn : 0 < INR (length xs)).
  { apply lt_0_INR. destruct xs; [congruence | simpl; lia]. }
  assert (0 < INR (length xs) / log_sum xs) by (apply Rdiv_lt_0_compat; lra).
  lra.
Qed.

Lemma estimate_powerlaw_above_one_witness :
  exists a, estimate_powerlaw (map Fin [2; 1; 4]) = Ok (Fin a) /\ 1 < a.
Proof.
  apply (estimate_powerlaw_above_one [2; 1; 4]).
  - repeat constructor; lra.
  - rewrite (Rlist_min_eq 1)
      by (split; [right; left; reflexivity | repeat constructor; lra]).
    repeat (apply Forall_cons; [apply float64_max_large; lra|]); apply Forall_nil.
  - exists 2, 1. split; [left; reflexivity|]. split; [right; left; reflexivity | lra].
Defined.

Lemma fadd_NaN_r (a : float64) : fadd a NaN = NaN.
Proof. destruct a; reflexivity. Qed.

Lemma fold_left_fadd_NaN (l : list float64) : fold_left fadd l NaN = NaN.
Proof. induction l as [|x l IH]; cbn [fold_left fadd]; [reflexivity | exact IH]. Qed.

Lemma np_sum_NaN (l : list float64) : In NaN l -> np_sum l = NaN.
Proof.
  unfold np_sum. generalize (Fin 0).
  induction l as [|x l IH]; intros acc H; [contradiction|].
  cbn [fold_left]. destruct H as [-> | H].
  - rewrite fadd_NaN_r. apply fold_left_fadd_NaN.
  - apply IH, H.
Qed.

(** X4: a zero in a sample of non-negative values poisons the
    estimate: [xmin] is 0, the entry [0 / 0] is [nan], and
    [estimate_powerlaw] returns [nan] without raising. *)
Theorem estimate_powerlaw_zero_minimum :
  forall (xs : list R),
    Forall (fun x => 0 <= x) xs -> In 0 xs ->
    estimate_powerlaw (map Fin xs) = Ok NaN.
Proof.
  intros xs P Hz. unfold estimate_powerlaw.
  destruct (np_sort_Fin xs) as [ys [E Pm]]. rewrite E.
  assert (Hz' : In 0 ys) by (eapply Permutation_in; eauto).
  assert (Ny : ys <> []) by (intros ->; contradiction).
  assert (Py : Forall (fun x => 0 <= x) ys) by (eapply Permutation_Forall; eauto).
  rewrite (np_min_Fin ys Ny). cbn [rbind].
  assert (Em : Rlist_min ys = 0).
  { apply Rlist_min_eq. split; assumption. }
  rewrite Em, np_sum_NaN; [reflexivity|].
  rewrite map_map. apply in_map_iff. exists 0. split; [|exact Hz'].
  cbn [fdiv]. replace (Reqb 0 0) with true by (symmetry; apply Reqb_true; reflexivity).
  reflexivity.
Qed.

Lemma estimate_powerlaw_zero_minimum_witness :
  estimate_powerlaw (map Fin [2; 0; 3]) = Ok NaN.
Proof.
  apply (estimate_powerlaw_zero_minimum [2; 0; 3]).
  - repeat constructor; lra.
  - right; left; reflexivity.
Defined.

(** ** Sorting a permutation *)

Lemma sort_leb_antisym (a b : float64) :
  sort_leb a b = true -> sort_leb b a = true -> a = b.
Proof.
  destruct a as [x| | |], b as [y| | |]; cbn; intros H1 H2;
    try reflexivity; try discriminate.
  apply Rleb_true in H1. apply Rleb_true in H2. f_equal. lra.
Qed.

Lemma sorted_perm_unique {A : Type} (R : A -> A -> Prop) :
  (forall a b, R a b -> R b a -> a = b) ->
  forall l1 l2, StronglySorted R l1 -> StronglySorted R l2 ->
                Permutation l1 l2 -> l1 = l2.
Proof.
  intros anti. induction l1 as [|a l1 IH]; intros l2 S1 S2 P.
  - apply Permutation_nil in P. subst. reflexivity.
  - destruct l2 as [|b l2]; [apply Permutation_sym, Permutation_nil in P; discriminate|].
    inversion S1 as [|? ? S1' F1]; subst. inversion S2 as [|? ? S2' F2]; subst.
    assert (E : a = b).
    { assert (Ha : In a (b :: l2)) by (eapply Permutation_in; [exact P | left; reflexivity]).
      assert (Hb : In b (a :: l1))
        by (eapply Permutation_in; [apply Permutation_sym, P | left; reflexivity]).
      destruct Ha as [Ha|Ha]; [symmetry; exact Ha|].
      destruct Hb as [Hb|Hb]; [exact Hb|].
      rewrite Forall_forall in F1, F2. apply anti; [apply F1, Hb | apply F2, Ha]. }
    subst b. f_equal. apply IH; try assumption.
    eapply Permutation_cons_inv; exact P.
Qed.

Lemma np_sort_permutation (l1 l2 : list float64) :
  Permutation l1 l2 -> np_sort l1 = np_sort l2.
Proof.
  intros P.
  apply (sorted_perm_unique (fun x y => sort_leb x y = true) sort_leb_antisym);
    try apply np_sort_sorted.
  eapply Permutation_trans; [apply np_sort_perm|].
  eapply Permutation_trans; [exact P | apply Permutation_sym, np_sort_perm].
Qed.

(** X5: [estimate_powerlaw] does not depend on the order of the sample,
    whatever the sample holds. *)
Theorem estimate_powerlaw_order_irrelevant :
  forall (l1 l2 : list float64),
    Permutation l1 l2 -> estimate_powerlaw l1 = estimate_powerlaw l2.
Proof.
  intros l1 l2 P. unfold estimate_powerlaw.
  rewrite (np_sort_permutation l1 l2 P). reflexivity.
Qed.

Lemma estimate_powerlaw_order_irrelevant_witness :
  estimate_powerlaw [Fin 2; Fin 1; Fin 4] = estimate_powerlaw [Fin 1; Fin 2; Fin 4].
Proof.
  apply (estimate_powerlaw_order_irrelevant [Fin 2; Fin 1; Fin 4] [Fin 1; Fin 2; Fin 4]).
  apply perm_swap.
Defined.

(** X6: [kaplan_yorke_dimension] sorts its argument first, so its value,
    its warning and its exception do not depend on the order in which the
    exponents are given. *)
Theorem kaplan_yorke_dimension_order_irrelevant :
  forall (l1 l2 : list float64),
    Permutation l1 l2 -> kaplan_yorke_dimension l1 = kaplan_yorke_dimension l2.
Proof.
  intros l1 l2 P. unfold kaplan_yorke_dimension, sort_descending.
  rewrite (np_sort_permutation l1 l2 P). reflexivity.
Qed.

Lemma kaplan_yorke_dimension_order_irrelevant_witness :
  kaplan_yorke_dimension [Fin (-2); Fin 1] = kaplan_yorke_dimension [Fin 1; Fin (-2)].
Proof.
  apply (kaplan_yorke_dimension_order_irrelevant [Fin (-2); Fin 1] [Fin 1; Fin (-2)]).
  apply perm_swap.
Defined.

(** ** [find_max_lyapunov]: further properties *)

Lemma find_skip {A : Type} (p : A -> bool) (l1 l2 : list A) :
  Forall (fun a => p a = false) l1 -> find p (l1 ++ l2) = find p l2.
Proof.
  induction 1 as [|a l Ha _ IH]; cbn [find app]; [reflexivity|].
  rewrite Ha. exact IH.
Qed.

Lemma last_exceeding_split (x e : float64) (l1 l2 : list float64) :
  fgt (fabs e) (fabs x) = true ->
  Forall (fun z => fgt (fabs z) (fabs x) = false) l2 ->
  last_exceeding x (l1 ++ e :: l2) = Some e.
Proof.
  intros He Hl2. unfold last_exceeding.
  rewrite rev_app_distr. cbn [rev]. rewrite <- app_assoc.
  rewrite find_skip by (apply Forall_rev; exact Hl2).
  cbn [app find]. rewrite He. reflexivity.
Qed.

(** X7: on a non-empty spectrum [find_max_lyapunov] returns the last
    element after index 0 whose magnitude is strictly above that of
    element 0: the elements before it play no part, whatever their
    magnitude. *)
Theorem find_max_lyapunov_last_exceeding :
  forall (x e : float64) (l1 l2 : list float64),
    fgt (fabs e) (fabs x) = true ->
    Forall (fun z => fgt (fabs z) (fabs x) = false) l2 ->
    find_max_lyapunov (x :: l1 ++ e :: l2) = Ok e.
Proof.
  intros x e l1 l2 He Hl2.
  rewrite find_max_lyapunov_cons, (last_exceeding_split x e l1 l2 He Hl2).
  reflexivity.
Qed.

Lemma find_max_lyapunov_last_exceeding_witness :
  find_max_lyapunov (Fin 1 :: [Fin 7; Fin (-9)] ++ Fin 2 :: [Fin (1 / 2)]) = Ok (Fin 2).
Proof.
  apply (find_max_lyapunov_last_exceeding (Fin 1) (Fin 2) [Fin 7; Fin (-9)] [Fin (1 / 2)]).
  - unfold fgt, flt, fabs. Rabs_eval. Rdecide. reflexivity.
  - repeat constructor. unfold fgt, flt, fabs. Rabs_eval. Rdecide. reflexivity.
Defined.

Lemma StronglySorted_Fin (ys : list R) :
  StronglySorted (fun a b => sort_leb a b = true) (map Fin ys) ->
  StronglySorted Rle ys.
Proof.
  induction ys as [|y ys IH]; cbn [map]; intros H; [constructor|].
  inversion H as [|? ? Hs Hf]; subst. constructor; [apply IH, Hs|].
  rewrite Forall_map in Hf. eapply Forall_impl; [|exact Hf].
  intros z Hz. cbn in Hz. apply Rleb_true, Hz.
Qed.

(** Sorting a finite spectrum in descending order. *)
Lemma sort_descending_Fin (ys : list R) :
  exists zs, sort_descending (map Fin ys) = map Fin zs /\
             Permutation ys zs /\
             StronglySorted (fun a b => b <= a) zs.
Proof.
  destruct (np_sort_Fin ys) as [ys' [E P]].
  exists (rev ys'). unfold sort_descending. rewrite E, map_rev.
  split; [reflexivity|]. split.
  - eapply Permutation_trans; [exact P | apply Permutation_rev].
  - apply StronglySorted_rev, StronglySorted_Fin. rewrite <- E. apply np_sort_sorted.
Qed.

Lemma StronglySorted_last {A : Type} (R : A -> A -> Prop) (l : list A) (z : A) :
  StronglySorted R (l ++ [z]) -> Forall (fun a => R a z) l.
Proof.
  induction l as [|a l IH]; cbn [app]; intros H; [constructor|].
  inversion H as [|? ? Hs Hf]; subst. constructor; [|apply IH, Hs].
  rewrite Forall_forall in Hf. apply Hf, in_or_app. right. left. reflexivity.
Qed.

Lemma Rabs_between (lo e hi : R) :
  lo <= e -> e <= hi -> Rabs lo <= Rabs hi -> Rabs e <= Rabs hi.
Proof.
  unfold Rabs. repeat destruct Rcase_abs; lra.
Qed.

(** X8: applied to a spectrum sorted in descending order, as
    [find_lyapunov_exponents] returns it and as the data generator passes
    it on, [find_max_lyapunov] never yields the largest exponent: it
    returns the smallest exponent when that one has the larger magnitude,
    and fails with the unassigned-variable error otherwise. *)
Theorem find_max_lyapunov_of_sorted_spectrum :
  forall (ys : list R),
    (2 <= length ys)%nat ->
    exists hi lo,
      is_maximum hi ys /\ is_minimum lo ys /\
      find_max_lyapunov (sort_descending (map Fin ys)) =
      (if Rltb (Rabs hi) (Rabs lo) then Ok (Fin lo) else Raise UnboundLocalError).
Proof.
  intros ys Hlen.
  destruct (sort_descending_Fin ys) as [zs [E [P S]]]. rewrite E.
  assert (Lz : length zs = length ys) by (symmetry; apply Permutation_length, P).
  destruct zs as [|hi rest]; [cbn [length] in Lz; lia|].
  assert (Nrest : rest <> []).
  { intros ->. cbn [length] in Lz. lia. }
  destruct (exists_last Nrest) as [l1 [lo Erest]]. subst rest.
  inversion S as [|? ? Srest Fhi]; subst.
  pose proof (StronglySorted_last _ _ _ Srest) as Flo. cbv beta in Flo.
  assert (Hlohi : lo <= hi).
  { rewrite Forall_forall in Fhi. apply Fhi, in_or_app. right. left. reflexivity. }
  exists hi, lo. split; [|split].
  - split.
    + eapply Permutation_in; [apply Permutation_sym, P | left; reflexivity].
    + eapply Permutation_Forall; [apply Permutation_sym, P|].
      constructor; [lra | exact Fhi].
  - split.
    + eapply Permutation_in; [apply Permutation_sym, P|].
      right. apply in_or_app. right. left. reflexivity.
    + eapply Permutation_Forall; [apply Permutation_sym, P|].
      constructor; [exact Hlohi|]. apply Forall_app. split; [exact Flo|].
      constructor; [lra | constructor].
  - cbn [map]. rewrite find_max_lyapunov_cons, map_app. cbn [map].
    destruct (Rltb (Rabs hi) (Rabs lo)) eqn:C.
    + rewrite last_exceeding_split; [reflexivity | exact C | constructor].
    + replace (last_exceeding (Fin hi) (map Fin l1 ++ [Fin lo])) with (@None float64);
        [reflexivity|].
      symmetry. apply last_exceeding_none.
      apply Rltb_false in C.
      apply Forall_app. split.
      * apply Forall_map. rewrite Forall_forall in Fhi, Flo |- *. intros e He.
        cbn [fabs fgt flt]. apply Rltb_false.
        apply (Rabs_between lo e hi); [apply Flo, He | | exact C].
        apply Fhi, in_or_app. left. exact He.
      * constructor; [|constructor]. cbn [fabs fgt flt]. apply Rltb_false. exact C.
Qed.

Lemma find_max_lyapunov_of_sorted_spectrum_witness :
  exists hi lo,
    is_maximum hi [1; -3; 2] /\ is_minimum lo [1; -3; 2] /\
    find_max_lyapunov (sort_descending (map Fin [1; -3; 2])) =
    (if Rltb (Rabs hi) (Rabs lo) then Ok (Fin lo) else Raise UnboundLocalError).
Proof.
  apply (find_max_lyapunov_of_sorted_spectrum [1; -3; 2]). cbn [length]. lia.
Defined.

(** ** [kaplan_yorke_dimension]: further properties *)

Lemma cumsum_from_negative (a : R) (zs : list R) :
  a < 0 -> Forall (fun z => z < 0) zs ->
  Forall (fun c => fge c (Fin 0) = false) (cumsum_from (Fin a) (map Fin zs)).
Proof.
  intros Ha H. revert a Ha.
  induction H as [|z zs Hz _ IH]; intros a Ha; cbn [map cumsum_from fadd]; constructor.
  - cbn [fge fle]. apply Rleb_false. lra.
  - apply IH. lra.
Qed.

(** X9: a finite spectrum whose exponents are all negative (and the
    empty spectrum) has no non-negative cumulative sum, and
    [kaplan_yorke_dimension] raises [ValueError] without a warning. *)
Theorem kaplan_yorke_dimension_all_negative :
  forall (xs : list R),
    Forall (fun x => x < 0) xs ->
    kaplan_yorke_dimension (map Fin xs) = ([], Raise ValueError).
Proof.
  intros xs H.
  destruct (sort_descending_Fin xs) as [zs [E [P _]]].
  assert (Hz : Forall (fun z => z < 0) zs) by (eapply Permutation_Forall; eauto).
  unfold kaplan_yorke_dimension. rewrite E.
  rewrite np_where_none; [reflexivity|].
  destruct Hz as [|z zs Hz Hzs]; cbn [map np_cumsum]; constructor.
  - cbn [fge fle]. apply Rleb_false. lra.
  - apply cumsum_from_negative; assumption.
Qed.

Lemma kaplan_yorke_dimension_all_negative_witness :
  kaplan_yorke_dimension (map Fin [-1; -3; -2]) = ([], Raise ValueError).
Proof.
  apply (kaplan_yorke_dimension_all_negative [-1; -3; -2]).
  repeat constructor; lra.
Defined.

Lemma cumsum_from_nth (zs : list R) (a : R) (k : nat) :
  (k < length zs)%nat ->
  nth k (cumsum_from (Fin a) (map Fin zs)) NaN = Fin (a + Rsum (firstn (S k) zs)).
Proof.
  revert a k. induction zs as [|z zs IH]; intros a k Hk; [cbn [length] in Hk; lia|].
  cbn [map cumsum_from fadd]. destruct k as [|k].
  - cbn [nth firstn Rsum fold_right]. f_equal. lra.
  - cbn [nth length] in *. rewrite IH by lia.
    f_equal. change (firstn (S (S k)) (z :: zs)) with (z :: firstn (S k) zs).
    cbn [Rsum fold_right]. fold (Rsum (firstn (S k) zs)). lra.
Qed.

Lemma np_cumsum_nth (zs : list R) (k : nat) :
  (k < length zs)%nat ->
  nth k (np_cumsum (map Fin zs)) NaN = Fin (Rsum (firstn (S k) zs)).
Proof.
  destruct zs as [|z zs]; intros Hk; [cbn [length] in Hk; lia|].
  cbn [map np_cumsum]. destruct k as [|k].
  - cbn [nth firstn Rsum fold_right]. f_equal. lra.
  - cbn [nth length] in *. rewrite cumsum_from_nth by lia.
    change (firstn (S (S k)) (z :: zs)) with (z :: firstn (S k) zs).
    reflexivity.
Qed.

Lemma Rsum_firstn_S (zs : list R) (k : nat) :
  (k < length zs)%nat ->
  Rsum (firstn (S k) zs) = Rsum (firstn k zs) + nth k zs 0.
Proof.
  revert k. induction zs as [|z zs IH]; intros k Hk; [cbn [length] in Hk; lia|].
  destruct k as [|k].
  - cbn. lra.
  - change (firstn (S (S k)) (z :: zs)) with (z :: firstn (S k) zs).
    change (firstn (S k) (z :: zs)) with (z :: firstn k zs).
    cbn [Rsum fold_right nth length] in *.
    fold (Rsum (firstn (S k) zs)). fold (Rsum (firstn k zs)).
    rewrite IH by lia. lra.
Qed.

(** X10: when the cumulative sums of a finite spectrum, each of them a
    value that float64 addition produces without rounding, turn negative
    before the end (the largest index [j] with a non-negative cumulative
    sum is at most [d - 2]), no warning is issued and the value is a finite
    number between [1 + j] and [2 + j]: the fractional part
    [cumsum[j] / |spectrum[j+1]|] is at least 0 and, before it is rounded,
    below 1. *)
Theorem kaplan_yorke_dimension_bounds :
  forall (xs : list R) (j : Z),
    Forall exact_float64 (np_cumsum (sort_descending (map Fin xs))) ->
    largest_nonneg_index (np_cumsum (sort_descending (map Fin xs))) j ->
    (j <= Z.of_nat (length xs) - 2)%Z ->
    exists v,
      kaplan_yorke_dimension (map Fin xs) = ([], Ok (Fin v)) /\
      IZR (1 + j) <= v <= IZR (2 + j).
Proof.
  intros xs j _ L Hj.
  destruct (kaplan_yorke_dimension_eval (map Fin xs) j L) as [cj [sj [H1 [H2 H3]]]].
  rewrite length_map in H1, H2, H3.
  replace (Z.min j (Z.of_nat (length xs) - 2)) with j in H1, H2, H3 by lia.
  replace (j >? Z.of_nat (length xs) - 2)%Z with false in H3
    by (symmetry; rewrite Z.gtb_ltb; apply Z.ltb_ge; lia).
  destruct (sort_descending_Fin xs) as [zs [E [P _]]].
  assert (Lz : length zs = length xs) by (symmetry; apply Permutation_length, P).
  rewrite E in L, H1, H2.
  destruct L as [Hr [Hnn Hlast]].
  rewrite np_cumsum_length, length_map, Lz in Hr, Hlast.
  set (k := Z.to_nat j) in *.
  assert (Hk : (S k < length zs)%nat) by (unfold k; lia).
  (* the two entries the formula reads *)
  rewrite (py_index_nonneg _ _ NaN) in H1
    by (rewrite np_cumsum_length, length_map, Lz; lia).
  rewrite (py_index_nonneg _ _ NaN) in H2 by (rewrite length_map, Lz; lia).
  fold k in H1. replace (Z.to_nat (j + 1)) with (S k) in H2 by (unfold k; lia).
  rewrite np_cumsum_nth in H1 by lia.
  rewrite (nth_indep _ NaN (Fin 0)) in H2 by (rewrite length_map; lia).
  rewrite (map_nth Fin zs 0) in H2.
  (* their signs *)
  rewrite np_cumsum_nth in Hnn by lia.
  cbn [fge fle] in Hnn. apply Rleb_true in Hnn.
  specialize (Hlast (j + 1)%Z ltac:(lia)).
  replace (Z.to_nat (j + 1)) with (S k) in Hlast by (unfold k; lia).
  rewrite np_cumsum_nth in Hlast by lia.
  cbn [fge fle] in Hlast. apply Rleb_false in Hlast.
  rewrite (Rsum_firstn_S zs (S k)) in Hlast by lia.
  remember (Rsum (firstn (S k) zs)) as c eqn:Ec. remember (nth (S k) zs 0) as z eqn:Ez.
  clear Ec Ez. injection H1 as <-. injection H2 as <-.
  assert (Hz : z < 0) by lra.
  rewrite H3. cbn [fabs fdiv fadd].
  rewrite (Rabs_left z Hz).
  replace (Reqb (- z) 0) with false by (symmetry; apply Reqb_false; lra).
  eexists. split; [reflexivity|].
  assert (Hq : 0 <= c / - z < 1).
  { split.
    - apply Rmult_le_pos; [lra|]. left. apply Rinv_0_lt_compat. lra.
    - apply (Rmult_lt_reg_r (- z)); [lra|]. field_simplify; lra. }
  replace (2 + j)%Z with (1 + j + 1)%Z by lia.
  rewrite (plus_IZR (1 + j) 1). lra.
Qed.

Lemma kaplan_yorke_dimension_bounds_witness :
  exists v,
    kaplan_yorke_dimension (map Fin [3; 1; -2; -4]) = ([], Ok (Fin v)) /\
    IZR (1 + 2) <= v <= IZR (2 + 2).
Proof.
  apply (kaplan_yorke_dimension_bounds [3; 1; -2; -4] 2%Z).
  - replace (np_cumsum (sort_descending (map Fin [3; 1; -2; -4])))
      with [Fin 3; Fin 4; Fin 2; Fin (-2)] by (symmetry; np_eval; fin_eq).
    repeat (apply Forall_cons;
            [eexists; split; [reflexivity | apply is_float64_integer; reflexivity]|]).
    apply Forall_nil.
  - split; [|split].
    + rewrite np_cumsum_length, sort_descending_length. cbn [length map]. lia.
    + np_eval. reflexivity.
    + intros k Hk. rewrite np_cumsum_length, sort_descending_length in Hk.
      cbn [length map] in Hk. assert (k = 3%Z) by lia. subst k.
      np_eval. reflexivity.
  - cbn [length]. lia.
Defined.

(** ** [gp_dim]: degenerate trajectories *)

Lemma sqdist_nonneg (a b : list R) : 0 <= sqdist a b.
Proof.
  unfold sqdist. apply Rsum_nonneg, Forall_map, Forall_forall.
  intros p _. cbv beta. apply Rle_0_sqr.
Qed.

Lemma sqdist_sym (a b : list R) : sqdist a b = sqdist b a.
Proof.
  unfold sqdist. revert b. induction a as [|x a IH]; intros [|y b]; try reflexivity.
  cbn [combine map Rsum fold_right fst snd].
  fold (Rsum (map (fun p => (fst p - snd p) * (fst p - snd p)) (combine a b))).
  fold (Rsum (map (fun p => (fst p - snd p) * (fst p - snd p)) (combine b a))).
  rewrite IH. ring.
Qed.

Lemma sqdist_self (a : list R) : sqdist a a = 0.
Proof.
  unfold sqdist. induction a as [|x a IH]; [reflexivity|].
  cbn [combine map Rsum fold_right fst snd].
  fold (Rsum (map (fun p => (fst p - snd p) * (fst p - snd p)) (combine a a))).
  rewrite IH. ring.
Qed.

Lemma euclidean_Fin (a b : list R) :
  euclidean (map Fin a) (map Fin b) = Fin (sqrt (sqdist a b)).
Proof.
  unfold euclidean.
  assert (E : map (fun p => fmul (fsub (fst p) (snd p)) (fsub (fst p) (snd p)))
                  (combine (map Fin a) (map Fin b))
              = map Fin (map (fun p => (fst p - snd p) * (fst p - snd p)) (combine a b))).
  { revert b. induction a as [|x a IH]; intros [|y b]; try reflexivity.
    cbn [map combine fst snd fsub fneg fadd fmul]. rewrite IH. reflexivity. }
  rewrite E, np_sum_Fin. fold (sqdist a b). unfold fsqrt.
  replace (Rltb (sqdist a b) 0) with false
    by (symmetry; apply Rltb_false, sqdist_nonneg).
  reflexivity.
Qed.

Lemma filter_none {A : Type} (p : A -> bool) (l : list A) :
  Forall (fun a => p a = false) l -> filter p l = [].
Proof.
  induction 1 as [|a l Ha _ IH]; cbn [filter]; [reflexivity|].
  rewrite Ha. exact IH.
Qed.

Lemma truncate_distances_no_positive (rvals : list float64) :
  Forall (fun r => fgt r (Fin 0) = false) rvals ->
  truncate_distances rvals = Raise IndexError.
Proof.
  intros H. unfold truncate_distances. rewrite (filter_none _ _ H). reflexivity.
Qed.

(** X11: a trajectory whose points all coincide (a system sitting at a
    fixed point, or a single sample) has no positive pairwise distance;
    the 5th percentile is asked of an empty array and [gp_dim] raises
    [IndexError]. *)
Theorem gp_dim_coincident_points :
  forall (v : list R) (data : list (list float64)),
    data <> [] -> v <> [] ->
    Forall (fun row => row = map Fin v) data ->
    gp_dim data None = Raise IndexError.
Proof.
  intros v data _ _ H. unfold gp_dim, cdist.
  rewrite Nat.eqb_refl. cbn [rbind].
  rewrite truncate_distances_no_positive; [reflexivity|].
  unfold ravel. apply Forall_concat. apply Forall_map.
  rewrite Forall_forall in H |- *. intros u Hu. apply Forall_map.
  apply Forall_forall. intros w Hw.
  rewrite (H u Hu), (H w Hw), euclidean_Fin, sqdist_self, sqrt_0.
  cbn [fgt flt]. apply Rltb_false. lra.
Qed.

Lemma gp_dim_coincident_points_witness :
  gp_dim [map Fin [1; 2]; map Fin [1; 2]; map Fin [1; 2]] None = Raise IndexError.
Proof.
  apply (gp_dim_coincident_points [1; 2]); [discriminate | discriminate |].
  repeat constructor.
Defined.

Lemma np_percentile_pair (r : R) (q : nat) :
  (q < 100)%nat -> np_percentile [Fin r; Fin r] q = Ok (Fin r).
Proof.
  intros Hq. unfold np_percentile. cbn [existsb is_nan orb].
  unfold np_sort. cbn [isort insert sort_leb fle].
  replace (Rleb r r) with true by (symmetry; apply Rleb_true; lra).
  cbn [length Nat.eqb Nat.sub]. rewrite Nat.mul_1_r.
  rewrite (Nat.div_small q 100 Hq).
  cbn [Nat.add Nat.min nth fsub fneg fadd fmul]. do 2 f_equal. ring.
Qed.

(** X12: two points are never enough.  For a trajectory of two points
    with finite coordinates the two positive distances are equal and none
    of them lies strictly above their 5th percentile, so the 50th
    percentile is asked of an empty array; when the two points coincide
    there is no positive distance at all.  Either way [gp_dim] raises
    [IndexError]. *)
Theorem gp_dim_two_points :
  forall (a b : list R),
    a <> [] ->
    length a = length b ->
    gp_dim [map Fin a; map Fin b] None = Raise IndexError.
Proof.
  intros a b _ Hlen. unfold gp_dim, cdist.
  cbn [ncols]. rewrite Nat.eqb_refl. cbn [rbind map ravel concat app].
  rewrite !euclidean_Fin, !sqdist_self, sqrt_0, (sqdist_sym b a).
  set (r := sqrt (sqdist a b)).
  assert (Hr : 0 <= r) by apply sqrt_pos.
  unfold truncate_distances. cbn [filter fgt flt].
  replace (Rltb 0 0) with false by (symmetry; apply Rltb_false; lra).
  destruct (Rltb 0 r) eqn:C.
  - rewrite (np_percentile_pair r 5) by lia.
    cbn [rbind filter fgt flt].
    replace (Rltb r r) with false by (symmetry; apply Rltb_false; lra).
    reflexivity.
  - reflexivity.
Qed.

Lemma gp_dim_two_points_witness :
  gp_dim [map Fin [0; 0]; map Fin [3; 4]] None = Raise IndexError.
Proof. apply (gp_dim_two_points [0; 0] [3; 4]); [discriminate | reflexivity]. Defined.

(** ** [mse_mv]: the multi-channel path *)

Lemma mse_mv_loop_all `{NK : Neurokit2} (f : list float64 -> float64)
    (channels : list (list float64)) (all_mse : list float64) :
  Forall (fun c => entropy_multiscale (Some c) 2 true true = Ok (f c)) channels ->
  mse_mv_loop channels all_mse =
  (map (fun c => EntropyCall (Some c)) channels, Ok (all_mse ++ map f channels)).
Proof.
  intros H. revert all_mse.
  induction H as [|c channels Hc _ IH]; intros all_mse; cbn [mse_mv_loop map].
  - rewrite app_nil_r. reflexivity.
  - unfold call_entropy_multiscale, bind. rewrite Hc, IH.
    cbn [app]. rewrite <- app_assoc. reflexivity.
Qed.

Lemma mse_mv_loop_raise `{NK : Neurokit2} (f : list float64 -> float64)
    (before after : list (list float64)) (c : list float64) (e : exn)
    (all_mse : list float64) :
  Forall (fun c => entropy_multiscale (Some c) 2 true true = Ok (f c)) before ->
  entropy_multiscale (Some c) 2 true true = Raise e ->
  mse_mv_loop (before ++ c :: after) all_mse =
  (map (fun c => EntropyCall (Some c)) (before ++ [c]), Raise e).
Proof.
  intros H Hc. revert all_mse.
  induction H as [|b before Hb _ IH]; intros all_mse; cbn [mse_mv_loop map app].
  - unfold call_entropy_multiscale, bind. rewrite Hc. reflexivity.
  - unfold call_entropy_multiscale, bind. rewrite Hb, IH. reflexivity.
Qed.

(** X13: on a two-dimensional trajectory, with the back end available and
    answering on every channel, [mse_mv] calls the back end exactly once
    per column of the standardized trajectory, in column order, and
    returns the median of the answers. *)
Theorem mse_mv_multichannel :
  forall (NK : Neurokit2) (ST : Standardize) (f : list float64 -> float64)
         (rows : list (list float64)),
    let channels := columns NaN (standardize_ts rows) in
    Forall (fun c => entropy_multiscale (Some c) 2 true true = Ok (f c)) channels ->
    mse_mv {| has_neurokit := true |} (Arr2 rows) =
    (map (fun c => EntropyCall (Some c)) channels, Ok (np_median (map f channels))).
Proof.
  intros NK ST f rows channels H. unfold mse_mv. cbn [has_neurokit negb].
  fold channels. rewrite (mse_mv_loop_all f channels [] H).
  unfold bind, ret. cbn [app]. rewrite app_nil_r. reflexivity.
Qed.

Lemma mse_mv_multichannel_witness :
  @mse_mv strict_backend identity_standardize {| has_neurokit := true |}
          (Arr2 [[Fin 0; Fin 5]; [Fin 1; Fin 6]])
  = ([EntropyCall (Some [Fin 0; Fin 1]); EntropyCall (Some [Fin 5; Fin 6])],
     Ok (np_median [Fin (INR 2); Fin (INR 2)])).
Proof.
  apply (mse_mv_multichannel strict_backend identity_standardize
           (fun a => Fin (INR (length a))) [[Fin 0; Fin 5]; [Fin 1; Fin 6]]).
  repeat constructor.
Defined.

(** X14: when the back end raises on a channel, [mse_mv] raises the same
    exception; the channels before it were each submitted once, the
    failing one is the last call, and no later channel is submitted. *)
Theorem mse_mv_channel_failure :
  forall (NK : Neurokit2) (ST : Standardize) (f : list float64 -> float64)
         (rows : list (list float64)) (before after : list (list float64))
         (c : list float64) (e : exn),
    columns NaN (standardize_ts rows) = before ++ c :: after ->
    Forall (fun c => entropy_multiscale (Some c) 2 true true = Ok (f c)) before ->
    entropy_multiscale (Some c) 2 true true = Raise e ->
    mse_mv {| has_neurokit := true |} (Arr2 rows) =
    (map (fun c => EntropyCall (Some c)) (before ++ [c]), Raise e).
Proof.
  intros NK ST f rows before after c e E H Hc. unfold mse_mv. cbn [has_neurokit negb].
  rewrite E, (mse_mv_loop_raise f before after c e [] H Hc). reflexivity.
Qed.

Lemma mse_mv_channel_failure_witness :
  @mse_mv nan_rejecting_backend identity_standardize {| has_neurokit := true |}
          (Arr2 [[Fin 0; NaN; Fin 3]; [Fin 1; Fin 2; Fin 4]])
  = ([EntropyCall (Some [Fin 0; Fin 1]); EntropyCall (Some [NaN; Fin 2])],
     Raise ValueError).
Proof.
  apply (mse_mv_channel_failure nan_rejecting_backend identity_standardize
           (fun a => Fin (INR (length a)))
           [[Fin 0; NaN; Fin 3]; [Fin 1; Fin 2; Fin 4]]
           [[Fin 0; Fin 1]] [[Fin 3; Fin 4]] [NaN; Fin 2] ValueError).
  - reflexivity.
  - repeat constructor.
  - reflexivity.
Defined.

(** ** [pca]: range and monotonicity *)

Lemma first_true_bound (mask : list bool) (k : nat) :
  first_true mask = Some k -> (k < length mask)%nat.
Proof. intros H. apply first_true_Some in H. apply H. Qed.



Lemma fge_weaken (c : float64) (t1 t2 : R) :
  t1 <= t2 -> fge c (Fin t2) = true -> fge c (Fin t1) = true.
Proof.
  intros Ht. destruct c as [x| | |]; cbn; try (intros; assumption).
  intros H. apply Rleb_true in H. apply Rleb_true. lra.
Qed.



(** ** [find_lyapunov_exponents]: failure paths *)

Lemma rfold_app {S A : Type} (f : S -> A -> result S) (l1 l2 : list A) (s : S) :
  rfold f (l1 ++ l2) s = rbind (rfold f l1 s) (rfold f l2).
Proof.
  revert s. induction l1 as [|a l1 IH]; intros s; cbn [app rfold rbind]; [reflexivity|].
  destruct (f s a); cbn [rbind]; [apply IH | reflexivity].
Qed.

Lemma combine_seq_app {A : Type} (i : nat) (l1 l2 : list A) :
  combine (seq i (length (l1 ++ l2))) (l1 ++ l2) =
  combine (seq i (length l1)) l1 ++ combine (seq (i + length l1) (length l2)) l2.
Proof.
  revert i. induction l1 as [|a l1 IH]; intros i; cbn [app length seq combine].
  - rewrite Nat.add_0_r. reflexivity.
  - rewrite IH. replace (S i + length l1)%nat with (i + S (length l1))%nat by lia.
    reflexivity.
Qed.

Lemma lyap_body_raise `{LA : LinAlg} (model : Model) (d : nat) (dt tol : float64)
    (min_tpts : Z) (st : lyap_state) (i : nat) (p : float64 * list float64) (e : exn) :
  (1 <= i)%nat ->
  euler_matrix model d dt p = Raise e ->
  lyap_body model d dt tol min_tpts st (i, p) = Raise e.
Proof.
  intros Hi E. destruct p as [t X]. unfold euler_matrix in E. cbn [fst snd] in E.
  unfold lyap_body. destruct (jacobian model t X) as [jacval|e']; cbn [rbind] in E |- *.
  - replace (i <? 1)%nat with false by (symmetry; apply Nat.ltb_ge; exact Hi).
    rewrite E. reflexivity.
  - injection E as ->. reflexivity.
Qed.

(** X17: a trajectory of at most one point yields no spectrum.  When the
    Jacobian can be evaluated at its point, nothing is recorded, the
    column sum is a scalar and [find_lyapunov_exponents] raises
    [AxisError]. *)
Theorem find_lyapunov_exponents_short_trajectory :
  forall (LA : LinAlg) (model : Model) (traj_length0 pts_per_period : Z)
         (tol : float64) (min_tpts : Z)
         (tpts : list float64) (traj : list (list float64)),
    make_trajectory model traj_length0 pts_per_period = (tpts, traj) ->
    (length (combine tpts traj) <= 1)%nat ->
    (forall p, In p (combine tpts traj) ->
               exists j0, jacobian model (fst p) (snd p) = Ok j0) ->
    find_lyapunov_exponents model traj_length0 pts_per_period tol min_tpts
    = Raise AxisError.
Proof.
  intros LA model traj_length0 pts_per_period tol min_tpts tpts traj Htraj Hlen Hjac.
  unfold find_lyapunov_exponents. rewrite Htraj. unfold enumerate.
  destruct (combine tpts traj) as [|[t0 X0] [|p1 rest]].
  - reflexivity.
  - destruct (Hjac (t0, X0) (or_introl eq_refl)) as [j0 Hj0]. cbn [fst snd] in Hj0.
    cbn [length seq combine rfold]. unfold lyap_body. rewrite Hj0. reflexivity.
  - cbn [length] in Hlen. lia.
Qed.

Lemma find_lyapunov_exponents_short_trajectory_witness :
  @find_lyapunov_exponents scalar_linalg
    (@Build_Model scalar_linalg [Fin 1] (fun _ _ => ([Fin 0], [[Fin 1]]))
       (fun x _ => map fneg x) (Some (fun _ _ => Fin (-1))) None)
    1 500 (Fin (1 / 100000000)) 10
  = Raise AxisError.
Proof.
  apply (find_lyapunov_exponents_short_trajectory scalar_linalg _ 1 500
           (Fin (1 / 100000000)) 10 [Fin 0] [[Fin 1]]).
  - reflexivity.
  - cbn [combine length]. lia.
  - intros p _. eexists. reflexivity.
Defined.

(** X18: the first backward Euler step that cannot be taken decides the
    outcome.  When the Jacobian or the inversion of [I - J dt] raises at a
    point after the first one, every earlier step having succeeded,
    [find_lyapunov_exponents] raises that exception, whatever follows. *)
Theorem find_lyapunov_exponents_step_failure :
  forall (LA : LinAlg) (model : Model) (traj_length0 pts_per_period : Z)
         (tol : float64) (min_tpts : Z)
         (tpts : list float64) (traj : list (list float64))
         (p0 p : float64 * list float64)
         (before after : list (float64 * list float64)) (e : exn),
    let d := length (ic model) in
    let dt := np_median (np_diff tpts) in
    (1 <= d)%nat ->
    (forall m, length (diagonal (snd (qr m))) = d) ->
    make_trajectory model traj_length0 pts_per_period = (tpts, traj) ->
    combine tpts traj = p0 :: before ++ p :: after ->
    (exists j0, jacobian model (fst p0) (snd p0) = Ok j0) ->
    Forall (fun q => exists m, euler_matrix model d dt q = Ok m) before ->
    euler_matrix model d dt p = Raise e ->
    find_lyapunov_exponents model traj_length0 pts_per_period tol min_tpts = Raise e.
Proof.
  intros LA model traj_length0 pts_per_period tol min_tpts tpts traj p0 p before after e
         d dt Hd Hdiag Htraj Hpts [j0 Hj0] Hbefore Hp.
  destruct (Forall_exists_Forall2 _ _ Hbefore) as [ms Hms].
  unfold find_lyapunov_exponents. rewrite Htraj. fold d dt.
  unfold enumerate. rewrite Hpts. cbn [length seq combine rfold].
  unfold lyap_body at 1. destruct p0 as [t0 X0]. cbn [fst snd] in Hj0.
  rewrite Hj0. cbn [rbind Nat.ltb Nat.leb].
  rewrite combine_seq_app, rfold_app.
  destruct (lyap_loop model d dt tol min_tpts Hdiag Hd before ms Hms 1%nat
              {| u := np_identity d; all_lyap := []; traj_length := traj_length0 |}
              (le_n 1)) as [q Hq].
  rewrite Hq. cbn [rbind length seq combine rfold].
  rewrite (lyap_body_raise model d dt tol min_tpts _ _ p e); [reflexivity | lia | exact Hp].
Qed.

Lemma find_lyapunov_exponents_step_failure_witness :
  @find_lyapunov_exponents scalar_linalg
    (@Build_Model scalar_linalg [Fin 1]
       (fun _ _ => ([Fin 0; Fin 1; Fin 2], [[Fin 1]; [Fin 1]; [Fin 1]]))
       (fun x _ => x) (Some (fun _ _ => Fin 1)) None)
    3 500 (Fin (1 / 100000000)) 10
  = Raise LinAlgError.
Proof.
  apply (find_lyapunov_exponents_step_failure scalar_linalg _ 3 500
           (Fin (1 / 100000000)) 10 [Fin 0; Fin 1; Fin 2] [[Fin 1]; [Fin 1]; [Fin 1]]
           (Fin 0, [Fin 1]) (Fin 1, [Fin 1]) [] [(Fin 2, [Fin 1])] LinAlgError).
  - cbn. lia.
  - intros m. reflexivity.
  - reflexivity.
  - reflexivity.
  - eexists. reflexivity.
  - constructor.
  - unfold euler_matrix, np_median. np_eval. reflexivity.
Defined.

(** * Lotka-Volterra systems *)

(** ** Loops over the generator *)

Lemma for_seq_inv `{Rng} {S : Type} (P : nat -> S -> Prop)
    (body : nat -> S -> rand S) (i k : nat) :
  (forall j s st, (i <= j < i + k)%nat -> P j s ->
                  exists s' st', body j s st = Ok (s', st') /\ P (Datatypes.S j) s') ->
  forall s st, P i s ->
               exists sf stf, for_each (seq i k) s body st = Ok (sf, stf) /\ P (i + k)%nat sf.
Proof.
  revert i. induction k as [|k IH]; intros i Hbody s st Hs.
  - exists s, st. cbn [seq for_each]. rewrite Nat.add_0_r. split; [reflexivity | exact Hs].
  - cbn [seq for_each]. unfold rand_bind.
    destruct (Hbody i s st ltac:(lia) Hs) as [s' [st' [E Hs']]]. rewrite E.
    destruct (IH (Datatypes.S i)
                 (fun j s0 st0 Hj => Hbody j s0 st0 ltac:(lia)) s' st' Hs')
      as [sf [stf [Ef Hf]]].
    exists sf, stf. split; [exact Ef|].
    replace (i + Datatypes.S k)%nat with (Datatypes.S i + k)%nat by lia. exact Hf.
Qed.

Lemma for_range_inv `{Rng} {S : Type} (P : nat -> S -> Prop)
    (body : nat -> S -> rand S) (n : nat) :
  (forall j s st, (j < n)%nat -> P j s ->
                  exists s' st', body j s st = Ok (s', st') /\ P (Datatypes.S j) s') ->
  forall s st, P 0%nat s ->
               exists sf stf, for_range n s body st = Ok (sf, stf) /\ P n sf.
Proof.
  intros Hbody s st Hs. unfold for_range.
  apply (for_seq_inv P body 0 n); [|exact Hs].
  intros j s0 st0 Hj. apply Hbody. lia.
Qed.

(** ** [int] *)

Lemma Int_part_le (x : R) : IZR (Int_part x) <= x.
Proof. destruct (base_Int_part x) as [H _]. exact H. Qed.

Lemma Int_part_nonneg (x : R) : 0 <= x -> (0 <= Int_part x)%Z.
Proof.
  intros Hx. destruct (base_Int_part x) as [_ H].
  assert (H1 : (-1 < Int_part x)%Z) by (apply lt_IZR; lra). lia.
Qed.

Lemma py_int_upper (x : R) : IZR (py_int x) <= Rmax 0 x.
Proof.
  unfold py_int. destruct (Rle_dec 0 x) as [Hx|Hx].
  - rewrite Rmax_right by exact Hx. apply Int_part_le.
  - rewrite Rmax_left by lra.
    assert (H : (0 <= Int_part (- x))%Z) by (apply Int_part_nonneg; lra).
    apply IZR_le in H. rewrite opp_IZR. lra.
Qed.

Lemma uniform_range `{Rng} (low high : R) (st : rng_state) :
  unit_draws -> low <= high ->
  exists x st', uniform low high st = Ok (x, st') /\ low <= x <= high.
Proof.
  intros U Hlh. unfold uniform. specialize (U st).
  destruct (random_sample st) as [d st']. cbn [fst] in U.
  exists (low + (high - low) * d), st'. split; [reflexivity|]. nra.
Qed.

Lemma clamp_bounds (x hi : R) :
  x <= hi -> (1 <= Z.max 1 (py_int x))%Z /\ IZR (Z.max 1 (py_int x)) <= Rmax 1 hi.
Proof.
  intros Hx. split; [lia|].
  pose proof (py_int_upper x) as Hu.
  assert (Hm : Rmax 0 x <= Rmax 1 hi).
  { apply Rmax_lub.
    - eapply Rle_trans; [|apply Rmax_l]. lra.
    - eapply Rle_trans; [exact Hx | apply Rmax_r]. }
  destruct (Z.max_spec 1 (py_int x)) as [[_ E]|[_ E]]; rewrite E.
  - lra.
  - apply Rmax_l.
Qed.

(** ** [make_init_conds] *)

Lemma index_Ok {A : Type} (l : list A) (i : nat) (d : A) :
  (i < length l)%nat -> index l i = Ok (nth i l d).
Proof.
  intros H. unfold index. rewrite (nth_error_nth' l d H). reflexivity.
Qed.

Lemma nth_app_last {A : Type} (l : list A) (a d : A) (s : nat) :
  (s <= length l)%nat ->
  nth s (l ++ [a]) d = if Nat.eqb s (length l) then a else nth s l d.
Proof.
  intros H. destruct (Nat.eqb s (length l)) eqn:E.
  - apply Nat.eqb_eq in E. subst s. rewrite app_nth2 by lia.
    rewrite Nat.sub_diag. reflexivity.
  - apply Nat.eqb_neq in E. apply app_nth1. lia.
Qed.

(** The loop over the species, for any way of drawing a number. *)
Lemma species_loop `{Rng} (n : nat) (Hyp : Prop) (B : nat -> R)
    (body : nat -> list Z -> rand (list Z)) :
  (forall s temp st, (s < n)%nat ->
     exists x st', body s temp st = Ok (temp ++ [Z.max 1 (py_int x)], st') /\
                   (Hyp -> x <= B s)) ->
  forall st,
  exists temp st',
    for_range n [] body st = Ok (temp, st') /\
    length temp = n /\
    Forall (fun number => (1 <= number)%Z) temp /\
    (Hyp -> forall s, (s < n)%nat -> IZR (nth s temp 0%Z) <= Rmax 1 (B s)).
Proof.
  intros Hbody st.
  apply (for_range_inv
           (fun s (temp : list Z) =>
              length temp = s /\
              Forall (fun number => (1 <= number)%Z) temp /\
              (Hyp -> forall i, (i < s)%nat -> IZR (nth i temp 0%Z) <= Rmax 1 (B i)))).
  - intros s temp st1 Hs [Lt [Pt Bt]].
    destruct (Hbody s temp st1 Hs) as [x [st2 [E Hx]]].
    exists (temp ++ [Z.max 1 (py_int x)]), st2. split; [exact E|].
    split; [rewrite length_app; cbn [length]; lia|]. split.
    + apply Forall_app. split; [exact Pt|]. constructor; [lia | constructor].
    + intros HH i Hi. rewrite nth_app_last by lia.
      destruct (Nat.eqb i (length temp)) eqn:Ei.
      * apply Nat.eqb_eq in Ei. rewrite Ei, Lt. apply clamp_bounds, Hx, HH.
      * apply Nat.eqb_neq in Ei. apply Bt; [exact HH | lia].
  - split; [reflexivity|]. split; [constructor|]. intros _ i Hi. lia.
Qed.

(** The loop over the initial conditions. *)
Lemma conds_loop `{Rng} (n : nat) (good : list Z -> Prop)
    (body : nat -> list (list Z) -> rand (list (list Z))) :
  (forall j x0 st, exists temp st', body j x0 st = Ok (x0 ++ [temp], st') /\ good temp) ->
  forall st,
  exists x0 st',
    for_range n [] body st = Ok (x0, st') /\ length x0 = n /\ Forall good x0.
Proof.
  intros Hbody st.
  apply (for_range_inv (fun j (x0 : list (list Z)) => length x0 = j /\ Forall good x0)).
  - intros j x0 st0 _ [Lx Gx].
    destruct (Hbody j x0 st0) as [temp [st1 [E Gt]]].
    exists (x0 ++ [temp]), st1. split; [exact E|].
    split; [rewrite length_app; cbn [length]; lia|].
    apply Forall_app. split; [exact Gx|]. constructor; [exact Gt | constructor].
  - split; [reflexivity | constructor].
Qed.

Lemma uniform_scaled `{Rng} (lo hi k : R) (st : rng_state) :
  exists x st', uniform (lo * k) (hi * k) st = Ok (x, st') /\
                (unit_draws /\ lo <= hi /\ 0 <= k -> x <= hi * k).
Proof.
  unfold uniform. destruct (random_sample st) as [d st'] eqn:Ed.
  exists (lo * k + (hi * k - lo * k) * d), st'. split; [reflexivity|].
  intros [U [Hr Hk]]. specialize (U st). rewrite Ed in U. cbn [fst] in U.
  assert (Hw : 0 <= (hi - lo) * k) by (apply Rmult_le_pos; lra).
  assert (Hv : 0 <= (hi - lo) * k * (1 - d)) by (apply Rmult_le_pos; lra).
  lra.
Qed.

(** X19: [CompetitiveLVSystem.make_init_conds] returns [n] initial
    conditions (none when [n] is negative) of [latent_dim] integer
    populations each, and no population is below 1, whatever the
    generator produces; with draws in [0, 1), non-negative carrying
    capacities and an increasing range, the population of species [s] is
    at most [max(1, hi * K[s])], [hi] being the upper end of the range in
    use. *)
Theorem competitive_make_init_conds_populations :
  forall (RNG : Rng) (latent_dim : nat) (K : list R) (IND_range OOD_range : R * R)
         (n : Z) (in_dist : bool) (st : rng_state),
    length K = latent_dim ->
    let range := if in_dist then IND_range else OOD_range in
    exists x0 st',
      competitive_make_init_conds latent_dim K IND_range OOD_range n in_dist st
      = Ok (x0, st') /\
      length x0 = Z.to_nat n /\
      Forall (fun temp =>
                length temp = latent_dim /\
                Forall (fun number => (1 <= number)%Z) temp /\
                (unit_draws /\ fst range <= snd range /\ Forall (fun k => 0 <= k) K ->
                 forall s, (s < latent_dim)%nat ->
                           IZR (nth s temp 0%Z) <= Rmax 1 (snd range * nth s K 0)))
             x0.
Proof.
  intros RNG latent_dim K IND_range OOD_range n in_dist st HK range.
  unfold competitive_make_init_conds.
  apply conds_loop. intros j x0 st0. unfold rand_bind at 1.
  destruct (species_loop latent_dim
              (unit_draws /\ fst range <= snd range /\ Forall (fun k => 0 <= k) K)
              (fun s => snd range * nth s K 0)
              (fun s temp =>
                 Ks <~ rlift (index K s) ;;
                 number <~ (if in_dist
                            then uniform (fst IND_range * Ks) (snd IND_range * Ks)
                            else uniform (fst OOD_range * Ks) (snd OOD_range * Ks)) ;;
                 rret (temp ++ [Z.max 1 (py_int number)]))) with (st := st0)
    as [temp [st1 [E G]]].
  - intros s temp st1 Hs. unfold rand_bind, rlift.
    rewrite (index_Ok K s 0) by lia.
    assert (Hu : exists x st2,
               uniform (fst range * nth s K 0) (snd range * nth s K 0) st1 = Ok (x, st2) /\
               (unit_draws /\ fst range <= snd range /\ 0 <= nth s K 0 ->
                x <= snd range * nth s K 0)) by apply uniform_scaled.
    destruct Hu as [x [st2 [Eu Hx]]].
    exists x, st2. split.
    + unfold range in Eu. destruct in_dist; rewrite Eu; reflexivity.
    + intros [U [Hr HKpos]]. apply Hx. split; [exact U|]. split; [exact Hr|].
      rewrite Forall_forall in HKpos. apply HKpos, nth_In. lia.
  - rewrite E. exists temp, st1. split; [reflexivity | exact G].
Qed.

Lemma competitive_make_init_conds_populations_witness :
  exists x0 st',
    @competitive_make_init_conds constant_rng 2 [4; 8] (1 / 10, 1 / 2) (1 / 2, 9 / 10) 3 true
                                 0%nat
    = Ok (x0, st') /\ length x0 = 3%nat.
Proof.
  destruct (competitive_make_init_conds_populations constant_rng 2 [4; 8]
              (1 / 10, 1 / 2) (1 / 2, 9 / 10) 3 true 0%nat eq_refl)
    as [x0 [st' [E [L _]]]].
  exists x0, st'. split; [exact E | exact L].
Defined.

(** X20: [PreyPredatorSystem.make_init_conds] returns [n] initial
    conditions of [latent_dim] integer populations each, none below 1;
    with draws in [0, 1), a non-negative [maxK] and an increasing range,
    every population is at most [max(1, hi * maxK)]. *)
Theorem prey_predator_make_init_conds_populations :
  forall (RNG : Rng) (latent_dim : nat) (maxK : R) (IND_range OOD_range : R * R)
         (n : Z) (in_dist : bool) (st : rng_state),
    let range := if in_dist then IND_range else OOD_range in
    exists x0 st',
      prey_predator_make_init_conds latent_dim maxK IND_range OOD_range n in_dist st
      = Ok (x0, st') /\
      length x0 = Z.to_nat n /\
      Forall (fun temp =>
                length temp = latent_dim /\
                Forall (fun number => (1 <= number)%Z) temp /\
                (unit_draws /\ fst range <= snd range /\ 0 <= maxK ->
                 forall s, (s < latent_dim)%nat ->
                           IZR (nth s temp 0%Z) <= Rmax 1 (snd range * maxK)))
             x0.
Proof.
  intros RNG latent_dim maxK IND_range OOD_range n in_dist st range.
  unfold prey_predator_make_init_conds.
  apply conds_loop. intros j x0 st0. unfold rand_bind at 1.
  destruct (species_loop latent_dim
              (unit_draws /\ fst range <= snd range /\ 0 <= maxK)
              (fun _ => snd range * maxK)
              (fun (s : nat) temp =>
                 number <~ (if in_dist
                            then uniform (fst IND_range * maxK) (snd IND_range * maxK)
                            else uniform (fst OOD_range * maxK) (snd OOD_range * maxK)) ;;
                 rret (temp ++ [Z.max 1 (py_int number)]))) with (st := st0)
    as [temp [st1 [E G]]].
  - intros s temp st1 Hs. unfold rand_bind.
    destruct (uniform_scaled (fst range) (snd range) maxK st1) as [x [st2 [Eu Hx]]].
    exists x, st2. split.
    + unfold range in Eu. destruct in_dist; rewrite Eu; reflexivity.
    + exact Hx.
  - rewrite E. exists temp, st1. split; [reflexivity | exact G].
Qed.

Lemma prey_predator_make_init_conds_populations_witness :
  exists x0 st',
    @prey_predator_make_init_conds constant_rng 2 10 (1 / 10, 1 / 2) (1 / 2, 9 / 10) 3 false
                                   0%nat
    = Ok (x0, st') /\ length x0 = 3%nat.
Proof.
  destruct (prey_predator_make_init_conds_populations constant_rng 2 10
              (1 / 10, 1 / 2) (1 / 2, 9 / 10) 3 false 0%nat)
    as [x0 [st' [E [L _]]]].
  exists x0, st'. split; [exact E | exact L].
Defined.

(** ** Loops that append one element per iteration *)

Lemma append_loop `{Rng} {A : Type} (n : nat) (Q : nat -> A -> Prop)
    (body : nat -> list A -> rand (list A)) :
  (forall i acc st, (i < n)%nat ->
     exists a st', body i acc st = Ok (acc ++ [a], st') /\ Q i a) ->
  forall st,
  exists l st',
    for_range n [] body st = Ok (l, st') /\
    length l = n /\
    forall i d, (i < n)%nat -> Q i (nth i l d).
Proof.
  intros Hbody st.
  apply (for_range_inv
           (fun k (l : list A) =>
              length l = k /\ forall i d, (i < k)%nat -> Q i (nth i l d))).
  - intros k acc st1 Hk [La Qa].
    destruct (Hbody k acc st1 Hk) as [a [st2 [E Ha]]].
    exists (acc ++ [a]), st2. split; [exact E|].
    split; [rewrite length_app; cbn [length]; lia|].
    intros i d Hi. rewrite nth_app_last by lia.
    destruct (Nat.eqb i (length acc)) eqn:Ei.
    + apply Nat.eqb_eq in Ei. rewrite Ei, La. exact Ha.
    + apply Nat.eqb_neq in Ei. apply Qa. lia.
  - split; [reflexivity|]. intros i d Hi. lia.
Qed.

(** ** [_make_K] and [_make_R] of the prey-predator system *)

(** X21: [PreyPredatorSystem._make_K] returns one carrying capacity per
    species; with draws in [0, 1) and [0 <= minK <= maxK], the capacity of
    a prey lies in [[minK, 2 maxK]] and that of a predator in
    [[minK, maxK]], so every capacity is positive when [minK] is. *)
Theorem prey_predator_make_K_range :
  forall (RNG : Rng) (latent_dim : nat) (nPrey : Z) (minK maxK : R) (st : rng_state),
    unit_draws -> 0 <= minK <= maxK ->
    exists K st',
      prey_predator_make_K latent_dim nPrey minK maxK st = Ok (K, st') /\
      length K = latent_dim /\
      forall i, (i < latent_dim)%nat ->
        minK <= nth i K 0 <=
        (if (Z.of_nat i <? nPrey)%Z then maxK * 2 else maxK).
Proof.
  intros RNG latent_dim nPrey minK maxK st U Hk.
  destruct (append_loop latent_dim
              (fun i k => minK <= k <= (if (Z.of_nat i <? nPrey)%Z then maxK * 2 else maxK))
              (fun i K =>
                 k <~ (if (Z.of_nat i <? nPrey)%Z
                       then uniform minK (maxK * 2)
                       else uniform minK maxK) ;;
                 rret (K ++ [k]))) with (st := st) as [K [st' [E [L Q]]]].
  - intros i acc st1 Hi. unfold rand_bind.
    destruct (Z.of_nat i <? nPrey)%Z.
    + destruct (uniform_range minK (maxK * 2) st1 U ltac:(lra)) as [x [st2 [Eu Hx]]].
      rewrite Eu. exists x, st2. split; [reflexivity | exact Hx].
    + destruct (uniform_range minK maxK st1 U ltac:(lra)) as [x [st2 [Eu Hx]]].
      rewrite Eu. exists x, st2. split; [reflexivity | exact Hx].
  - exists K, st'. split; [exact E|]. split; [exact L|].
    intros i Hi. apply Q, Hi.
Qed.

(** X22: [PreyPredatorSystem._make_R] returns one growth rate per
    species, non-negative for the first [nPrey] species and non-positive
    for the others, whatever the generator produces. *)
Theorem prey_predator_make_R_signs :
  forall (RNG : Rng) (latent_dim : nat) (nPrey : Z) (st : rng_state),
    exists R st',
      prey_predator_make_R latent_dim nPrey st = Ok (R, st') /\
      length R = latent_dim /\
      forall i, (i < latent_dim)%nat ->
        if (Z.of_nat i <? nPrey)%Z then 0 <= nth i R 0 else nth i R 0 <= 0.
Proof.
  intros RNG latent_dim nPrey st.
  destruct (append_loop latent_dim
              (fun i r => if (Z.of_nat i <? nPrey)%Z then 0 <= r else r <= 0)
              (fun i R =>
                 r <~ normal 0 (1 / 2) ;;
                 rret (R ++ [if (Z.of_nat i <? nPrey)%Z then Rabs r else -1 * Rabs r])))
    with (st := st) as [R [st' [E [L Q]]]].
  - intros i acc st1 Hi. unfold rand_bind, normal.
    destruct (standard_normal st1) as [x st2].
    eexists _, st2. split; [reflexivity|].
    pose proof (Rabs_pos (0 + 1 / 2 * x)).
    destruct (Z.of_nat i <? nPrey)%Z; lra.
  - exists R, st'. split; [exact E|]. split; [exact L|].
    intros i Hi. apply Q, Hi.
Qed.

Lemma prey_predator_make_K_range_witness :
  exists K st',
    @prey_predator_make_K constant_rng 3 1 1 10 0%nat = Ok (K, st') /\
    length K = 3%nat.
Proof.
  destruct (prey_predator_make_K_range constant_rng 3 1 1 10 0%nat)
    as [K [st' [E [L _]]]].
  - intros st. cbn. lra.
  - lra.
  - exists K, st'. split; [exact E | exact L].
Defined.

(** ** The competitive interaction matrix *)

Lemma normal_matrix_shape `{Rng} (loc scale : R) (rows cols : nat) (st : rng_state) :
  exists G st',
    normal_matrix loc scale rows cols st = Ok (G, st') /\
    length G = rows /\
    forall a, (a < rows)%nat -> length (nth a G []) = cols.
Proof.
  destruct (append_loop rows (fun _ (row : list R) => length row = cols)
              (fun (_ : nat) M =>
                 row <~ for_range cols [] (fun _ row =>
                          x <~ normal loc scale ;; rret (row ++ [x])) ;;
                 rret (M ++ [row]))) with (st := st) as [G [st' [E [L Q]]]].
  - intros i acc st1 _. unfold rand_bind at 1.
    destruct (append_loop cols (fun _ (_ : R) => True)
                (fun (_ : nat) row => x <~ normal loc scale ;; rret (row ++ [x])))
      with (st := st1) as [row [st2 [Er [Lr _]]]].
    + intros j r st2 _. unfold rand_bind, normal.
      destruct (standard_normal st2) as [x st3]. eexists _, st3. split; [reflexivity | exact I].
    + rewrite Er. exists row, st2. split; [reflexivity | exact Lr].
  - exists G, st'. split; [exact E|]. split; [exact L|]. intros a Ha. apply Q, Ha.
Qed.

Lemma set_nth_spec {A : Type} (l : list A) (i : nat) (v : A) :
  (i < length l)%nat ->
  exists l', set_nth l i v = Ok l' /\
             length l' = length l /\
             forall k d, nth k l' d = if Nat.eqb k i then v else nth k l d.
Proof.
  intros Hi. unfold set_nth.
  replace (i <? length l)%nat with true by (symmetry; apply Nat.ltb_lt; exact Hi).
  eexists. split; [reflexivity|]. split.
  - rewrite length_app, length_firstn. cbn [length]. rewrite length_skipn. lia.
  - intros k d. destruct (Nat.eqb k i) eqn:E.
    + apply Nat.eqb_eq in E. subst k.
      rewrite app_nth2 by (rewrite length_firstn; lia).
      rewrite length_firstn. replace (i - Nat.min i (length l))%nat with 0%nat by lia.
      reflexivity.
    + apply Nat.eqb_neq in E.
      destruct (Nat.lt_ge_cases k i) as [Hk|Hk].
      * rewrite app_nth1 by (rewrite length_firstn; lia).
        rewrite nth_firstn. replace (k <? i)%nat with true
          by (symmetry; apply Nat.ltb_lt; exact Hk). reflexivity.
      * rewrite app_nth2 by (rewrite length_firstn; lia).
        rewrite length_firstn. replace (Nat.min i (length l)) with i by lia.
        destruct (k - i)%nat as [|m] eqn:Em; [lia|].
        cbn [nth]. rewrite nth_skipn. f_equal. lia.
Qed.

Lemma set2_spec (M : list (list R)) (n i j : nat) (v : R) :
  square n M -> (i < n)%nat -> (j < n)%nat ->
  exists M', set2 M i j v = Ok M' /\
             square n M' /\
             forall a b, entry M' a b
                         = if (Nat.eqb a i && Nat.eqb b j)%bool then v else entry M a b.
Proof.
  intros [LM RM] Hi Hj. unfold set2.
  rewrite (index_Ok M i []) by lia. cbn [rbind].
  destruct (set_nth_spec (nth i M []) j v) as [row' [E1 [L1 N1]]];
    [rewrite RM by lia; lia|].
  rewrite E1. cbn [rbind].
  destruct (set_nth_spec M i row') as [M' [E2 [L2 N2]]]; [lia|].
  exists M'. split; [exact E2|]. split.
  - split; [lia|]. intros a Ha. rewrite N2.
    destruct (Nat.eqb a i); [rewrite L1; apply RM; lia | apply RM; lia].
  - intros a b. unfold entry. rewrite N2.
    destruct (Nat.eqb a i) eqn:Ea; cbn [andb]; [|reflexivity].
    rewrite N1. apply Nat.eqb_eq in Ea. subst a. reflexivity.
Qed.

(** The two nested loops write 1 on the diagonal and nothing else. *)
Lemma diagonal_loops `{Rng} (n : nat) (A0 : list (list R)) (st : rng_state) :
  square n A0 ->
  (forall a b, (a < n)%nat -> (b < n)%nat -> 0 <= entry A0 a b) ->
  exists A st',
    for_range n A0 (fun i A =>
      for_range n A (fun j A =>
        if Nat.eqb i j then rlift (set2 A i j 1) else rret A)) st = Ok (A, st') /\
    square n A /\
    (forall a b, (a < n)%nat -> (b < n)%nat -> 0 <= entry A a b) /\
    (forall a, (a < n)%nat -> entry A a a = 1).
Proof.
  intros S0 N0.
  destruct (for_range_inv
              (fun i (sA : list (list R)) =>
                 square n sA /\
                 (forall a b, (a < n)%nat -> (b < n)%nat -> 0 <= entry sA a b) /\
                 (forall a, (a < i)%nat -> entry sA a a = 1))
              (fun i A =>
                 for_range n A (fun j A =>
                   if Nat.eqb i j then rlift (set2 A i j 1) else rret A))
              n) with (s := A0) (st := st) as [A [st' [E [SA [NA DA]]]]].
  - intros i A st1 Hi [SA [NA DA]].
    destruct (for_range_inv
                (fun j (sA : list (list R)) =>
                   square n sA /\
                   (forall a b, (a < n)%nat -> (b < n)%nat -> 0 <= entry sA a b) /\
                   (forall a, ((a < i) \/ (a = i /\ a < j))%nat -> entry sA a a = 1))
                (fun j A => if Nat.eqb i j then rlift (set2 A i j 1) else rret A)
                n) with (s := A) (st := st1) as [A' [st2 [E' [SA' [NA' DA']]]]].
    + intros j B st2 Hj [SB [NB DB]].
      destruct (Nat.eqb i j) eqn:Eij.
      * apply Nat.eqb_eq in Eij. subst j.
        destruct (set2_spec B n i i 1 SB Hi Hi) as [B' [Es [SB' EB']]].
        unfold rlift. rewrite Es. exists B', st2. split; [reflexivity|].
        split; [exact SB'|]. split.
        -- intros a b Ha Hb. rewrite EB'.
           destruct (Nat.eqb a i && Nat.eqb b i)%bool; [lra | apply NB; assumption].
        -- intros a Ha. rewrite EB'.
           destruct (Nat.eqb a i) eqn:Ea; cbn [andb]; [reflexivity|].
           apply Nat.eqb_neq in Ea. apply DB. lia.
      * apply Nat.eqb_neq in Eij. exists B, st2. split; [reflexivity|].
        split; [exact SB|]. split; [exact NB|].
        intros a Ha. apply DB. lia.
    + split; [exact SA|]. split; [exact NA|]. intros a Ha. apply DA. lia.
    + exists A', st2. split; [exact E'|]. split; [exact SA'|]. split; [exact NA'|].
      intros a Ha. apply DA'. lia.
  - split; [exact S0|]. split; [exact N0|]. intros a Ha. lia.
  - exists A, st'. split; [exact E|]. split; [exact SA|]. split; [exact NA | exact DA].
Qed.

Lemma divide_columns_spec (n : nat) (A : list (list R)) (K : list R) :
  square n A -> length K = n ->
  exists Q, divide_columns A K = Ok Q /\
            length Q = n /\
            forall i j, (i < n)%nat -> (j < n)%nat ->
              length (nth i Q []) = n /\
              nth j (nth i Q []) NaN = fdiv (Fin (entry A i j)) (Fin (nth j K 0)).
Proof.
  intros [LA RA] LK. unfold divide_columns.
  replace (forallb (fun row => Nat.eqb (length row) (length K)) A) with true.
  2:{ symmetry. apply forallb_forall. intros row Hrow.
      apply In_nth with (d := []) in Hrow. destruct Hrow as [a [Ha <-]].
      apply Nat.eqb_eq. rewrite RA by lia. lia. }
  eexists. split; [reflexivity|]. split; [rewrite length_map; exact LA|].
  intros i j Hi Hj.
  set (f := fun row : list R =>
              map (fun p => fdiv (Fin (fst p)) (Fin (snd p))) (combine row K)).
  rewrite (nth_indep _ [] (f [])) by (rewrite length_map; lia).
  rewrite (map_nth f A []). unfold f.
  assert (Lr : length (nth i A []) = n) by (apply RA; exact Hi).
  split; [rewrite length_map, length_combine; lia|].
  rewrite (nth_indep _ NaN (fdiv (Fin (fst (0, 0))) (Fin (snd (0, 0)))))
    by (rewrite length_map, length_combine; lia).
  rewrite (map_nth (fun p => fdiv (Fin (fst p)) (Fin (snd p)))).
  rewrite combine_nth by lia. reflexivity.
Qed.

(** X23: for positive carrying capacities, one per species,
    [CompetitiveLVSystem._make_A] returns a [latent_dim x latent_dim]
    matrix of finite, non-negative entries whose diagonal entry [i] is
    [1 / K[i]] (the 1 written by the loop, divided like its whole column
    by the capacity). *)
Theorem competitive_make_A_entries :
  forall (RNG : Rng) (latent_dim : nat) (K : list R) (st : rng_state),
    length K = latent_dim ->
    Forall (fun k => 0 < k) K ->
    exists A st',
      competitive_make_A latent_dim K st = Ok (A, st') /\
      length A = latent_dim /\
      forall i j, (i < latent_dim)%nat -> (j < latent_dim)%nat ->
        length (nth i A []) = latent_dim /\
        exists v, nth j (nth i A []) NaN = Fin v /\ 0 <= v /\
                  (i = j -> v = 1 / nth i K 0).
Proof.
  intros RNG n K st LK PK. unfold competitive_make_A, rand_bind.
  destruct (normal_matrix_shape 0 1 n n st) as [G [st1 [EG [LG RG]]]]. rewrite EG.
  assert (S0 : square n (map (map Rabs) G)).
  { split; [rewrite length_map; exact LG|]. intros a Ha.
    rewrite (nth_indep _ [] (map Rabs [])) by (rewrite length_map; lia).
    rewrite (map_nth (map Rabs)), length_map. apply RG, Ha. }
  assert (N0 : forall a b, (a < n)%nat -> (b < n)%nat -> 0 <= entry (map (map Rabs) G) a b).
  { intros a b Ha Hb. unfold entry.
    rewrite (nth_indep _ [] (map Rabs [])) by (rewrite length_map; lia).
    rewrite (map_nth (map Rabs)).
    rewrite (nth_indep _ 0 (Rabs 0)) by (rewrite length_map, RG; lia).
    rewrite (map_nth Rabs). apply Rabs_pos. }
  destruct (diagonal_loops n (map (map Rabs) G) st1 S0 N0) as [A [st2 [EA [SA [NA DA]]]]].
  rewrite EA.
  destruct (divide_columns_spec n A K SA LK) as [Q [EQ [LQ HQ]]].
  unfold rlift. rewrite EQ. exists Q, st2. split; [reflexivity|]. split; [exact LQ|].
  intros i j Hi Hj. destruct (HQ i j Hi Hj) as [Lrow Eij]. split; [exact Lrow|].
  assert (Hk : 0 < nth j K 0).
  { rewrite Forall_forall in PK. apply PK, nth_In. lia. }
  exists (entry A i j / nth j K 0). rewrite Eij. cbn [fdiv].
  replace (Reqb (nth j K 0) 0) with false by (symmetry; apply Reqb_false; lra).
  split; [reflexivity|]. split.
  - apply Rmult_le_pos; [apply NA; assumption|]. left. apply Rinv_0_lt_compat, Hk.
  - intros ->. rewrite DA by exact Hj. reflexivity.
Qed.

Lemma competitive_make_A_entries_witness :
  exists A st',
    @competitive_make_A constant_rng 2 [4; 8] 0%nat = Ok (A, st') /\ length A = 2%nat.
Proof.
  destruct (competitive_make_A_entries constant_rng 2 [4; 8] 0%nat eq_refl)
    as [A [st' [E [L _]]]].
  - repeat constructor; lra.
  - exists A, st'. split; [exact E | exact L].
Defined.

(** ** [calc_error] *)

Lemma squared_errors_Fin (xs ys : list R) :
  map (fun e => fmul e e)
      (map (fun p => fsub (fst p) (snd p)) (combine (map Fin xs) (map Fin ys)))
  = map Fin (map (fun p => (fst p - snd p) * (fst p - snd p)) (combine xs ys)).
Proof.
  revert ys. induction xs as [|x xs IH]; intros [|y ys]; try reflexivity.
  cbn [map combine fst snd fsub fneg fadd fmul]. rewrite IH. reflexivity.
Qed.

(** X24: on finite arrays of the same non-empty shape whose squared
    differences sum to at most [float64_max] (so that neither a square nor
    their sum overflows), with [latent_dim >= 1], [calc_error] is a finite
    non-negative number, the mean squared difference divided by
    [latent_dim]; it does not depend on the order of its two arguments,
    and it is zero when the two arrays are equal. *)
Theorem calc_error_mean_squared :
  forall (latent_dim : nat) (xs ys : list R),
    length xs = length ys -> xs <> [] -> (1 <= latent_dim)%nat ->
    sqdist xs ys <= float64_max ->
    exists v,
      calc_error latent_dim (map Fin xs) (map Fin ys) = Ok (Fin v) /\
      v = sqdist xs ys / INR (length xs) / INR latent_dim /\
      0 <= v /\
      calc_error latent_dim (map Fin ys) (map Fin xs) = Ok (Fin v) /\
      (xs = ys -> v = 0).
Proof.
  intros D xs ys L N HD _.
  assert (Hm : 0 < INR (length xs)).
  { apply lt_0_INR. destruct xs; [congruence | simpl; lia]. }
  assert (Hd : 0 < INR D) by (apply lt_0_INR; lia).
  assert (Eval : forall as_ bs, length as_ = length bs -> length as_ = length xs ->
            calc_error D (map Fin as_) (map Fin bs)
            = Ok (Fin (sqdist as_ bs / INR (length xs) / INR D))).
  { intros as_ bs Lab Lax. unfold calc_error, np_mean.
    rewrite !length_map, Lab, Nat.eqb_refl.
    rewrite squared_errors_Fin, np_sum_Fin, ?length_map, length_combine, ?length_map.
    rewrite <- Lab, Nat.min_id, Lax. fold (sqdist as_ bs). cbn [fdiv].
    replace (Reqb (INR (length xs)) 0) with false by (symmetry; apply Reqb_false; lra).
    cbn [fdiv].
    replace (Reqb (INR D) 0) with false by (symmetry; apply Reqb_false; lra).
    reflexivity. }
  exists (sqdist xs ys / INR (length xs) / INR D).
  pose proof (sqdist_nonneg xs ys) as Hs.
  split; [apply Eval; [exact L | reflexivity]|]. split; [reflexivity|]. split; [|split].
  - apply Rmult_le_pos; [apply Rmult_le_pos; [exact Hs|] |];
      left; apply Rinv_0_lt_compat; assumption.
  - rewrite (sqdist_sym xs ys). apply Eval; [symmetry; exact L | symmetry; exact L].
  - intros ->. rewrite sqdist_self. unfold Rdiv. rewrite !Rmult_0_l. reflexivity.
Qed.

Lemma calc_error_mean_squared_witness :
  calc_error 2 (map Fin [1; 2; 3; 4]) (map Fin [1; 0; 3; 2]) = Ok (Fin 1).
Proof.
  destruct (calc_error_mean_squared 2 [1; 2; 3; 4] [1; 0; 3; 2]) as [v [E [Hv _]]].
  - reflexivity.
  - discriminate.
  - lia.
  - apply float64_max_large. unfold sqdist. cbn [combine map Rsum fold_right fst snd]. lra.
  - rewrite E, Hv. do 2 f_equal.
    unfold sqdist. cbn [combine map Rsum fold_right fst snd length INR]. field.
Defined.

(** ** The right-hand sides *)

Lemma linspace_length (start stop : R) (num : nat) :
  length (linspace start stop num) = num.
Proof. unfold linspace. rewrite length_map, length_seq. reflexivity. Qed.

Lemma argmin_from_bound (l : list R) (best_i i : nat) (best : R) :
  (best_i < i)%nat -> (argmin_from best_i best i l < i + length l)%nat.
Proof.
  revert best_i i best. induction l as [|x l IH]; intros bi i b H; cbn [argmin_from length].
  - lia.
  - destruct (Rltb x b).
    + specialize (IH i (S i) x ltac:(lia)). lia.
    + specialize (IH bi (S i) b ltac:(lia)). lia.
Qed.

Lemma np_argmin_bound (l : list R) :
  l <> [] -> exists i, np_argmin l = Ok i /\ (i < length l)%nat.
Proof.
  destruct l as [|x l]; [congruence|]. intros _. eexists. split; [reflexivity|].
  pose proof (argmin_from_bound l 0 1 x ltac:(lia)). cbn [length]. lia.
Qed.

Lemma zip_nth (f : R -> R -> R) (a b : list R) (k : nat) (d : R) :
  length a = length b -> (k < length a)%nat ->
  nth k (map (fun p => f (fst p) (snd p)) (combine a b)) d = f (nth k a 0) (nth k b 0).
Proof.
  intros L Hk.
  rewrite (nth_indep _ d (f (fst (0, 0)) (snd (0, 0))))
    by (rewrite length_map, length_combine; lia).
  rewrite (map_nth (fun p => f (fst p) (snd p))), combine_nth by exact L.
  reflexivity.
Qed.

Lemma broadcast2_same (f : R -> R -> R) (a b : list R) :
  length a = length b ->
  exists c, broadcast2 f a b = Ok c /\
            length c = length a /\
            forall k d, (k < length a)%nat -> nth k c d = f (nth k a 0) (nth k b 0).
Proof.
  intros L. unfold broadcast2. rewrite L, Nat.eqb_refl.
  eexists. split; [reflexivity|]. split.
  - rewrite length_map, length_combine. lia.
  - intros k d Hk. apply zip_nth; [exact L | lia].
Qed.

Lemma matvec_square (n : nat) (A : list (list R)) (X : list R) :
  square n A -> length X = n ->
  exists AX, matvec A X = Ok AX /\ length AX = n.
Proof.
  intros [LA RA] LX. unfold matvec.
  replace (forallb (fun row => Nat.eqb (length row) (length X)) A) with true.
  2:{ symmetry. apply forallb_forall. intros row Hrow.
      apply In_nth with (d := []) in Hrow. destruct Hrow as [a [Ha <-]].
      apply Nat.eqb_eq. rewrite RA by lia. lia. }
  eexists. split; [reflexivity|]. rewrite length_map. exact LA.
Qed.

Lemma normal_vector_length `{Rng} (loc scale : R) (n : nat) (st : rng_state) :
  exists v st', normal_vector loc scale n st = Ok (v, st') /\ length v = n.
Proof.
  destruct (append_loop n (fun _ (_ : R) => True)
              (fun (_ : nat) v => x <~ normal loc scale ;; rret (v ++ [x])))
    with (st := st) as [v [st' [E [L _]]]].
  - intros i acc st1 _. unfold rand_bind, normal.
    destruct (standard_normal st1) as [x st2]. eexists _, st2. split; [reflexivity | exact I].
  - exists v, st'. split; [exact E | exact L].
Qed.

(** X25: the competitive right-hand side leaves an extinct species
    extinct.  With arrays of matching shapes, [dynamics] returns a
    derivative of [latent_dim] components, and at every component [k]
    where the population [X[k]] is zero the derivative is the control input
    [u[i][k]] of the time step [i] it selects, with or without noise: zero
    when there is no control. *)
Theorem competitive_dynamics_extinct :
  forall (RNG : Rng) (n : nat) (R_ : list R) (A : list (list R)) (noise_scale : R)
         (timesteps : nat) (noisy : bool) (t : R) (X : list R) (u : list (list R))
         (st : rng_state),
    (1 <= timesteps)%nat ->
    length X = n -> length R_ = n -> square n A ->
    length u = timesteps ->
    (forall i, (i < timesteps)%nat -> length (nth i u []) = n) ->
    exists dX st',
      competitive_dynamics n R_ A noise_scale timesteps noisy t X u st = Ok (dX, st') /\
      length dX = n /\
      exists i, (i < timesteps)%nat /\
                forall k, (k < n)%nat -> nth k X 0 = 0 ->
                          nth k dX 0 = nth k (nth i u []) 0.
Proof.
  intros RNG n R_ A noise_scale timesteps noisy t X u st HT LX LR SA Lu Ru.
  unfold competitive_dynamics, rand_bind, rlift.
  destruct (np_argmin_bound (map (fun tk => Rabs (t - tk)) (linspace 0 100 timesteps)))
    as [i [Ei Hi]].
  { intros Z. apply (f_equal (@length R)) in Z.
    rewrite length_map, linspace_length in Z. cbn [length] in Z. lia. }
  rewrite length_map, linspace_length in Hi. rewrite Ei.
  destruct (broadcast2_same Rmult X R_ ltac:(lia)) as [XR [EXR [LXR NXR]]].
  destruct (matvec_square n A X SA LX) as [AX [EAX LAX]].
  rewrite (index_Ok u i []) by lia.
  destruct noisy.
  - destruct (normal_vector_length 0 noise_scale n st) as [noise [st1 [En Ln]]].
    rewrite En, EXR, EAX.
    destruct (broadcast2_same Rplus (map (fun v => 1 - v) AX) noise
                ltac:(rewrite length_map; lia)) as [growth [Eg [Lg _]]].
    rewrite Eg. rewrite length_map in Lg.
    destruct (broadcast2_same Rmult XR growth ltac:(lia)) as [prod [Ep [Lp Np]]].
    rewrite Ep.
    destruct (broadcast2_same Rplus prod (nth i u []) ltac:(rewrite Ru by lia; lia))
      as [dX [Ed [Ld Nd]]].
    rewrite Ed. exists dX, st1. split; [reflexivity|]. split; [lia|].
    exists i. split; [exact Hi|]. intros k Hk Hz.
    rewrite Nd by lia. rewrite Np by lia. rewrite NXR by lia. rewrite Hz. ring.
  - rewrite EXR, EAX.
    destruct (broadcast2_same Rmult XR (map (fun v => 1 - v) AX)
                ltac:(rewrite length_map; lia)) as [prod [Ep [Lp Np]]].
    rewrite Ep.
    destruct (broadcast2_same Rplus prod (nth i u []) ltac:(rewrite Ru by lia; lia))
      as [dX [Ed [Ld Nd]]].
    rewrite Ed. exists dX, st. split; [reflexivity|]. split; [lia|].
    exists i. split; [exact Hi|]. intros k Hk Hz.
    rewrite Nd by lia. rewrite Np by lia. rewrite NXR by lia. rewrite Hz. ring.
Qed.

Lemma competitive_dynamics_extinct_witness :
  exists dX st',
    @competitive_dynamics constant_rng 2 [1; 2] [[1; 1 / 2]; [1 / 3; 1]] (1 / 100) 3 false
                          50 [0; 4] [[0; 0]; [0; 0]; [0; 0]] 0%nat = Ok (dX, st') /\
    length dX = 2%nat.
Proof.
  destruct (competitive_dynamics_extinct constant_rng 2 [1; 2] [[1; 1 / 2]; [1 / 3; 1]]
              (1 / 100) 3 false 50 [0; 4] [[0; 0]; [0; 0]; [0; 0]] 0%nat)
    as [dX [st' [E [L _]]]].
  - lia.
  - reflexivity.
  - reflexivity.
  - split; [reflexivity|]. intros [|[|a]] Ha; [reflexivity | reflexivity | lia].
  - reflexivity.
  - intros [|[|[|i]]] Hi; [reflexivity | reflexivity | reflexivity | lia].
  - exists dX, st'. split; [exact E | exact L].
Defined.

(** X26: the prey-predator right-hand side has the same property: where
    the population [X[k]] is zero the derivative is the control input
    [u[i][k]], with or without noise. *)
Theorem prey_predator_dynamics_extinct :
  forall (RNG : Rng) (n : nat) (R_ : list R) (A : list (list R)) (noise_scale : R)
         (timesteps : nat) (noisy : bool) (t : R) (X : list R) (u : list (list R))
         (st : rng_state),
    (1 <= timesteps)%nat ->
    length X = n -> length R_ = n -> square n A ->
    length u = timesteps ->
    (forall i, (i < timesteps)%nat -> length (nth i u []) = n) ->
    exists dX st',
      prey_predator_dynamics n R_ A noise_scale timesteps noisy t X u st = Ok (dX, st') /\
      length dX = n /\
      exists i, (i < timesteps)%nat /\
                forall k, (k < n)%nat -> nth k X 0 = 0 ->
                          nth k dX 0 = nth k (nth i u []) 0.
Proof.
  intros RNG n R_ A noise_scale timesteps noisy t X u st HT LX LR SA Lu Ru.
  unfold prey_predator_dynamics, rand_bind, rlift.
  destruct (np_argmin_bound (map (fun tk => Rabs (t - tk)) (linspace 0 100 timesteps)))
    as [i [Ei Hi]].
  { intros Z. apply (f_equal (@length R)) in Z.
    rewrite length_map, linspace_length in Z. cbn [length] in Z. lia. }
  rewrite length_map, linspace_length in Hi. rewrite Ei.
  assert (Hnoise : exists noise st1,
             (if noisy then normal_vector 0 noise_scale n else rret (repeat 0 n)) st
             = Ok (noise, st1) /\ length noise = n).
  { destruct noisy; [apply normal_vector_length|].
    exists (repeat 0 n), st. split; [reflexivity | apply repeat_length]. }
  destruct Hnoise as [noise [st1 [En Ln]]]. rewrite En.
  destruct (matvec_square n A X SA LX) as [AX [EAX LAX]]. rewrite EAX.
  destruct (broadcast2_same Rplus R_ AX ltac:(lia)) as [RAX [Er [Lr _]]]. rewrite Er.
  destruct (broadcast2_same Rplus RAX noise ltac:(lia)) as [growth [Eg [Lg _]]]. rewrite Eg.
  destruct (broadcast2_same Rmult X growth ltac:(lia)) as [prod [Ep [Lp Np]]]. rewrite Ep.
  rewrite (index_Ok u i []) by lia.
  destruct (broadcast2_same Rplus prod (nth i u []) ltac:(rewrite Ru by lia; lia))
    as [dX [Ed [Ld Nd]]].
  rewrite Ed. exists dX, st1. split; [reflexivity|]. split; [lia|].
  exists i. split; [exact Hi|]. intros k Hk Hz.
  rewrite Nd by lia. rewrite Np by lia. rewrite Hz. ring.
Qed.

Lemma prey_predator_dynamics_extinct_witness :
  exists dX st',
    @prey_predator_dynamics constant_rng 2 [1; -2] [[-1; 1 / 2]; [1 / 3; -1]] (1 / 100) 3 true
                            50 [0; 4] [[0; 0]; [0; 0]; [0; 0]] 0%nat = Ok (dX, st') /\
    length dX = 2%nat.
Proof.
  destruct (prey_predator_dynamics_extinct constant_rng 2 [1; -2]
              [[-1; 1 / 2]; [1 / 3; -1]]
              (1 / 100) 3 true 50 [0; 4] [[0; 0]; [0; 0]; [0; 0]] 0%nat)
    as [dX [st' [E [L _]]]].
  - lia.
  - reflexivity.
  - reflexivity.
  - split; [reflexivity|]. intros [|[|a]] Ha; [reflexivity | reflexivity | lia].
  - reflexivity.
  - intros [|[|[|i]]] Hi; [reflexivity | reflexivity | reflexivity | lia].
  - exists dX, st'. split; [exact E | exact L].
Defined.

(** ** [make_data] *)

Lemma discarding_loop `{Rng} {A S : Type} (l : list A) (s : S)
    (body : A -> S -> rand S) (st : rng_state) :
  (forall a s0 st0, (exists st1, body a s0 st0 = Ok (s0, st1)) \/
                    (exists e, body a s0 st0 = Raise e)) ->
  (exists st', for_each l s body st = Ok (s, st')) \/
  (exists e, for_each l s body st = Raise e).
Proof.
  intros Hbody. revert st. induction l as [|a l IH]; intros st; cbn [for_each].
  - left. exists st. reflexivity.
  - unfold rand_bind. destruct (Hbody a s st) as [[st1 E]|[e E]]; rewrite E.
    + apply IH.
    + right. exists e. reflexivity.
Qed.

(** X27: [CompetitiveLVSystem.make_data] never returns data when a
    control is supplied.  With a control that tests true (a non-empty
    list, a one-element non-zero array) the solutions are computed but not
    kept and the final transposition raises; with a NumPy array of more
    than one element the test [if control:] itself raises. *)
Theorem competitive_make_data_with_control :
  forall (RNG : Rng) (INT : Integrator) (latent_dim : nat) (R_ : list R)
         (A : list (list R)) (noise_scale : R) (init_conds : list (list R))
         (control : control_arg) (timesteps : nat) (noisy : bool) (st : rng_state),
    truth_value control = Ok true \/
    (exists c, control = ControlArray c /\ (2 <= array_size c)%nat) ->
    exists e,
      competitive_make_data latent_dim R_ A noise_scale init_conds control timesteps
                            noisy st = Raise e.
Proof.
  intros RNG INT latent_dim R_ A noise_scale init_conds control timesteps noisy st H.
  unfold competitive_make_data, rand_bind at 1. unfold rlift at 1.
  destruct H as [T | [c [-> Hc]]].
  - rewrite T. unfold rand_bind.
    match goal with
    | |- context [for_each ?l ?s ?body st] =>
        destruct (discarding_loop l s body st) as [[st' E]|[e E]]
    end.
    + intros p data st0. unfold rand_bind.
      destruct (solve_ivp _ (0, 1) (fst p) _ (snd p) st0) as [[sol st1]|e].
      * left. exists st1. reflexivity.
      * right. exists e. reflexivity.
    + rewrite E. exists ValueError. reflexivity.
    + rewrite E. exists e. reflexivity.
  - unfold truth_value. unfold array_size in Hc.
    destruct (concat (concat c)) as [|x [|y l]]; cbn [length] in Hc; try lia.
    exists ValueError. reflexivity.
Qed.

Lemma competitive_make_data_with_control_witness :
  exists e,
    @competitive_make_data constant_rng frozen_integrator 2 [1; 2] [[1; 0]; [0; 1]] (1 / 100)
      [[1; 1]] (ControlList [[[0; 0]; [0; 0]; [0; 0]]]) 3 false 0%nat = Raise e.
Proof.
  apply (competitive_make_data_with_control constant_rng frozen_integrator).
  left. reflexivity.
Defined.

Lemma collect_loop `{Rng} {A B : Type} (Q : B -> Prop) (l : list A)
    (body : A -> list B -> rand (list B)) :
  (forall a acc st, In a l -> exists y st', body a acc st = Ok (acc ++ [y], st') /\ Q y) ->
  forall acc st,
  exists ys st', for_each l acc body st = Ok (acc ++ ys, st') /\
                 length ys = length l /\ Forall Q ys.
Proof.
  induction l as [|a l IH]; intros Hbody acc st; cbn [for_each].
  - exists [], st. rewrite app_nil_r. split; [reflexivity|]. split; [reflexivity | constructor].
  - unfold rand_bind.
    destruct (Hbody a acc st (or_introl eq_refl)) as [y [st1 [E Hy]]]. rewrite E.
    destruct (IH (fun b acc0 st0 Hb => Hbody b acc0 st0 (or_intror Hb)) (acc ++ [y]) st1)
      as [ys [st2 [E2 [L2 Q2]]]].
    exists (y :: ys), st2. rewrite E2, <- app_assoc.
    split; [reflexivity|]. split; [cbn [length]; lia | constructor; assumption].
Qed.

Lemma columns_entry (y : list (list R)) (D T t d : nat) :
  length y = D -> Forall (fun row => length row = T) y -> (1 <= D)%nat ->
  (t < T)%nat -> (d < D)%nat ->
  length (columns 0 y) = T /\
  length (nth t (columns 0 y) []) = D /\
  nth d (nth t (columns 0 y) []) 0 = nth t (nth d y []) 0.
Proof.
  intros Ly Ry HD Ht Hd.
  assert (Hc : ncols y = T).
  { destruct y as [|r y]; [cbn [length] in Ly; lia|]. inversion Ry; subst. reflexivity. }
  unfold columns. rewrite Hc, length_map, length_seq. split; [reflexivity|].
  rewrite (nth_indep _ [] (column 0 0 y)) by (rewrite length_map, length_seq; lia).
  rewrite (map_nth (fun j => column 0 j y) (seq 0 T) 0%nat), seq_nth by lia.
  cbn [Nat.add]. unfold column. rewrite length_map. split; [exact Ly|].
  rewrite (nth_indep _ 0 (nth t [] 0)) by (rewrite length_map; lia).
  apply (map_nth (fun r => nth t r 0)).
Qed.

(** X28: without control (a control that tests false),
    [CompetitiveLVSystem.make_data] integrates once per initial condition,
    in order, and returns the solutions with their last two axes swapped:
    for an integrator that returns arrays of shape [(D, T)], the result has
    shape [(n, T, D)] and entry [[a][t][d]] is entry [[d][t]] of solution
    [a].  With no initial condition it raises [ValueError]. *)
Theorem competitive_make_data_without_control :
  forall (RNG : Rng) (INT : Integrator) (latent_dim : nat) (R_ : list R)
         (A : list (list R)) (noise_scale : R) (init_conds : list (list R))
         (control : control_arg) (timesteps : nat) (noisy : bool) (st : rng_state)
         (D T : nat),
    truth_value control = Ok false ->
    (1 <= D)%nat ->
    (forall f span y0 u st0,
        In y0 init_conds ->
        exists y st1,
          solve_ivp f span y0 (linspace 0 100 timesteps) u st0 = Ok (y, st1) /\
          length y = D /\ Forall (fun row => length row = T) y) ->
    (init_conds = [] ->
     competitive_make_data latent_dim R_ A noise_scale init_conds control timesteps
                           noisy st = Raise ValueError) /\
    (init_conds <> [] ->
     exists sols st',
       competitive_make_data latent_dim R_ A noise_scale init_conds control timesteps
                             noisy st = Ok (map (columns 0) sols, st') /\
       length sols = length init_conds /\
       forall a t d, (a < length sols)%nat -> (t < T)%nat -> (d < D)%nat ->
         length (nth a (map (columns 0) sols) []) = T /\
         length (nth t (nth a (map (columns 0) sols) []) []) = D /\
         nth d (nth t (nth a (map (columns 0) sols) []) []) 0
         = nth t (nth d (nth a sols []) []) 0).
Proof.
  intros RNG INT latent_dim R_ A noise_scale init_conds control timesteps noisy st D T
         Hc HD Hsolve.
  unfold competitive_make_data, rand_bind, rlift. rewrite Hc.
  cbv beta iota. split.
  - intros ->. reflexivity.
  - intros N.
    match goal with
    | |- context [for_each init_conds [] ?body st] =>
        destruct (collect_loop
                    (fun y : list (list R) =>
                       length y = D /\ Forall (fun row => length row = T) y)
                    init_conds body) with (acc := @nil (list (list R))) (st := st)
          as [sols [st' [E [L Q]]]]
    end.
    + intros x0 acc st0 Hin.
      destruct (Hsolve
                  (fun t X u =>
                     competitive_dynamics latent_dim R_ A noise_scale timesteps noisy t X u)
                  (0, 100) x0 (repeat (repeat 0 latent_dim) timesteps) st0 Hin)
        as [y [st1 [Ey Hy]]].
      rewrite Ey. exists y, st1. split; [reflexivity | exact Hy].
    + cbn [app] in E. rewrite E.
      assert (Ns : sols <> []).
      { intros ->. destruct init_conds; [congruence | discriminate]. }
      assert (Et : transpose_021 sols = Ok (map (columns 0) sols)).
      { unfold transpose_021. destruct sols as [|first rest] eqn:Es; [congruence|].
        rewrite <- Es. rewrite <- Es in Q.
        assert (Hf : length first = D /\ Forall (fun row => length row = T) first).
        { rewrite Es in Q. inversion Q; assumption. }
        destruct Hf as [Lf Rf].
        assert (Hcf : ncols first = T).
        { destruct first as [|r first']; [cbn [length] in Lf; lia|].
          inversion Rf; subst. reflexivity. }
        replace (forallb _ sols) with true; [reflexivity|].
        symmetry. apply forallb_forall. intros y Hy. rewrite Forall_forall in Q.
        destruct (Q y Hy) as [Ly Ry]. apply andb_true_iff. split.
        - apply Nat.eqb_eq. lia.
        - apply forallb_forall. intros row Hrow. rewrite Forall_forall in Ry.
          apply Nat.eqb_eq. rewrite Hcf. apply Ry, Hrow. }
      rewrite Et. exists sols, st'. split; [reflexivity|].
      split; [exact L|]. intros a t d Ha Ht Hd.
      rewrite (nth_indep _ [] (columns 0 [])) by (rewrite length_map; lia).
      rewrite (map_nth (columns 0) sols []).
      rewrite Forall_forall in Q.
      destruct (Q (nth a sols []) (nth_In _ _ Ha)) as [Ly Ry].
      apply (columns_entry _ D T t d Ly Ry HD Ht Hd).
Qed.

Lemma competitive_make_data_without_control_witness :
  exists sols st',
    @competitive_make_data constant_rng frozen_integrator 2 [1; 2] [[1; 0]; [0; 1]] (1 / 100)
      [[1; 1]; [3; 4]] ControlNone 3 false 0%nat = Ok (map (columns 0) sols, st') /\
    length sols = 2%nat.
Proof.
  destruct (competitive_make_data_without_control constant_rng frozen_integrator 2 [1; 2]
              [[1; 0]; [0; 1]] (1 / 100) [[1; 1]; [3; 4]] ControlNone 3 false 0%nat 2 3)
    as [_ H].
  - reflexivity.
  - lia.
  - intros f span y0 u st0 Hin. eexists _, st0. split; [reflexivity|].
    destruct Hin as [<- | [<- | []]]; split; try reflexivity; repeat constructor.
  - destruct (H ltac:(discriminate)) as [sols [st' [E [L _]]]].
    exists sols, st'. split; [exact E | exact L].
Defined.

(** ** The prey-predator interaction matrix *)

Lemma get2_entry (n : nat) (M : list (list R)) (i j : nat) :
  square n M -> (i < n)%nat -> (j < n)%nat -> get2 M i j = Ok (entry M i j).
Proof.
  intros [LM RM] Hi Hj. unfold get2, entry.
  rewrite (index_Ok M i []) by lia. cbn [rbind].
  apply index_Ok. rewrite RM by lia. lia.
Qed.

Lemma set2_pair (n : nat) (B : list (list R)) (i j : nat) (v1 v2 : R) :
  square n B -> (i < n)%nat -> (j < n)%nat -> i <> j ->
  exists B1 B', set2 B i j v1 = Ok B1 /\ square n B1 /\
                entry B1 j i = entry B j i /\
                set2 B1 j i v2 = Ok B' /\ pair_write n B B' i j v1 v2.
Proof.
  intros SB Hi Hj Hij.
  destruct (set2_spec B n i j v1 SB Hi Hj) as [B1 [E1 [S1 N1]]].
  destruct (set2_spec B1 n j i v2 S1 Hj Hi) as [B' [E2 [S2 N2]]].
  exists B1, B'. split; [exact E1|]. split; [exact S1|]. split.
  - rewrite N1. replace (Nat.eqb j i) with false by (symmetry; apply Nat.eqb_neq; lia).
    reflexivity.
  - split; [exact E2|]. split; [exact S2|]. intros a b. rewrite N2, N1.
    destruct (Nat.eqb a i) eqn:Ea, (Nat.eqb b j) eqn:Eb,
             (Nat.eqb a j) eqn:Ea', (Nat.eqb b i) eqn:Eb'; cbn [andb]; try reflexivity.
    apply Nat.eqb_eq in Ea, Ea'. lia.
Qed.

Section SignInvariant.
Variables (n : nat) (nPrey : Z).

Lemma sign_step_diag (B B' : list (list R)) (i : nat) (v : R) :
  sign_invariant n nPrey i i B -> (i < n)%nat ->
  square n B' ->
  (forall a b, entry B' a b = if (Nat.eqb a i && Nat.eqb b i)%bool then v else entry B a b) ->
  v <= 0 ->
  sign_invariant n nPrey i (S i) B'.
Proof.
  intros [SB [I1 [I2 [I3 [I4 I5]]]]] Hi SB' HB' Hv.
  assert (Eoff : forall a b, a <> b -> entry B' a b = entry B a b).
  { intros a b Hab. rewrite HB'.
    destruct (Nat.eqb a i) eqn:Ea, (Nat.eqb b i) eqn:Eb; cbn [andb]; try reflexivity.
    apply Nat.eqb_eq in Ea, Eb. lia. }
  unfold sign_invariant, done in *. cbv zeta in *.
  split; [exact SB'|]. split; [|split; [|split; [|split]]].
  - intros a Ha Hd. rewrite HB'. destruct (Nat.eqb a i) eqn:Ea; cbn [andb]; [exact Hv|].
    apply Nat.eqb_neq in Ea. apply I1; [exact Ha | lia].
  - intros a b Ha Hb Hab Pa Pb Hd. rewrite Eoff by exact Hab.
    apply I2; try assumption. lia.
  - intros a b Ha Hb Pa Pb Hd. assert (a <> b) by (intros ->; contradiction).
    rewrite !Eoff by lia. apply I3; try assumption. lia.
  - intros a b Ha Hb Pa Pb Hab Hd Hnd. rewrite !Eoff by lia.
    apply I4; try assumption; lia.
  - intros a b Ha Hb Pa Pb Hab Hd. rewrite !Eoff by lia.
    apply I5; try assumption; lia.
Qed.

Lemma sign_step_skip (B : list (list R)) (i j : nat) :
  sign_invariant n nPrey i j B -> i <> j ->
  ~ (Z.of_nat i < nPrey)%Z -> (Z.of_nat j < nPrey)%Z ->
  sign_invariant n nPrey i (S j) B.
Proof.
  intros [SB [I1 [I2 [I3 [I4 I5]]]]] Hij Pi Pj.
  unfold sign_invariant, done in *. cbv zeta in *.
  split; [exact SB|]. split; [|split; [|split; [|split]]].
  - intros a Ha Hd. apply I1; [exact Ha | lia].
  - intros a b Ha Hb Hab Pa Pb Hd. apply I2; try assumption.
    destruct Hd as [Hd|Hd]; [left | right];
      (destruct (Nat.eq_dec a i); destruct (Nat.eq_dec b i); subst; try lia).
  - intros a b Ha Hb Pa Pb Hd. apply I3; try assumption.
    destruct (Nat.eq_dec a i); subst; [contradiction | lia].
  - intros a b Ha Hb Pa Pb Hab Hd Hnd.
    assert (Hd' : (a < i \/ a = i /\ b < j)%nat).
    { destruct (Nat.eq_dec b j); subst; [contradiction | lia]. }
    apply I4; try assumption. intros Hx. apply Hnd. lia.
  - intros a b Ha Hb Pa Pb Hab Hd. apply I5; try assumption.
    destruct (Nat.eq_dec a j); subst; [contradiction | lia].
Qed.

Lemma sign_step_write (B B' : list (list R)) (i j : nat) (v1 v2 : R) :
  sign_invariant n nPrey i j B -> (i < n)%nat -> (j < n)%nat -> i <> j ->
  ((Z.of_nat i < nPrey)%Z \/ ~ (Z.of_nat j < nPrey)%Z) ->
  pair_write n B B' i j v1 v2 ->
  v1 <= 0 -> v2 = - v1 ->
  ((Z.of_nat i < nPrey)%Z -> (Z.of_nat j < nPrey)%Z -> v1 = 0) ->
  sign_invariant n nPrey i (S j) B'.
Proof.
  intros [SB [I1 [I2 [I3 [I4 I5]]]]] Hi Hj Hij Hbranch [SB' HB'] Hv1 Hv2 Hzero.
  assert (Ecase : forall a b,
            (a = i /\ b = j /\ entry B' a b = v1 /\ entry B' b a = v2) \/
            (a = j /\ b = i /\ entry B' a b = v2 /\ entry B' b a = v1) \/
            (~ (a = i /\ b = j) /\ ~ (a = j /\ b = i) /\
             entry B' a b = entry B a b /\ entry B' b a = entry B b a)).
  { intros a b. rewrite !HB'.
    destruct (Nat.eqb_spec a i) as [Ea|Ea], (Nat.eqb_spec b j) as [Eb|Eb],
             (Nat.eqb_spec a j) as [Ea'|Ea'], (Nat.eqb_spec b i) as [Eb'|Eb'];
      cbn [andb]; try lia;
      first [ left; split; [|split; [|split]]; (assumption || reflexivity)
            | right; left; split; [|split; [|split]]; (assumption || reflexivity)
            | right; right; split; [|split; [|split]]; (lia || reflexivity) ]. }
  unfold sign_invariant, done in *. cbv zeta in *.
  split; [exact SB'|]. split; [|split; [|split; [|split]]].
  - intros a Ha Hd.
    destruct (Ecase a a) as [[-> [-> _]] | [[-> [-> _]] | [_ [_ [E _]]]]]; try lia.
    rewrite E. apply I1; [exact Ha | lia].
  - intros a b Ha Hb Hab Pa Pb Hd.
    destruct (Ecase a b) as [[-> [-> [E _]]] | [[-> [-> [E _]]] | [N1 [N2 [E _]]]]];
      rewrite E.
    + apply Hzero; assumption.
    + rewrite Hv2, (Hzero Pb Pa). lra.
    + apply I2; try assumption. lia.
  - intros a b Ha Hb Pa Pb Hd.
    destruct (Ecase a b) as [[-> [-> [E1 E2]]] | [[-> [-> [E1 E2]]] | [N1 [N2 [E1 E2]]]]];
      rewrite E1, E2.
    + split; [exact Hv1 | exact Hv2].
    + destruct Hbranch; contradiction.
    + apply I3; try assumption. lia.
  - intros a b Ha Hb Pa Pb Hab Hd Hnd.
    destruct (Ecase a b) as [[-> [-> [E1 E2]]] | [[-> [-> [E1 E2]]] | [N1 [N2 [E1 E2]]]]];
      rewrite E1, E2.
    + split; [exact Hv1 | exact Hv2].
    + exfalso. apply Hnd. lia.
    + apply I4; try assumption; [lia|]. intros Hx. apply Hnd. lia.
  - intros a b Ha Hb Pa Pb Hab Hd.
    destruct (Ecase a b) as [[-> [-> [E1 E2]]] | [[-> [-> [E1 E2]]] | [N1 [N2 [E1 E2]]]]];
      rewrite E1, E2.
    + lia.
    + split; lra.
    + apply I5; try assumption. lia.
Qed.

Lemma sign_next_row (B : list (list R)) (i : nat) :
  sign_invariant n nPrey i n B -> sign_invariant n nPrey (S i) 0 B.
Proof.
  intros [SB [I1 [I2 [I3 [I4 I5]]]]].
  unfold sign_invariant, done in *. cbv zeta in *.
  split; [exact SB|]. split; [|split; [|split; [|split]]].
  - intros a Ha Hd. apply I1; [exact Ha | lia].
  - intros a b Ha Hb Hab Pa Pb Hd. apply I2; try assumption. lia.
  - intros a b Ha Hb Pa Pb Hd. apply I3; try assumption. lia.
  - intros a b Ha Hb Pa Pb Hab Hd Hnd. apply I4; try assumption; [lia|].
    intros Hx. apply Hnd. lia.
  - intros a b Ha Hb Pa Pb Hab Hd. apply I5; try assumption. lia.
Qed.
End SignInvariant.

Lemma sign_invariant_start (n : nat) (nPrey : Z) (B : list (list R)) :
  square n B -> sign_invariant n nPrey 0 0 B.
Proof.
  intros SB. unfold sign_invariant, done. cbv zeta.
  split; [exact SB|]. split; [|split; [|split; [|split]]]; intros; lia.
Qed.

(** [A[i][j] = -1 * np.abs(A[j][i]); A[j][i] = np.abs(A[j][i])]. *)
Lemma mirror_write (n : nat) (B : list (list R)) (i j : nat) :
  square n B -> (i < n)%nat -> (j < n)%nat -> i <> j ->
  exists B',
    rbind (get2 B j i) (fun a =>
      rbind (set2 B i j (-1 * Rabs a)) (fun B1 =>
        rbind (get2 B1 j i) (fun a' => set2 B1 j i (Rabs a')))) = Ok B' /\
    pair_write n B B' i j (-1 * Rabs (entry B j i)) (Rabs (entry B j i)).
Proof.
  intros SB Hi Hj Hij.
  destruct (set2_pair n B i j (-1 * Rabs (entry B j i)) (Rabs (entry B j i)) SB Hi Hj Hij)
    as [B1 [B' [E1 [S1 [N1 [E2 PW]]]]]].
  exists B'. rewrite (get2_entry n B j i SB Hj Hi). cbn [rbind]. rewrite E1. cbn [rbind].
  rewrite (get2_entry n B1 j i S1 Hj Hi). cbn [rbind]. rewrite N1.
  split; [exact E2 | exact PW].
Qed.

Lemma sign_loops `{Rng} (n : nat) (nPrey : Z) (A0 : list (list R)) (st : rng_state) :
  square n A0 ->
  exists A st',
    for_range n A0 (fun i A =>
      for_range n A (fun j A =>
        if Nat.eqb i j then
          if (Z.of_nat i <? nPrey)%Z then
            x <~ normal 0 (1 / 100) ;;
            rlift (set2 A i j (-1 * Rabs x))
          else
            x <~ normal 0 (1 / 10) ;;
            rlift (set2 A i j (-1 * Rabs x))
        else if (Z.of_nat i <? nPrey)%Z then
          if (Z.of_nat j <? nPrey)%Z then
            A <~ rlift (set2 A i j 0) ;;
            rlift (set2 A j i 0)
          else
            r <~ random ;;
            if Rltb r (1 / 10) then
              A <~ rlift (set2 A i j 0) ;;
              rlift (set2 A j i 0)
            else
              a <~ rlift (get2 A j i) ;;
              A <~ rlift (set2 A i j (-1 * Rabs a)) ;;
              a <~ rlift (get2 A j i) ;;
              rlift (set2 A j i (Rabs a))
        else if (Z.of_nat i >=? nPrey)%Z then
          if (Z.of_nat j >=? nPrey)%Z then
            a <~ rlift (get2 A j i) ;;
            A <~ rlift (set2 A i j (-1 * Rabs a)) ;;
            a <~ rlift (get2 A j i) ;;
            rlift (set2 A j i (Rabs a))
          else rret A
        else rret A)) st = Ok (A, st') /\
    sign_invariant n nPrey n 0 A.
Proof.
  intros S0.
  apply (for_range_inv (fun i A => sign_invariant n nPrey i 0 A));
    [|apply sign_invariant_start; exact S0].
  intros i A st1 Hi IA.
  match goal with
  | |- exists s' st', for_range n A ?body st1 = _ /\ _ =>
      destruct (for_range_inv (fun j B => sign_invariant n nPrey i j B) body n)
        with (s := A) (st := st1) as [A' [st2 [E' IA']]]
  end.
  - intros j B st2 Hj IB. assert (SB : square n B) by (destruct IB as [SB _]; exact SB).
    assert (Pair : forall v1 v2 stx, i <> j ->
              ((Z.of_nat i < nPrey)%Z \/ ~ (Z.of_nat j < nPrey)%Z) ->
              v1 <= 0 -> v2 = - v1 ->
              ((Z.of_nat i < nPrey)%Z -> (Z.of_nat j < nPrey)%Z -> v1 = 0) ->
              exists s' st',
                (A <~ rlift (set2 B i j v1) ;; rlift (set2 A j i v2)) stx = Ok (s', st') /\
                sign_invariant n nPrey i (S j) s').
    { intros v1 v2 stx Hij Hbr Hv1 Hv2 Hz.
      destruct (set2_pair n B i j v1 v2 SB Hi Hj Hij) as [B1 [B' [E1 [_ [_ [E2 PW]]]]]].
      exists B', stx. unfold rand_bind, rlift. rewrite E1, E2. split; [reflexivity|].
      apply (sign_step_write n nPrey B B' i j v1 v2); assumption. }
    assert (Mirror : forall stx, i <> j ->
              ((Z.of_nat i < nPrey)%Z \/ ~ (Z.of_nat j < nPrey)%Z) ->
              ~ ((Z.of_nat i < nPrey)%Z /\ (Z.of_nat j < nPrey)%Z) ->
              exists s' st',
                (a <~ rlift (get2 B j i) ;;
                 A <~ rlift (set2 B i j (-1 * Rabs a)) ;;
                 a <~ rlift (get2 A j i) ;;
                 rlift (set2 A j i (Rabs a))) stx = Ok (s', st') /\
                sign_invariant n nPrey i (S j) s').
    { intros stx Hij Hbr Hnz.
      destruct (mirror_write n B i j SB Hi Hj Hij) as [B' [EB PW]].
      exists B', stx. split.
      - unfold rand_bind, rlift. unfold rbind in EB.
        destruct (get2 B j i) as [a|e]; [|discriminate].
        destruct (set2 B i j (-1 * Rabs a)) as [B1|e]; [|discriminate].
        destruct (get2 B1 j i) as [a'|e]; [|discriminate].
        rewrite EB. reflexivity.
      - pose proof (Rabs_pos (entry B j i)) as Hp.
        apply (sign_step_write n nPrey B B' i j _ _ IB Hi Hj Hij Hbr PW); [lra | lra|].
        intros Pi Pj. exfalso. apply Hnz. split; assumption. }
    assert (Diag : forall scale stx, i = j ->
              exists s' st',
                (x <~ normal 0 scale ;; rlift (set2 B i j (-1 * Rabs x))) stx = Ok (s', st') /\
                sign_invariant n nPrey i (S j) s').
    { intros scale stx <-. unfold rand_bind, normal.
      destruct (standard_normal stx) as [x stx'].
      destruct (set2_spec B n i i (-1 * Rabs (0 + scale * x)) SB Hi Hi) as [B' [Es [SB' EB']]].
      exists B', stx'. unfold rlift. rewrite Es. split; [reflexivity|].
      apply (sign_step_diag n nPrey B B' i _ IB Hi SB' EB').
      pose proof (Rabs_pos (0 + scale * x)). lra. }
    destruct (Nat.eqb_spec i j) as [Eij|Nij].
    + destruct (Z.of_nat i <? nPrey)%Z; apply Diag; exact Eij.
    + destruct (Z.ltb_spec (Z.of_nat i) nPrey) as [Pi|Pi].
      * destruct (Z.ltb_spec (Z.of_nat j) nPrey) as [Pj|Pj].
        -- apply Pair; [exact Nij | left; exact Pi | lra | lra | reflexivity].
        -- unfold rand_bind at 1. unfold random.
           destruct (random_sample st2) as [r st3].
           destruct (Rltb r (1 / 10)).
           ++ apply Pair; [exact Nij | left; exact Pi | lra | lra | reflexivity].
           ++ apply Mirror; [exact Nij | left; exact Pi | lia].
      * replace (Z.of_nat i >=? nPrey)%Z with true by (symmetry; apply Z.geb_le; lia).
        destruct (Z.geb_spec (Z.of_nat j) nPrey) as [Pj|Pj].
        -- apply Mirror; [exact Nij | right; lia | lia].
        -- exists B, st2. split; [reflexivity|].
           apply sign_step_skip; [exact IB | exact Nij | lia | lia].
  - exact IA.
  - exists A', st2. split; [exact E'|]. apply sign_next_row. exact IA'.
Qed.

Lemma div_nonpos (x k : R) : x <= 0 -> 0 < k -> x / k <= 0.
Proof.
  intros Hx Hk. pose proof (Rinv_0_lt_compat k Hk) as Hi.
  unfold Rdiv. replace 0 with (0 * / k) by apply Rmult_0_l.
  apply Rmult_le_compat_r; lra.
Qed.

(** X29: for positive carrying capacities, one per species,
    [PreyPredatorSystem._make_A] returns a [latent_dim x latent_dim]
    matrix of finite entries with the sign structure of a food web:
    the diagonal is non-positive, two distinct prey do not interact, a
    prey's entry against a predator is non-positive and the predator's
    entry against that prey non-negative, and of two predators the one
    with the smaller index has the non-negative entry.  Before the
    division by the capacities the two mirrored entries are opposite:
    [K[i] * A[j][i] = - (K[j] * A[i][j])]. *)
Theorem prey_predator_make_A_signs :
  forall (RNG : Rng) (latent_dim : nat) (nPrey : Z) (K : list R) (st : rng_state),
    length K = latent_dim ->
    Forall (fun k => 0 < k) K ->
    exists A st',
      prey_predator_make_A latent_dim nPrey K st = Ok (A, st') /\
      length A = latent_dim /\
      forall i j, (i < latent_dim)%nat -> (j < latent_dim)%nat ->
        length (nth i A []) = latent_dim /\
        exists v w,
          nth j (nth i A []) NaN = Fin v /\
          nth i (nth j A []) NaN = Fin w /\
          (i = j -> v <= 0) /\
          (i <> j -> (Z.of_nat i < nPrey)%Z -> (Z.of_nat j < nPrey)%Z -> v = 0) /\
          ((Z.of_nat i < nPrey)%Z -> ~ (Z.of_nat j < nPrey)%Z ->
           v <= 0 /\ 0 <= w /\ nth i K 0 * w = - (nth j K 0 * v)) /\
          (~ (Z.of_nat i < nPrey)%Z -> ~ (Z.of_nat j < nPrey)%Z -> (i < j)%nat ->
           0 <= v /\ w <= 0 /\ nth i K 0 * w = - (nth j K 0 * v)).
Proof.
  intros RNG n nPrey K st LK PK. unfold prey_predator_make_A.
  unfold rand_bind at 1.
  destruct (normal_matrix_shape 0 1 n n st) as [G [st1 [EG [LG RG]]]]. rewrite EG.
  unfold rand_bind at 1.
  destruct (sign_loops n nPrey G st1 (conj LG RG)) as [A [st2 [EA IA]]].
  rewrite EA. destruct IA as [SA [I1 [I2 [I3 [_ I5]]]]].
  destruct (divide_columns_spec n A K SA LK) as [Q [EQ [LQ HQ]]].
  unfold rlift. rewrite EQ. exists Q, st2. split; [reflexivity|]. split; [exact LQ|].
  intros i j Hi Hj. destruct (HQ i j Hi Hj) as [Lrow Eij]. split; [exact Lrow|].
  destruct (HQ j i Hj Hi) as [_ Eji].
  assert (Hk : forall a, (a < n)%nat -> 0 < nth a K 0).
  { intros a Ha. rewrite Forall_forall in PK. apply PK, nth_In. lia. }
  pose proof (Hk i Hi) as Hki. pose proof (Hk j Hj) as Hkj.
  assert (Hdone : forall a b, (a < n)%nat -> done n 0 a b) by (intros a b Ha; left; exact Ha).
  exists (entry A i j / nth j K 0), (entry A j i / nth i K 0).
  rewrite Eij, Eji. cbn [fdiv].
  replace (Reqb (nth j K 0) 0) with false by (symmetry; apply Reqb_false; lra).
  replace (Reqb (nth i K 0) 0) with false by (symmetry; apply Reqb_false; lra).
  split; [reflexivity|]. split; [reflexivity|].
  assert (Hinv_i : 0 < / nth i K 0) by (apply Rinv_0_lt_compat; exact Hki).
  assert (Hinv_j : 0 < / nth j K 0) by (apply Rinv_0_lt_compat; exact Hkj).
  assert (Hmirror : entry A j i = - entry A i j ->
            nth i K 0 * (entry A j i / nth i K 0) = - (nth j K 0 * (entry A i j / nth j K 0))).
  { intros ->. field. split; lra. }
  split; [|split; [|split]].
  - intros <-. pose proof (I1 i Hi (Hdone i i Hi)) as Hd.
    apply div_nonpos; assumption.
  - intros Nij Pi Pj. rewrite (I2 i j Hi Hj Nij Pi Pj (or_introl (Hdone i j Hi))).
    unfold Rdiv. apply Rmult_0_l.
  - intros Pi Pj. destruct (I3 i j Hi Hj Pi Pj (Hdone i j Hi)) as [Hv Hw].
    split; [|split].
    + apply div_nonpos; assumption.
    + apply Rmult_le_pos; lra.
    + apply Hmirror, Hw.
  - intros Pi Pj Hij. destruct (I5 i j Hi Hj Pi Pj Hij (Hdone j i Hj)) as [Hv Hw].
    split; [|split].
    + apply Rmult_le_pos; lra.
    + apply div_nonpos; [lra | assumption].
    + apply Hmirror, Hw.
Qed.

Lemma prey_predator_make_A_signs_witness :
  exists A st',
    @prey_predator_make_A constant_rng 2 1 [4; 8] 0%nat = Ok (A, st') /\ length A = 2%nat.
Proof.
  destruct (prey_predator_make_A_signs constant_rng 2 1 [4; 8] 0%nat eq_refl)
    as [A [st' [E [L _]]]].
  - repeat constructor; lra.
  - exists A, st'. split; [exact E | exact L].
Defined.
